(** * FSX on-screen menu and overlay: a shallow embedding

    The development follows [fs42/osd/fsx_menu.py] (the full-screen menu with
    its preview, background audio and inline TV guide) and the schedule query
    of [fs42/osd/fsx_overlay.py].  Python integers are [Z], Python strings are
    [string], lists are [list]; a call that can raise returns in the [exc]
    monad; the mutable objects of the program (the window, the two helper
    process handles, the operating system's process table and the commands
    sent to the live player) are the fields of one [World] that every
    operation threads through. *)

From Stdlib Require Import ZArith Ascii.
From stdpp Require Import base tactics option list strings numbers sorting pretty.

Local Open Scope Z_scope.

(* ===================================================================== *)
(** * Part I: definitions *)
(* ===================================================================== *)

(** ** Python exceptions *)

Inductive exn : Type :=
| ZeroDivisionError
| IndexError
| OperationalError   (* sqlite3: cannot open, no such table, no such column *)
| DatabaseError      (* sqlite3: file is not a database *)
| OverflowError      (* float(): int too large to convert to float *)
| OSError.           (* subprocess.Popen, winId *)

Inductive exc (A : Type) : Type :=
| Return (a : A)
| Raise (e : exn).
Arguments Return {A} a.
Arguments Raise {A} e.

Global Instance exc_bind : MBind exc := λ A B k c,
  match c with
  | Return a => k a
  | Raise e => Raise e
  end.

(** [try: body  except Exception: handler] *)
Definition try_except {A} (body : exc A) (handler : exn → exc A) : exc A :=
  match body with
  | Return a => Return a
  | Raise e => handler e
  end.

(** [for x in l: body] over a state that the body may abandon by raising. *)
Fixpoint for_each {A S} (l : list A) (body : A → S → exc S) (s : S) : exc S :=
  match l with
  | [] => Return s
  | x :: l' => s' ← body x s ; for_each l' body s'
  end.


(** ** Python built-ins used by the menu *)

(** [a % n]: the sign of the result follows the divisor, as [Z.modulo];
    a zero divisor raises. *)
Definition py_mod (a n : Z) : exc Z :=
  if n =? 0 then Raise ZeroDivisionError else Return (a `mod` n).

Definition py_len {A} (l : list A) : Z := Z.of_nat (length l).

(** [l[i]]: a negative index counts from the end; out of range raises. *)
Definition py_getitem {A} (l : list A) (i : Z) : exc A :=
  let j := if i <? 0 then py_len l + i else i in
  if j <? 0 then Raise IndexError
  else match l !! Z.to_nat j with
       | Some x => Return x
       | None => Raise IndexError
       end.

(** Truth value of a string: [""] is false. *)
Definition truthy (s : string) : bool := negb (String.eqb s "").

(** [a or b] on optional strings ([None] and [""] are both false). *)
Definition py_or (a : option string) (b : string) : string :=
  match a with
  | Some s => if truthy s then s else b
  | None => b
  end.

Definition py_isspace (c : ascii) : bool :=
  Ascii.is_space c || ((28 <=? nat_of_ascii c)%nat && (nat_of_ascii c <=? 31)%nat).

Fixpoint lstrip (s : string) : string :=
  match s with
  | String c s' => if py_isspace c then lstrip s' else s
  | EmptyString => EmptyString
  end.

Fixpoint string_rev_onto (s acc : string) : string :=
  match s with
  | EmptyString => acc
  | String c s' => string_rev_onto s' (String c acc)
  end.
Definition string_rev (s : string) : string := string_rev_onto s "".

(** [s.strip()] *)
Definition strip (s : string) : string :=
  string_rev (lstrip (string_rev (lstrip s))).

(** [s.replace(a, b)] for single characters. *)
Fixpoint replace_char (a b : ascii) (s : string) : string :=
  match s with
  | EmptyString => EmptyString
  | String c s' => String (if Ascii.eqb c a then b else c) (replace_char a b s')
  end.

(** [s.split(sep)] for a single character. *)
Fixpoint split_on (sep : ascii) (s : string) : list string :=
  match s with
  | EmptyString => [""]
  | String c s' =>
      if Ascii.eqb c sep then "" :: split_on sep s'
      else match split_on sep s' with
           | w :: ws => String c w :: ws
           | [] => [String c ""]
           end
  end.

(** [Path(p).name] on a POSIX path: the last component, where empty
    components and ["."] are dropped by pathlib's parser. *)
Definition path_name (p : string) : string :=
  default "" (last (List.filter (λ c, truthy c && negb (String.eqb c "."))
                                (split_on "/" p))).

(** [s.rfind(".")]: the index of the last dot. *)
Fixpoint rfind_dot (s : string) : option nat :=
  match s with
  | EmptyString => None
  | String c s' =>
      match rfind_dot s' with
      | Some i => Some (S i)
      | None => if Ascii.eqb c "." then Some 0%nat else None
      end
  end.

(** [Path(name).stem] for a single component: the part before the last dot,
    unless that dot is the first or the last character. *)
Definition path_stem (name : string) : string :=
  match rfind_dot name with
  | Some i =>
      if (0 <? i)%nat && (i <? String.length name - 1)%nat
      then String.substring 0 i name else name
  | None => name
  end.

(** ** Schedule helpers (fsx_menu.py) *)

Definition _safe_title_from_path (path : string) : string :=
  let base := path_name path in
  let stem := path_stem base in
  let t := strip (replace_char "." " " (replace_char "_" " " stem)) in
  if truthy t then t else base.

(** *** The schedule store

    One row of [schedule_events].  [channel_id], [start_utc] and [end_utc] are
    the key of the table; the other columns are optional and may hold NULL. *)
Record Row : Type := {
  channel_id   : string;
  start_utc    : Z;
  end_utc      : Z;
  title        : option string;
  path         : option string;
  channel_name : option string
}.

Record Table : Type := {
  columns : list string;   (* PRAGMA table_info(schedule_events) *)
  rows    : list Row
}.

(** What [SCHED_DB] is at the time of a call. *)
Inductive Store : Type :=
| NoFile                 (* SCHED_DB.exists() is false *)
| Unreadable             (* sqlite3.connect raises *)
| Corrupt                (* connect succeeds, every statement raises *)
| Ready (t : Table).

Inductive Conn : Type :=
| CCorrupt
| COpen (t : Table).

Definition db_exists (s : Store) : bool :=
  match s with NoFile => false | _ => true end.

Definition sqlite3_connect (s : Store) : exc Conn :=
  match s with
  | NoFile | Unreadable => Raise OperationalError
  | Corrupt => Return CCorrupt
  | Ready t => Return (COpen t)
  end.

Definition has_column (t : Table) (c : string) : bool :=
  existsb (String.eqb c) (columns t).

(** A statement on [schedule_events] that names the columns [cols]: it raises
    on a corrupt file and when a named column does not exist. *)
Definition execute {A} (conn : Conn) (cols : list string) (q : list Row → A) : exc A :=
  match conn with
  | CCorrupt => Raise DatabaseError
  | COpen t =>
      if forallb (has_column t) cols then Return (q (rows t))
      else Raise OperationalError
  end.

Definition _table_has_column (conn : Conn) (column : string) : bool :=
  match conn with
  | CCorrupt => false      (* except Exception: return False *)
  | COpen t => has_column t column
  end.

(** *** SQL clauses *)

Definition key_le {A} (key : A → Z) : relation A := λ a b, key a ≤ key b.

Global Instance key_le_dec {A} (key : A → Z) : RelDecision (key_le key).
Proof. intros a b. unfold key_le. apply _. Defined.

(** [ORDER BY key ASC] and [ORDER BY key DESC].  SQLite leaves the order of
    rows with equal keys open; the model fixes it to what the merge sort
    gives. *)
Definition order_by_asc {A} (key : A → Z) (l : list A) : list A :=
  merge_sort (key_le key) l.
Definition order_by_desc {A} (key : A → Z) (l : list A) : list A :=
  merge_sort (key_le (λ a, - key a)) l.

(** [LIMIT n] and [fetchone()]. *)
Definition limit {A} (n : nat) (l : list A) : list A := take n l.
Definition fetchone {A} (l : list A) : option A := head l.

(** [CAST(text AS INTEGER)]: SQLite skips its blanks (space and the
    characters 9 to 13), takes the longest prefix that reads as a signed
    decimal number, [0] when there is none, and saturates the value at the
    ends of the 64-bit range. *)
Fixpoint digits_value (s : string) (acc : Z) : Z :=
  match s with
  | String c s' =>
      match Ascii.is_nat c with
      | Some d => digits_value s' (10 * acc + Z.of_nat d)
      | None => acc
      end
  | EmptyString => acc
  end.

Definition sqlite_isspace (c : ascii) : bool :=
  (nat_of_ascii c =? 32)%nat
  || ((9 <=? nat_of_ascii c)%nat && (nat_of_ascii c <=? 13)%nat).

Fixpoint skip_blanks (s : string) : string :=
  match s with
  | String c s' => if sqlite_isspace c then skip_blanks s' else s
  | EmptyString => EmptyString
  end.

Definition LARGEST_INT64 : Z := 9223372036854775807.
Definition SMALLEST_INT64 : Z := -9223372036854775808.

Definition sql_cast_integer (s : string) : Z :=
  let v := match skip_blanks s with
           | String "-" s' => - digits_value s' 0
           | String "+" s' => digits_value s' 0
           | s' => digits_value s' 0
           end in
  Z.max SMALLEST_INT64 (Z.min LARGEST_INT64 v).

(** [float(n)] for an integer [n]: the nearest double, ties to even, given
    here by its value, which is a whole number; [OverflowError] when that
    would be [2^1024] or more.  Up to [2^53] every integer is a double. *)
Definition float_of_int (n : Z) : exc Z :=
  let a := Z.abs n in
  let b := Z.log2 a in
  if b <? 53 then Return n else
  let sh := b - 52 in
  let q := Z.shiftr a sh in
  let r := Z.land a (Z.ones sh) in
  let half := Z.shiftl 1 (sh - 1) in
  let q' := if (half <? r) || ((r =? half) && Z.odd q) then q + 1 else q in
  let v := Z.shiftl q' sh in
  if 2 ^ 1024 <=? v then Raise OverflowError else Return (Z.sgn n * v).

(** *** resolve_now_path_and_offset

    The statement
    [SELECT path, start_utc FROM schedule_events WHERE channel_id=? AND
     start_utc<=? AND end_utc>? ORDER BY start_utc DESC LIMIT 1]. *)
Definition q_current (ch_id : string) (now : Z) (rs : list Row) : list Row :=
  limit 1 (order_by_desc start_utc
    (List.filter (λ r, String.eqb (channel_id r) ch_id
                       && (start_utc r <=? now) && (now <? end_utc r)) rs)).

Definition q_current_cols : list string :=
  ["path"; "start_utc"; "channel_id"; "end_utc"].

(** The body of the [try] block; the offset is [float(max(0, now - start))],
    a double whose value is a whole number of seconds. *)
Definition resolve_try (s : Store) (now : Z) (ch_id : string)
  : exc (option (string * Z)) :=
  if negb (db_exists s) then Return None else
  conn ← sqlite3_connect s ;
  row ← execute conn q_current_cols (λ rs, fetchone (q_current ch_id now rs)) ;
  match row with
  | None => Return None
  | Some r =>
      match path r with
      | None => Return None
      | Some p =>
          if negb (truthy p) then Return None
          else off ← float_of_int (Z.max 0 (now - start_utc r)) ;
               Return (Some (p, off))
      end
  end.

Definition resolve_now_path_and_offset (s : Store) (now : Z) (ch_id : string)
  : exc (option (string * Z)) :=
  try_except (resolve_try s now ch_id) (λ _, Return None).

(** *** load_channels_and_events *)

Record Event : Type := {
  ev_title : string;
  ev_start : Z;
  ev_end   : Z
}.

Record Channel : Type := {
  ch_id     : string;
  ch_name   : string;
  ch_events : list Event
}.

(** [SELECT DISTINCT channel_id FROM schedule_events
     ORDER BY CAST(channel_id AS INTEGER) ASC] *)
Definition q_channels (rs : list Row) : list string :=
  order_by_asc sql_cast_integer (remove_dups (channel_id <$> rs)).

(** [SELECT channel_name FROM schedule_events WHERE channel_id=? AND
     channel_name IS NOT NULL AND channel_name!='' LIMIT 1] *)
Definition q_channel_name (id : string) (rs : list Row) : list Row :=
  limit 1 (List.filter (λ r, String.eqb (channel_id r) id
                             && match channel_name r with
                                | Some n => truthy n
                                | None => false
                                end) rs).

(** [SELECT ... start_utc, end_utc FROM schedule_events
     WHERE channel_id=? AND end_utc>? ORDER BY start_utc ASC LIMIT 6] *)
Definition q_events (id : string) (now_ts : Z) (rs : list Row) : list Row :=
  limit 6 (order_by_asc start_utc
    (List.filter (λ r, String.eqb (channel_id r) id && (now_ts <? end_utc r)) rs)).

Definition q_events_cols (has_title has_path : bool) : list string :=
  (if has_title then ["title"] else []) ++
  (if has_path then ["path"] else []) ++
  ["start_utc"; "end_utc"; "channel_id"].

Definition dash : string := "—".

(** The body of [for r in ev_rows]: one guide event from one row. *)
Definition event_of_row (has_title has_path : bool) (r : Row) : Event :=
  let start_ := start_utc r in
  let end_ := end_utc r in
  let end_ := if end_ <=? start_ then start_ + 60 else end_ in
  let title0 := if has_title then strip (py_or (title r) "") else "" in
  let title1 := if negb (truthy title0) && has_path
                then _safe_title_from_path (py_or (path r) "") else title0 in
  let title2 := if negb (truthy title1) then dash else title1 in
  {| ev_title := title2; ev_start := start_; ev_end := end_ |}.

Definition placeholder_event (now_ts : Z) : Event :=
  {| ev_title := dash; ev_start := now_ts; ev_end := now_ts + 3600 |}.

(** The body of [for ch in chans]: appends one channel to [out]. *)
Definition load_channel (conn : Conn) (now_ts : Z)
    (has_channel_name has_title has_path : bool)
    (id : string) (out : list Channel) : exc (list Channel) :=
  name ←
    (if has_channel_name then
       name_row ← execute conn ["channel_name"; "channel_id"]
                    (λ rs, fetchone (q_channel_name id rs)) ;
       Return (match name_row with
               | Some r =>
                   match channel_name r with
                   | Some n => if truthy n then strip n else "Channel " +:+ id
                   | None => "Channel " +:+ id
                   end
               | None => "Channel " +:+ id
               end)
     else Return ("Channel " +:+ id)) ;
  ev_rows ← execute conn (q_events_cols has_title has_path) (q_events id now_ts) ;
  let events := event_of_row has_title has_path <$> ev_rows in
  let events := match events with
                | [] => [placeholder_event now_ts]
                | _ => events
                end in
  Return (out ++ [{| ch_id := id; ch_name := name; ch_events := events |}]).

(** [sqlite3.connect] is called before the [try]; the [try] has a [finally]
    that closes the connection and no [except], so whatever a statement
    raises leaves the function. *)
Definition load_channels_and_events (s : Store) (now_ts : Z) : exc (list Channel) :=
  if negb (db_exists s) then Return [] else
  conn ← sqlite3_connect s ;
  let has_channel_name := _table_has_column conn "channel_name" in
  let has_title := _table_has_column conn "title" in
  let has_path := _table_has_column conn "path" in
  chans ← execute conn ["channel_id"] q_channels ;
  for_each chans (load_channel conn now_ts has_channel_name has_title has_path) [].

(** ** schedule_now_next (fsx_overlay.py)

    Two [SELECT *] statements on an open connection; the rows are returned
    as they are stored. *)
Definition q_next (cid : string) (now_ts : Z) (rs : list Row) : list Row :=
  limit 1 (order_by_asc start_utc
    (List.filter (λ r, String.eqb (channel_id r) cid && (now_ts <? start_utc r)) rs)).

Definition schedule_now_next (conn : Conn) (cid : string) (now_ts : Z)
  : exc (option Row * option Row) :=
  now_row ← execute conn ["channel_id"; "start_utc"; "end_utc"]
              (λ rs, fetchone (q_current cid now_ts rs)) ;
  next_row ← execute conn ["channel_id"; "start_utc"]
               (λ rs, fetchone (q_next cid now_ts rs)) ;
  Return (now_row, next_row).

(** ** The world around the menu

    A JSON scalar of the player's [/status] answer. *)
Inductive JVal : Type :=
| JStr (s : string)
| JInt (n : Z).

Definition jtruthy (v : JVal) : bool :=
  match v with
  | JStr s => truthy s
  | JInt n => negb (n =? 0)
  end.

(** [str(v)] *)
Definition jstr (v : JVal) : string :=
  match v with
  | JStr s => s
  | JInt n => pretty n
  end.

(** [a or b] on optional JSON scalars ([dict.get] gives [None] for a
    missing key). *)
Definition jor (a b : option JVal) : option JVal :=
  match a with
  | Some v => if jtruthy v then a else b
  | None => b
  end.

Record Status : Type := {
  s_channel      : option JVal;
  s_channel_id   : option JVal;
  s_ch           : option JVal;
  s_channel_name : option JVal;
  s_name         : option JVal;
  s_ch_name      : option JVal
}.

(** Everything the program reads from outside during one command.  The
    surroundings covered are those in which [Path.exists()] answers (in the
    code a [stat] that fails for another reason than a missing file raises,
    and the calls at lines 339, 622 and 630 are outside every [try]) and in
    which the player's status, when there is one, is a JSON object (on
    another truthy value [_update_pip_footer_from_status] raises at
    [st.get]). *)
Record Env : Type := {
  now           : Z;                  (* int(time.time()) *)
  store         : Store;              (* the file SCHED_DB *)
  file_exists   : string → bool;      (* what Path(p).exists() returns *)
  http_post     : string → bool * Z;  (* (ok, code) of a POST to the player *)
  status        : option Status;      (* http_get_json(".../status"): an object, or none *)
  win_id        : exc Z;              (* int(self.winId()) *)
  popen_ok      : list string → bool; (* subprocess.Popen(args) succeeds *)
  exits_on_term : nat → bool          (* the child exits within 0.8 s of SIGTERM *)
}.

(** Who spawned a helper process. *)
Inductive Owner : Type := OwnPreview | OwnAudio.

Global Instance Owner_eq_dec : EqDecision Owner.
Proof. solve_decision. Defined.

(** An entry of the process table; the pid is its index. *)
Record Proc : Type := {
  p_owner : Owner;
  p_args  : list string;
  p_alive : bool              (* poll() is None *)
}.

(** What the program sends out. *)
Inductive Effect : Type :=
| HttpPost (url : string)
| HttpGet (url : string)
| MpvIpc (property : string) (value : bool)
| Spawn (pid : nat)
| SigTerm (pid : nat)
| SigKill (pid : nat).

Inductive Mode : Type := ModeRoot | ModeGuide.

Global Instance Mode_eq_dec : EqDecision Mode.
Proof. solve_decision. Defined.

Record PiPFooter : Type := {
  f_ch_num  : string;
  f_ch_name : string;
  f_shown   : bool
}.

Record MenuAudio : Type := {
  a_path   : string;
  a_volume : Z;
  a_proc   : option nat
}.

(** The fields of [MenuWindow]; [preview] is [self.preview.proc]. *)
Record MenuWindow : Type := {
  visible       : bool;
  items         : list string;
  sel           : Z;
  sel_last      : Z;
  mode          : Mode;
  guide_rows    : list Channel;
  g_sel_row     : Z;
  g_sel_col     : Z;
  g_row_offset  : Z;
  g_max_visible : Z;
  preview       : option nat;
  menu_audio    : MenuAudio;
  pip_footer    : PiPFooter
}.

Record World : Type := {
  env   : Env;
  procs : list Proc;
  sent  : list Effect;
  win   : MenuWindow
}.

Definition MENU_ITEMS : list string := ["Live TV"; "TV Guide"; "Planner"; "OnDemand"].
Definition MENU_AUDIO_VOL : Z := 45.
Definition GUIDE_MAX_ROWS : Z := 8.
Definition GPU_CONTEXT : string := "x11egl".
Definition HWDEC : string := "auto-safe".
Definition ALANG : string := "eng,en".
Definition SLANG : string := "dut,nld".
Definition player_url (p : string) : string := "http://127.0.0.1:4243" +:+ p.

(** *** Field updates *)

Definition set_visible (v : bool) (m : MenuWindow) : MenuWindow :=
  Build_MenuWindow v (items m) (sel m) (sel_last m) (mode m) (guide_rows m)
    (g_sel_row m) (g_sel_col m) (g_row_offset m) (g_max_visible m)
    (preview m) (menu_audio m) (pip_footer m).
Definition set_sel (v : Z) (m : MenuWindow) : MenuWindow :=
  Build_MenuWindow (visible m) (items m) v (sel_last m) (mode m) (guide_rows m)
    (g_sel_row m) (g_sel_col m) (g_row_offset m) (g_max_visible m)
    (preview m) (menu_audio m) (pip_footer m).
Definition set_sel_last (v : Z) (m : MenuWindow) : MenuWindow :=
  Build_MenuWindow (visible m) (items m) (sel m) v (mode m) (guide_rows m)
    (g_sel_row m) (g_sel_col m) (g_row_offset m) (g_max_visible m)
    (preview m) (menu_audio m) (pip_footer m).
Definition set_mode (v : Mode) (m : MenuWindow) : MenuWindow :=
  Build_MenuWindow (visible m) (items m) (sel m) (sel_last m) v (guide_rows m)
    (g_sel_row m) (g_sel_col m) (g_row_offset m) (g_max_visible m)
    (preview m) (menu_audio m) (pip_footer m).
Definition set_guide_rows (v : list Channel) (m : MenuWindow) : MenuWindow :=
  Build_MenuWindow (visible m) (items m) (sel m) (sel_last m) (mode m) v
    (g_sel_row m) (g_sel_col m) (g_row_offset m) (g_max_visible m)
    (preview m) (menu_audio m) (pip_footer m).
Definition set_g_sel_row (v : Z) (m : MenuWindow) : MenuWindow :=
  Build_MenuWindow (visible m) (items m) (sel m) (sel_last m) (mode m) (guide_rows m)
    v (g_sel_col m) (g_row_offset m) (g_max_visible m)
    (preview m) (menu_audio m) (pip_footer m).
Definition set_g_sel_col (v : Z) (m : MenuWindow) : MenuWindow :=
  Build_MenuWindow (visible m) (items m) (sel m) (sel_last m) (mode m) (guide_rows m)
    (g_sel_row m) v (g_row_offset m) (g_max_visible m)
    (preview m) (menu_audio m) (pip_footer m).
Definition set_g_row_offset (v : Z) (m : MenuWindow) : MenuWindow :=
  Build_MenuWindow (visible m) (items m) (sel m) (sel_last m) (mode m) (guide_rows m)
    (g_sel_row m) (g_sel_col m) v (g_max_visible m)
    (preview m) (menu_audio m) (pip_footer m).
Definition set_preview (v : option nat) (m : MenuWindow) : MenuWindow :=
  Build_MenuWindow (visible m) (items m) (sel m) (sel_last m) (mode m) (guide_rows m)
    (g_sel_row m) (g_sel_col m) (g_row_offset m) (g_max_visible m)
    v (menu_audio m) (pip_footer m).
Definition set_menu_audio (v : MenuAudio) (m : MenuWindow) : MenuWindow :=
  Build_MenuWindow (visible m) (items m) (sel m) (sel_last m) (mode m) (guide_rows m)
    (g_sel_row m) (g_sel_col m) (g_row_offset m) (g_max_visible m)
    (preview m) v (pip_footer m).
Definition set_pip_footer (v : PiPFooter) (m : MenuWindow) : MenuWindow :=
  Build_MenuWindow (visible m) (items m) (sel m) (sel_last m) (mode m) (guide_rows m)
    (g_sel_row m) (g_sel_col m) (g_row_offset m) (g_max_visible m)
    (preview m) (menu_audio m) v.

Definition set_a_proc (v : option nat) (a : MenuAudio) : MenuAudio :=
  {| a_path := a_path a; a_volume := a_volume a; a_proc := v |}.

Definition set_env (e : Env) (w : World) : World :=
  {| env := e; procs := procs w; sent := sent w; win := win w |}.
Definition set_procs (ps : list Proc) (w : World) : World :=
  {| env := env w; procs := ps; sent := sent w; win := win w |}.
Definition set_win (m : MenuWindow) (w : World) : World :=
  {| env := env w; procs := procs w; sent := sent w; win := m |}.
Definition on_win (f : MenuWindow → MenuWindow) (w : World) : World :=
  set_win (f (win w)) w.
(** Appends to the log of what was sent out. *)
Definition emit (e : Effect) (w : World) : World :=
  {| env := env w; procs := procs w; sent := sent w ++ [e]; win := win w |}.

(** ** Helper processes

    [subprocess.Popen(args)]: a new entry of the process table, or [OSError]
    when the program cannot be started. *)
Definition Popen (o : Owner) (args : list string) (w : World) : exc (nat * World) :=
  if popen_ok (env w) args then
    let pid := length (procs w) in
    Return (pid, emit (Spawn pid)
                   (set_procs (procs w ++ [{| p_owner := o; p_args := args;
                                              p_alive := true |}]) w))
  else Raise OSError.

(** [proc.poll() is None] *)
Definition is_running (pid : nat) (w : World) : bool :=
  match procs w !! pid with
  | Some p => p_alive p
  | None => false
  end.

Definition exited (p : Proc) : Proc :=
  {| p_owner := p_owner p; p_args := p_args p; p_alive := false |}.

(** The process is gone: it exited on its own, after SIGTERM, or on SIGKILL,
    which a process cannot ignore. *)
Definition reap (pid : nat) (w : World) : World :=
  set_procs (alter exited pid (procs w)) w.

(** The common body of [PreviewWidget.stop_preview] and [MenuAudio.stop]
    before [self.proc = None]:
    [terminate(); wait(timeout=0.8)], and [kill()] on [TimeoutExpired].
    Signalling one's own running child does not fail, so the enclosing
    [except Exception: pass] has nothing to catch here. *)
Definition terminate_wait_kill (proc : option nat) (w : World) : World :=
  match proc with
  | Some pid =>
      if is_running pid w then
        let w := emit (SigTerm pid) w in
        if exits_on_term (env w) pid then reap pid w
        else reap pid (emit (SigKill pid) w)
      else w
  | None => w
  end.

(** *** PreviewWidget *)

Definition stop_preview (w : World) : World :=
  on_win (set_preview None) (terminate_wait_kill (preview (win w)) w).

Definition preview_args (path : string) (start_sec wid : Z) : list string :=
  [ "mpv"; path;
    "--no-config"; "--no-input-default-bindings";
    "--mute=yes"; "--no-osc"; "--osd-level=0";
    "--hr-seek=no"; "--profile=low-latency";
    "--keep-open=yes";
    "--start=" +:+ pretty (Z.max 0 start_sec) +:+ ".000";
    "--wid=" +:+ pretty wid; "--no-border"; "--force-window=yes";
    "--vo=gpu"; "--gpu-context=" +:+ GPU_CONTEXT;
    "--hwdec=" +:+ HWDEC;
    "--alang=" +:+ ALANG; "--slang=" +:+ SLANG;
    "--video-aspect-override=16:9"; "--keepaspect=yes" ].

Definition start_preview (path : string) (start_sec : Z) (w : World) : exc World :=
  let w := stop_preview w in
  try_except
    (wid ← win_id (env w);
     r ← Popen OwnPreview (preview_args path start_sec wid) w;
     Return (on_win (set_preview (Some r.1)) r.2))
    (λ _, Return (on_win (set_preview None) w)).

(** *** MenuAudio *)

Definition new_MenuAudio (path : string) (volume : Z) : MenuAudio :=
  {| a_path := path; a_volume := Z.max 0 (Z.min 100 volume); a_proc := None |}.

Definition audio_stop (w : World) : World :=
  on_win (λ m, set_menu_audio (set_a_proc None (menu_audio m)) m)
         (terminate_wait_kill (a_proc (menu_audio (win w))) w).

Definition audio_args (a : MenuAudio) : list string :=
  [ "mpv"; a_path a;
    "--no-config"; "--no-video"; "--loop-file=inf";
    "--really-quiet"; "--no-osc"; "--osd-level=0";
    "--volume=" +:+ pretty (a_volume a);
    "--audio-channels=stereo";
    "--audio-buffer=0.3" ].

Definition audio_start (w : World) : exc World :=
  if negb (file_exists (env w) (a_path (menu_audio (win w)))) then Return w else
  let w := audio_stop w in
  try_except
    (r ← Popen OwnAudio (audio_args (menu_audio (win w))) w;
     Return (on_win (λ m, set_menu_audio (set_a_proc (Some r.1) (menu_audio m)) m) r.2))
    (λ _, Return (on_win (λ m, set_menu_audio (set_a_proc None (menu_audio m)) m) w)).

(** *** PiPFooter *)

Definition set_info (ch_num ch_name : string) (f : PiPFooter) : PiPFooter :=
  {| f_ch_num := ch_num; f_ch_name := ch_name;
     f_shown := truthy ch_num || truthy ch_name |}.
Definition footer_show (f : PiPFooter) : PiPFooter :=
  {| f_ch_num := f_ch_num f; f_ch_name := f_ch_name f; f_shown := true |}.
Definition footer_hide (f : PiPFooter) : PiPFooter :=
  {| f_ch_num := f_ch_num f; f_ch_name := f_ch_name f; f_shown := false |}.

(** ** The upstream player *)

(** [ok, code, _ = http_post(url)] followed by [ok and code == 200]. *)
Definition post_200 (url : string) (w : World) : bool * World :=
  let r := http_post (env w) url in
  (r.1 && (r.2 =? 200), emit (HttpPost url) w).

Definition get_status (w : World) : option Status * World :=
  (status (env w), emit (HttpGet (player_url "/status")) w).

Definition mpv_pause_on (w : World) : World :=
  emit (MpvIpc "mute" true) (emit (MpvIpc "pause" true) w).
Definition mpv_pause_off (w : World) : World :=
  emit (MpvIpc "mute" false) (emit (MpvIpc "pause" false) w).

Definition _pause_playback (w : World) : World :=
  let r := post_200 (player_url "/pause") w in
  if r.1 then r.2 else mpv_pause_on r.2.

Definition _return_to_live (w : World) : World :=
  let r := post_200 (player_url "/live") w in
  if r.1 then r.2 else
  let g := get_status r.2 in
  let ch := match g.1 with
            | Some st => jstr <$> s_channel st
            | None => None
            end in
  match ch with
  | Some c =>
      if truthy c then mpv_pause_off (post_200 (player_url ("/zap/" +:+ c)) g.2).2
      else mpv_pause_off g.2
  | None => mpv_pause_off g.2
  end.

(** ** MenuWindow *)

Definition new_MenuWindow (audio_path : string) (audio_vol : Z) : MenuWindow :=
  {| visible := false; items := MENU_ITEMS; sel := 0; sel_last := 0;
     mode := ModeRoot; guide_rows := [];
     g_sel_row := 0; g_sel_col := 0; g_row_offset := 0;
     g_max_visible := GUIDE_MAX_ROWS;
     preview := None;
     menu_audio := new_MenuAudio audio_path audio_vol;
     pip_footer := {| f_ch_num := ""; f_ch_name := ""; f_shown := false |} |}.

Definition boot (e : Env) (audio_path : string) (audio_vol : Z) : World :=
  {| env := e; procs := []; sent := []; win := new_MenuWindow audio_path audio_vol |}.

Definition in_mode (m : Mode) (w : World) : bool := bool_decide (mode (win w) = m).

Definition _start_preview_from_channel (ch : string) (w : World) : exc World :=
  pair ← resolve_now_path_and_offset (store (env w)) (now (env w)) ch;
  match pair with
  | None => Return w
  | Some (path, off) =>
      if negb (file_exists (env w) path) then Return w
      else start_preview path off w
  end.

Definition _start_preview_from_status (w : World) : exc World :=
  let g := get_status w in
  match g.1 with
  | Some st =>
      match s_channel st with
      | Some ch => _start_preview_from_channel (jstr ch) g.2
      | None => Return g.2
      end
  | None => Return g.2
  end.

Definition _update_pip_footer_from_status (w : World) : World :=
  let g := get_status w in
  let ch_num := match g.1 with
                | Some st => jor (s_channel st) (jor (s_channel_id st) (s_ch st))
                | None => None
                end in
  let ch_name := match g.1 with
                 | Some st => jor (s_channel_name st) (jor (s_name st) (s_ch_name st))
                 | None => None
                 end in
  let ch_num_s := match ch_num with
                  | Some v => if jtruthy v then jstr v else ""
                  | None => ""
                  end in
  let ch_name_s := match ch_name with
                   | Some v => if jtruthy v then jstr v else ""
                   | None => ""
                   end in
  let ch_name_s := if negb (truthy ch_name_s) && truthy ch_num_s
                   then "Channel " +:+ ch_num_s else ch_name_s in
  on_win (λ m, set_pip_footer (footer_show (set_info ch_num_s ch_name_s (pip_footer m))) m) g.2.

Definition open_menu (w : World) : exc World :=
  let w := on_win (set_visible true) w in
  let w := _pause_playback w in
  w ← _start_preview_from_status w;
  let w := _update_pip_footer_from_status w in
  w ← audio_start w;
  Return (on_win (λ m, set_sel (sel_last m) (set_mode ModeRoot m)) w).

Definition close_menu (w : World) : World :=
  let w := audio_stop w in
  let w := stop_preview w in
  let w := on_win (λ m, set_pip_footer (footer_hide (pip_footer m)) m) w in
  let w := on_win (set_visible false) w in
  _return_to_live w.

(** *** Root-mode navigation *)

Definition nav_up (w : World) : exc World :=
  if negb (in_mode ModeRoot w) then Return w else
  s ← py_mod (sel (win w) - 1) (py_len (items (win w)));
  Return (on_win (λ m, set_sel_last s (set_sel s m)) w).

Definition nav_down (w : World) : exc World :=
  if negb (in_mode ModeRoot w) then Return w else
  s ← py_mod (sel (win w) + 1) (py_len (items (win w)));
  Return (on_win (λ m, set_sel_last s (set_sel s m)) w).

(** *** Guide-mode helpers and navigation *)

Definition _guide_current_channel_id (w : World) : exc (option string) :=
  match guide_rows (win w) with
  | [] => Return None
  | _ =>
      let row := Z.max 0 (Z.min (g_sel_row (win w)) (py_len (guide_rows (win w)) - 1)) in
      ch ← py_getitem (guide_rows (win w)) row;
      Return (Some (ch_id ch))
  end.

(** [if ch_id: _start_preview_from_channel(ch_id); ch_name = ...;
     pip_footer.set_info(str(ch_id), ch_name)], shared by the guide entry
    and the two row moves; [show] tells whether [pip_footer.show()] follows. *)
Definition anchor_row (show : bool) (w : World) : exc World :=
  id ← _guide_current_channel_id w;
  match id with
  | Some c =>
      if truthy c then
        w ← _start_preview_from_channel c w;
        name ← match guide_rows (win w) with
               | [] => Return ""
               | _ => ch ← py_getitem (guide_rows (win w)) (g_sel_row (win w));
                      Return (ch_name ch)
               end;
        let f := set_info c name (pip_footer (win w)) in
        Return (on_win (set_pip_footer (if show then footer_show f else f)) w)
      else Return w
  | None => Return w
  end.

Definition _enter_guide_mode (w : World) : exc World :=
  rows ← try_except (load_channels_and_events (store (env w)) (now (env w)))
                    (λ _, Return []);
  let w := on_win (λ m, set_mode ModeGuide
                          (set_g_row_offset 0
                            (set_g_sel_col 0
                              (set_g_sel_row 0 (set_guide_rows rows m))))) w in
  anchor_row true w.

Definition guide_left (w : World) : exc World :=
  if negb (in_mode ModeGuide w) then Return w else
  Return (on_win (λ m, set_g_sel_col (Z.max 0 (g_sel_col m - 1)) m) w).

Definition guide_right (w : World) : exc World :=
  if negb (in_mode ModeGuide w) then Return w else
  match guide_rows (win w) with
  | [] => Return w
  | _ =>
      row ← py_getitem (guide_rows (win w)) (g_sel_row (win w));
      let max_col := Z.max 0 (py_len (ch_events row) - 1) in
      Return (on_win (λ m, set_g_sel_col (Z.min max_col (g_sel_col m + 1)) m) w)
  end.

Definition guide_page_up (w : World) : exc World :=
  if negb (in_mode ModeGuide w) then Return w else
  match guide_rows (win w) with
  | [] => Return w
  | _ =>
      let w := on_win (λ m, set_g_sel_row (Z.max 0 (g_sel_row m - 1)) m) w in
      let w := if g_sel_row (win w) <? g_row_offset (win w)
               then on_win (λ m, set_g_row_offset (g_sel_row m) m) w else w in
      anchor_row false w
  end.

Definition guide_page_down (w : World) : exc World :=
  if negb (in_mode ModeGuide w) then Return w else
  match guide_rows (win w) with
  | [] => Return w
  | _ =>
      let w := on_win (λ m, set_g_sel_row
                              (Z.min (py_len (guide_rows m) - 1) (g_sel_row m + 1)) m) w in
      let w := if g_row_offset (win w) + g_max_visible (win w) <=? g_sel_row (win w)
               then on_win (λ m, set_g_row_offset
                                   (g_sel_row m - g_max_visible m + 1) m) w
               else w in
      anchor_row false w
  end.

Definition nav_enter (w : World) : exc World :=
  match mode (win w) with
  | ModeRoot =>
      let w := on_win (λ m, set_sel_last (sel m) m) w in
      label ← py_getitem (items (win w)) (sel (win w));
      if String.eqb label "Live TV" then Return (close_menu w)
      else if String.eqb label "TV Guide" then _enter_guide_mode w
      else if String.eqb label "OnDemand" then Return (close_menu w)
      else if String.eqb label "Planner" then Return (close_menu w)
      else Return w
  | ModeGuide =>
      id ← _guide_current_channel_id w;
      let w := match id with
               | Some c => if truthy c
                           then (post_200 (player_url ("/zap/" +:+ c)) w).2 else w
               | None => w
               end in
      Return (close_menu w)
  end.

(** *** Programmatic selection *)

Inductive Target : Type :=
| TInt (i : Z)
| TStr (s : string).

(** [l.index(x)] *)
Fixpoint list_index (x : string) (l : list string) : option Z :=
  match l with
  | [] => None
  | y :: l' => if String.eqb y x then Some 0 else Z.succ <$> list_index x l'
  end.

Definition select_at (i : Z) (w : World) : World :=
  on_win (λ m, set_sel_last i (set_sel i m)) w.

Definition _select_item (target : Target) (w : World) : bool * World :=
  match target with
  | TInt i =>
      if (0 <=? i) && (i <? py_len (items (win w))) then (true, select_at i w)
      else (false, w)
  | TStr s =>
      match list_index s (items (win w)) with
      | Some idx => (true, select_at idx w)
      | None => (false, w)
      end
  end.

Definition _activate_selection (w : World) : exc World := nav_enter w.

(** [int(key)] on a string of Latin-1 characters, as the handler receives
    it; [None] stands for [ValueError].  Blanks at either end are dropped
    (the characters 9 to 13, the space, and 133 and 160, which [int] turns
    into spaces; the characters 28 to 31 are not blanks for [int]); then
    comes an optional sign and decimal digits, with single underscores
    allowed between digits.  More than [INT_MAX_STR_DIGITS] digits are
    refused. *)
Definition int_isspace (c : ascii) : bool :=
  ((9 <=? nat_of_ascii c)%nat && (nat_of_ascii c <=? 13)%nat)
  || (nat_of_ascii c =? 32)%nat
  || (nat_of_ascii c =? 133)%nat || (nat_of_ascii c =? 160)%nat.

Fixpoint int_lstrip (s : string) : string :=
  match s with
  | String c s' => if int_isspace c then int_lstrip s' else s
  | EmptyString => EmptyString
  end.

Definition int_strip (s : string) : string :=
  string_rev (int_lstrip (string_rev (int_lstrip s))).

Definition INT_MAX_STR_DIGITS : nat := 4300.

(** The digits of the literal: the value and the number of digits read;
    [after_digit] tells whether the character before was a digit. *)
Fixpoint int_digits (s : string) (after_digit : bool) (acc : Z) (count : nat)
  : option (Z * nat) :=
  match s with
  | EmptyString => if after_digit then Some (acc, count) else None
  | String c s' =>
      match Ascii.is_nat c with
      | Some d => int_digits s' true (10 * acc + Z.of_nat d) (S count)
      | None =>
          if Ascii.eqb c "_" && after_digit then int_digits s' false acc count
          else None
      end
  end.

Definition parse_int (key : string) : option Z :=
  let k := int_strip key in
  let neg := match k with String "-" _ => true | _ => false end in
  let body := match k with
              | String "-" s | String "+" s => s
              | _ => k
              end in
  match int_digits body false 0 0 with
  | Some (v, n) =>
      if (INT_MAX_STR_DIGITS <? n)%nat then None
      else Some (if neg then - v else v)
  | None => None
  end.

(** [try: int(key)  except ValueError: key] *)
Definition target_of_key (key : string) : Target :=
  match parse_int key with
  | Some i => TInt i
  | None => TStr key
  end.

(** ** The command surface: [_Http.do_POST] *)

Inductive Reply : Type :=
| ROk                                            (* {"ok": true} *)
| RAction (a : string)                           (* {"ok": true, "action": a} *)
| RVisible (v : bool)                            (* {"ok": true, "visible": v} *)
| RIgnored                                       (* {"ok": true, "ignored": "not-visible"} *)
| RSelected (ok : bool) (label : option string)  (* {"ok": ok, "selected": label} *)
| RNoSuchItem                                    (* {"ok": false, "error": "no such item"} *)
| RActivated                                     (* {"ok": true, "activated": true} *)
| RUnknown.                                      (* 404 *)

Definition after_prefix (p s : string) : string :=
  String.substring (String.length p) (String.length s - String.length p) s.

Definition do_POST (path : string) (w : World) : exc (World * Reply) :=
  if String.eqb path "/menu/open" then
    w ← open_menu w; Return (w, RAction "open")
  else if String.eqb path "/menu/close" then
    Return (close_menu w, RAction "close")
  else if String.eqb path "/menu/toggle" then
    let vis := negb (visible (win w)) in
    w ← (if vis then open_menu w else Return (close_menu w));
    Return (w, RVisible vis)
  else if negb (visible (win w)) then Return (w, RIgnored)
  else if String.eqb path "/menu/nav/up" then
    w ← nav_up w; Return (w, ROk)
  else if String.eqb path "/menu/nav/down" then
    w ← nav_down w; Return (w, ROk)
  else if existsb (String.eqb path)
            ["/menu/enter"; "/menu/nav/enter"; "/menu/key/enter"; "/menu/ok"; "/menu/select"] then
    w ← nav_enter w; Return (w, ROk)
  else if String.eqb path "/menu/esc" then
    Return (close_menu w, ROk)
  else if String.eqb path "/menu/nav/left" then
    w ← (if in_mode ModeGuide w then guide_left w else nav_up w); Return (w, ROk)
  else if String.eqb path "/menu/nav/right" then
    w ← (if in_mode ModeGuide w then guide_right w else nav_down w); Return (w, ROk)
  else if String.eqb path "/menu/nav/pageup" then
    w ← (if in_mode ModeGuide w then guide_page_up w else nav_up w); Return (w, ROk)
  else if String.eqb path "/menu/nav/pagedown" then
    w ← (if in_mode ModeGuide w then guide_page_down w else nav_down w); Return (w, ROk)
  else if String.eqb path "/menu/guide" then
    w ← _enter_guide_mode w; Return (w, RAction "guide")
  else if String.prefix "/menu/select/" path then
    let key := after_prefix "/menu/select/" path in
    let r := _select_item (target_of_key key) w in
    if r.1 then
      label ← py_getitem (items (win r.2)) (sel (win r.2));
      Return (r.2, RSelected true (Some label))
    else Return (r.2, RSelected false None)
  else if String.prefix "/menu/activate/" path then
    let key := after_prefix "/menu/activate/" path in
    let r := if truthy key then _select_item (target_of_key key) w else (true, w) in
    if r.1 then
      w ← _activate_selection r.2; Return (w, RActivated)
    else Return (r.2, RNoSuchItem)
  else Return (w, RUnknown).

(** ** Raw keys: [MenuWindow.keyPressEvent] *)

Inductive Key : Type :=
| Key_Escape | Key_Home
| Key_Up | Key_Down | Key_Left | Key_Right
| Key_Return | Key_Enter
| Key_PageUp | Key_PageDown
| Key_Other.

Definition page_step (d : Z) (w : World) : exc World :=
  s ← py_mod (sel (win w) + d) (py_len (items (win w)));
  Return (on_win (λ m, set_sel_last s (set_sel s m)) w).

Definition keyPressEvent (k : Key) (w : World) : exc World :=
  match k with
  | Key_Escape => Return (close_menu w)
  | Key_Home => if visible (win w) then Return (close_menu w) else open_menu w
  | _ =>
      if negb (visible (win w)) then Return w else
      match mode (win w), k with
      | ModeRoot, (Key_Up | Key_Left) => nav_up w
      | ModeRoot, (Key_Down | Key_Right) => nav_down w
      | ModeRoot, (Key_Return | Key_Enter) => nav_enter w
      | ModeRoot, Key_PageUp => page_step (-2) w
      | ModeRoot, Key_PageDown => page_step 2 w
      | ModeGuide, Key_Left => guide_left w
      | ModeGuide, Key_Right => guide_right w
      | ModeGuide, (Key_PageUp | Key_Up) => guide_page_up w
      | ModeGuide, (Key_PageDown | Key_Down) => guide_page_down w
      | ModeGuide, (Key_Return | Key_Enter) => nav_enter w
      | _, _ => Return w
      end
  end.

(** ** Runs

    What can happen to a running menu: a remote command, a key, a change of
    the surroundings, or a helper process ending by itself. *)
Inductive Cmd : Type :=
| Post (path : string)
| Press (k : Key)
| Surroundings (e : Env)
| Exits (pid : nat).

Definition step (c : Cmd) (w : World) : exc World :=
  match c with
  | Post path => r ← do_POST path w; Return r.1
  | Press k => keyPressEvent k w
  | Surroundings e => Return (set_env e w)
  | Exits pid => Return (reap pid w)
  end.

Definition run (cs : list Cmd) (w : World) : exc World := for_each cs step w.

(** The guide's navigation operations on their own; between two of them
    time passes and the surroundings may change. *)
Inductive GuideOp : Type :=
| GLeft | GRight | GPageUp | GPageDown
| GWait (e : Env).

Definition guide_op (o : GuideOp) (w : World) : exc World :=
  match o with
  | GLeft => guide_left w
  | GRight => guide_right w
  | GPageUp => guide_page_up w
  | GPageDown => guide_page_down w
  | GWait e => Return (set_env e w)
  end.

Definition is_row_move (o : GuideOp) : bool :=
  match o with
  | GPageUp | GPageDown | GWait _ => true
  | GLeft | GRight => false
  end.

(** The calls a process handle takes, and what happens around them. *)
Inductive Call : Type :=
| PreviewStart (path : string) (start_sec : Z)
| PreviewStop
| AudioStart
| AudioStop
| Elapse (e : Env)
| ChildExits (pid : nat).

Definition call (c : Call) (w : World) : exc World :=
  match c with
  | PreviewStart p s => start_preview p s w
  | PreviewStop => Return (stop_preview w)
  | AudioStart => audio_start w
  | AudioStop => Return (audio_stop w)
  | Elapse e => Return (set_env e w)
  | ChildExits pid => Return (reap pid w)
  end.

(** [n] presses of the same control. *)
Fixpoint press (n : nat) (f : World → exc World) (w : World) : exc World :=
  match n with
  | O => Return w
  | S n' => w' ← f w; press n' f w'
  end.

(** ** Properties of states *)

(** The events of the row under the guide cursor. *)
Definition current_row_events (w : World) : list Event :=
  match guide_rows (win w) !! Z.to_nat (g_sel_row (win w)) with
  | Some r => ch_events r
  | None => []
  end.

(** The column cursor points at an event of the current row. *)
Definition col_fits (w : World) : Prop :=
  0 ≤ g_sel_col (win w) ≤ py_len (current_row_events w) - 1.

Definition cursor (w : World) : Z * Z * Z :=
  (g_sel_row (win w), g_sel_col (win w), g_row_offset (win w)).

(** Row, column and offset are not negative, the row is a row of the
    snapshot, and it lies inside the visible window. *)
Definition guide_inv (w : World) : Prop :=
  0 ≤ g_sel_row (win w) ≤ py_len (guide_rows (win w)) - 1 ∧
  0 ≤ g_sel_col (win w) ∧
  0 ≤ g_row_offset (win w) ∧
  g_row_offset (win w) ≤ g_sel_row (win w) < g_row_offset (win w) + g_max_visible (win w).

(** The handle of a helper, as the window holds it. *)
Definition handle (o : Owner) (w : World) : option nat :=
  match o with
  | OwnPreview => preview (win w)
  | OwnAudio => a_proc (menu_audio (win w))
  end.

(** Every running helper is the one its manager's handle holds. *)
Definition handle_inv (w : World) : Prop :=
  ∀ pid p, procs w !! pid = Some p → p_alive p = true →
           handle (p_owner p) w = Some pid.

(** The pids of the running helpers of one manager. *)
Definition live_pids (o : Owner) (w : World) : list nat :=
  List.filter (λ pid, match procs w !! pid with
                      | Some p => p_alive p && bool_decide (p_owner p = o)
                      | None => false
                      end)
              (seq 0 (length (procs w))).

(** ** Sample surroundings

    A store with two channels: channel 1 has seven events in a row from
    time 0, channel 2 one long event; the player does not answer. *)
Definition sample_row (c : string) (s e : Z) : Row :=
  {| channel_id := c; start_utc := s; end_utc := e;
     title := None; path := Some ("/media/" +:+ c +:+ ".mkv");
     channel_name := None |}.

Definition sample_table : Table :=
  {| columns := ["channel_id"; "start_utc"; "end_utc"; "path"];
     rows := [ sample_row "1" 0 100; sample_row "1" 100 200;
               sample_row "1" 200 300; sample_row "1" 300 400;
               sample_row "1" 400 500; sample_row "1" 500 600;
               sample_row "1" 600 700; sample_row "2" 0 1000 ] |}.

Definition sample_env (s : Store) (t : Z) : Env :=
  {| now := t; store := s;
     file_exists := λ _, true;
     http_post := λ _, (false, 0);
     status := None;
     win_id := Return 77;
     popen_ok := λ _, true;
     exits_on_term := λ _, false |}.

Definition sample_world : World := boot (sample_env (Ready sample_table) 50) "/menu.mp3" 45.

(** Only the [preview] field of the window may differ. *)
Definition preview_only (w w' : World) : Prop :=
  env w' = env w ∧ ∃ x, win w' = set_preview x (win w).

(** What the guide cursor arithmetic depends on. *)
Definition guide_state (w : World) : Mode * list Channel * (Z * Z * Z) * Z :=
  (mode (win w), guide_rows (win w), cursor w, g_max_visible (win w)).

(** The result of a run that returned ([d] otherwise). *)
Definition world_of (c : exc World) (d : World) : World :=
  match c with
  | Return w => w
  | Raise _ => d
  end.

(** The guide entered at time 50 on the sample store, then five moves to
    the right: the cursor is on the sixth event of channel 1. *)
Definition sample_guide : World :=
  world_of (w ← _enter_guide_mode sample_world;
            for_each [GRight; GRight; GRight; GRight; GRight] guide_op w)
           sample_world.

(** ** Properties of snapshots *)

(** The event list [load_channel] builds for the channel [id]. *)
Definition guide_events (has_title has_path : bool) (now_ts : Z) (id : string)
    (rs : list Row) : list Event :=
  let events := event_of_row has_title has_path <$> q_events id now_ts rs in
  match events with
  | [] => [placeholder_event now_ts]
  | _ => events
  end.

(** The event is on air at [now_ts]. *)
Definition running (now_ts : Z) (r : Row) : bool :=
  (start_utc r <=? now_ts) && (now_ts <? end_utc r).

(** The rows of channel [id] that are on air at [now_ts]. *)
Definition running_rows (id : string) (now_ts : Z) (rs : list Row) : list Row :=
  List.filter (λ r, String.eqb (channel_id r) id && running now_ts r) rs.


Definition key_columns (t : Table) : bool :=
  forallb (has_column t) ["channel_id"; "start_utc"; "end_utc"].

(** A store whose only row ends when it starts. *)
Definition zero_length_table : Table :=
  {| columns := ["channel_id"; "start_utc"; "end_utc"; "title"];
     rows := [ {| channel_id := "1"; start_utc := 500; end_utc := 500;
                  title := Some "A"; path := None; channel_name := None |} ] |}.


(** No helper of the manager [o] is running. *)
Definition quiet (o : Owner) (w : World) : Prop :=
  ∀ pid p, procs w !! pid = Some p → p_alive p = true → p_owner p ≠ o.

(** ** The invariant of a running menu *)

(** What of the window the invariant depends on, the handles apart. *)
Definition core_view (w : World) : list string * Z * Z * list Channel * (Z * Z * Z) * Z :=
  (items (win w), sel (win w), sel_last (win w), guide_rows (win w), cursor w,
   g_max_visible (win w)).

(** The items and the visible row count are those of the constructor, the
    root cursor is an index of the item list and equals the last-selected
    index, every running helper is held by its handle, and the guide cursor
    of a non-empty snapshot satisfies [guide_inv]. *)
Definition menu_inv (w : World) : Prop :=
  handle_inv w ∧
  items (win w) = MENU_ITEMS ∧
  g_max_visible (win w) = GUIDE_MAX_ROWS ∧
  0 ≤ sel (win w) < py_len MENU_ITEMS ∧
  sel_last (win w) = sel (win w) ∧
  0 ≤ g_sel_col (win w) ∧
  (guide_rows (win w) ≠ [] → guide_inv w).

(** [w'] has the helpers in order if [w] had, and the same core. *)
Definition keeps (w w' : World) : Prop :=
  (handle_inv w → handle_inv w') ∧ core_view w' = core_view w.

(** The name [load_channel] gives the channel [id]. *)
Definition display_name (has_channel_name : bool) (id : string) (rs : list Row) : string :=
  if has_channel_name then
    match fetchone (q_channel_name id rs) with
    | Some r =>
        match channel_name r with
        | Some n => if truthy n then strip n else "Channel " +:+ id
        | None => "Channel " +:+ id
        end
    | None => "Channel " +:+ id
    end
  else "Channel " +:+ id.

(** Of the window, only the preview handle, the audio manager and the
    footer may differ. *)
Definition helpers_only (w w' : World) : Prop :=
  ∃ x a f, win w' = set_pip_footer f (set_menu_audio a (set_preview x (win w))).

(** In a log of what was sent, every SIGKILL comes directly after a SIGTERM
    to the same process. *)
Definition forced_after_graceful (log : list Effect) : Prop :=
  ∀ i pid, log !! i = Some (SigKill pid) →
           ∃ j, i = S j ∧ log !! j = Some (SigTerm pid).

(** A store whose second channel has nothing on air before time 200, and the
    guide entered on it at time 50: the preview shows channel 1. *)
Definition gap_table : Table :=
  {| columns := ["channel_id"; "start_utc"; "end_utc"; "path"];
     rows := [ sample_row "1" 0 100; sample_row "2" 200 300 ] |}.

Definition gap_guide : World :=
  world_of (_enter_guide_mode (boot (sample_env (Ready gap_table) 50) "/menu.mp3" 45))
           sample_world.

(** [w'] has, after what [w] had sent, a stretch of log in which every
    SIGKILL directly follows a SIGTERM to the same process. *)
Definition appends (w w' : World) : Prop :=
  ∃ k, sent w' = sent w ++ k ∧ forced_after_graceful k.

(** The same for a computation, should it return. *)
Definition appends_to (w : World) (c : exc World) : Prop :=
  match c with
  | Return w' => appends w w'
  | Raise _ => True
  end.

(** ** The overlay's title (fsx_overlay.py) *)

(** [a in s] for a single character. *)
Fixpoint has_char (a : ascii) (s : string) : bool :=
  match s with
  | EmptyString => false
  | String c s' => Ascii.eqb c a || has_char a s'
  end.

(** [sep.join(l)] *)
Fixpoint join_with (sep : string) (l : list string) : string :=
  match l with
  | [] => ""
  | [x] => x
  | x :: l' => x +:+ sep +:+ join_with sep l'
  end.

Definition clean_title (t : string) : string :=
  if negb (truthy t) then "" else
  let name := path_name t in
  if has_char "." name then join_with "." (removelast (split_on "." name))
  else name.

(** The surroundings [e] with the menu's audio file gone. *)
Definition missing_audio_env (e : Env) : Env :=
  {| now := now e; store := store e;
     file_exists := λ _, false;
     http_post := http_post e; status := status e; win_id := win_id e;
     popen_ok := popen_ok e; exits_on_term := exits_on_term e |}.




(* ===================================================================== *)
(** * Part II: lemmas and theorems *)
(* ===================================================================== *)

(** ** The exception monad *)

Lemma bind_Return {A B} (a : A) (k : A → exc B) : (Return a ≫= k) = k a.
Proof. reflexivity. Qed.

Lemma bind_Raise {A B} (e : exn) (k : A → exc B) : (Raise e ≫= k) = Raise e.
Proof. reflexivity. Qed.

Lemma bind_inv {A B} (c : exc A) (k : A → exc B) (b : B) :
  (c ≫= k) = Return b → ∃ a, c = Return a ∧ k a = Return b.
Proof. destruct c as [a|e]; [eauto | discriminate]. Qed.

Lemma py_mod_pos a n : 0 < n → py_mod a n = Return (a `mod` n).
Proof.
  intros Hn. unfold py_mod.
  destruct (Z.eqb_spec n 0) as [->|_]; [lia | reflexivity].
Qed.

Lemma in_mode_true m w : mode (win w) = m → in_mode m w = true.
Proof. intros. unfold in_mode. by apply bool_decide_eq_true. Qed.

Lemma in_mode_false m w : mode (win w) ≠ m → in_mode m w = false.
Proof. intros. unfold in_mode. by apply bool_decide_eq_false. Qed.

(** ** Root-mode navigation *)

Lemma nav_down_root w :
  mode (win w) = ModeRoot → 0 < py_len (items (win w)) →
  nav_down w = Return (select_at ((sel (win w) + 1) `mod` py_len (items (win w))) w).
Proof.
  intros Hm Hn. unfold nav_down. rewrite (in_mode_true _ _ Hm). simpl.
  by rewrite py_mod_pos.
Qed.

Lemma nav_up_root w :
  mode (win w) = ModeRoot → 0 < py_len (items (win w)) →
  nav_up w = Return (select_at ((sel (win w) - 1) `mod` py_len (items (win w))) w).
Proof.
  intros Hm Hn. unfold nav_up. rewrite (in_mode_true _ _ Hm). simpl.
  by rewrite py_mod_pos.
Qed.

Lemma select_at_select_at i j w : select_at i (select_at j w) = select_at i w.
Proof. reflexivity. Qed.

(** [n] presses of one root-mode arrow from any index: the index moves by
    [n] steps of [d] modulo the item count. *)
Lemma press_root_steps d f :
  (∀ w, mode (win w) = ModeRoot → 0 < py_len (items (win w)) →
        f w = Return (select_at ((sel (win w) + d) `mod` py_len (items (win w))) w)) →
  ∀ n w, mode (win w) = ModeRoot → 0 < py_len (items (win w)) →
    press (S n) f w
    = Return (select_at ((sel (win w) + d * Z.of_nat (S n)) `mod` py_len (items (win w))) w).
Proof.
  intros Hf n. induction n as [|n IH]; intros w Hm Hc.
  - change (press 1 f w) with (w' ← f w; Return w').
    rewrite Hf, bind_Return by done.
    by replace (d * Z.of_nat 1) with d by lia.
  - change (press (S (S n)) f w) with (w' ← f w; press (S n) f w').
    rewrite Hf, bind_Return by done.
    set (s := (sel (win w) + d) `mod` py_len (items (win w))).
    rewrite IH by done.
    change (sel (win (select_at s w))) with s.
    change (items (win (select_at s w))) with (items (win w)).
    rewrite select_at_select_at. unfold s.
    rewrite Zplus_mod_idemp_l. do 3 f_equal. lia.
Qed.

(** C8: in root mode with [itemCount > 0] items and the cursor at index 0,
    [n] presses of nav.down leave the cursor at [n mod itemCount] and [n]
    presses of nav.up at [(-n) mod itemCount]; once a key was pressed (or if
    the last-selected index was 0 to begin with) the last-selected index is
    the cursor. *)
Theorem root_cursor_wraps (w : World) (n : nat) :
  mode (win w) = ModeRoot → sel (win w) = 0 → 0 < py_len (items (win w)) →
  ∃ wd wu,
    press n nav_down w = Return wd ∧ press n nav_up w = Return wu ∧
    sel (win wd) = Z.of_nat n `mod` py_len (items (win w)) ∧
    sel (win wu) = (- Z.of_nat n) `mod` py_len (items (win w)) ∧
    (n ≠ 0%nat ∨ sel_last (win w) = 0 →
     sel_last (win wd) = sel (win wd) ∧ sel_last (win wu) = sel (win wu)).
Proof.
  intros Hm Hs Hc. destruct n as [|n].
  - exists w, w. rewrite Hs. do 4 (split; [done|]).
    intros [?|?]; [done | split; congruence].
  - pose proof (press_root_steps 1 nav_down nav_down_root n w Hm Hc) as Hd.
    assert (Hu : press (S n) nav_up w
                 = Return (select_at ((sel (win w) + -1 * Z.of_nat (S n))
                                      `mod` py_len (items (win w))) w)).
    { apply press_root_steps; [|done..]. intros w' ? ?. by rewrite nav_up_root. }
    rewrite Hd, Hu, Hs. eexists _, _. split; [done|]. split; [done|].
    change (sel (win (select_at ?i w))) with i.
    change (sel_last (win (select_at ?i w))) with i.
    split; [f_equal; lia|]. split; [f_equal; lia | done].
Qed.

Lemma root_cursor_wraps_witness :
  ∃ wd wu,
    press 6 nav_down sample_world = Return wd ∧
    press 6 nav_up sample_world = Return wu ∧
    sel (win wd) = 6 `mod` 4 ∧ sel (win wu) = (- 6) `mod` 4 ∧
    (6%nat ≠ 0%nat ∨ sel_last (win sample_world) = 0 →
     sel_last (win wd) = sel (win wd) ∧ sel_last (win wu) = sel (win wu)).
Proof.
  apply (root_cursor_wraps sample_world 6); reflexivity.
Defined.

(** ** The remote page commands in root mode *)

Lemma do_POST_pageup_root w :
  mode (win w) = ModeRoot →
  do_POST "/menu/nav/pageup" w
  = if negb (visible (win w)) then Return (w, RIgnored)
    else w' ← nav_up w; Return (w', ROk).
Proof.
  intros Hm. unfold do_POST. rewrite (in_mode_false ModeGuide) by congruence.
  reflexivity.
Qed.

Lemma do_POST_pagedown_root w :
  mode (win w) = ModeRoot →
  do_POST "/menu/nav/pagedown" w
  = if negb (visible (win w)) then Return (w, RIgnored)
    else w' ← nav_down w; Return (w', ROk).
Proof.
  intros Hm. unfold do_POST. rewrite (in_mode_false ModeGuide) by congruence.
  reflexivity.
Qed.

(** C5: in root mode the remote commands nav.pageUp and nav.pageDown do
    exactly what nav.up and nav.down do (one step modulo the item count),
    while the raw PageUp and PageDown keys move the cursor by two. *)
Theorem root_page_commands (w : World) :
  mode (win w) = ModeRoot →
  do_POST "/menu/nav/pageup" w = do_POST "/menu/nav/up" w ∧
  do_POST "/menu/nav/pagedown" w = do_POST "/menu/nav/down" w ∧
  (visible (win w) = true → 0 < py_len (items (win w)) →
   let c := py_len (items (win w)) in
   do_POST "/menu/nav/pageup" w = Return (select_at ((sel (win w) - 1) `mod` c) w, ROk) ∧
   do_POST "/menu/nav/pagedown" w = Return (select_at ((sel (win w) + 1) `mod` c) w, ROk) ∧
   keyPressEvent Key_PageUp w = Return (select_at ((sel (win w) - 2) `mod` c) w) ∧
   keyPressEvent Key_PageDown w = Return (select_at ((sel (win w) + 2) `mod` c) w)).
Proof.
  intros Hm.
  rewrite do_POST_pageup_root, do_POST_pagedown_root by done.
  split; [reflexivity|]. split; [reflexivity|].
  intros Hv Hc c. rewrite Hv. simpl negb. cbv iota.
  rewrite nav_up_root, nav_down_root by done.
  split; [reflexivity|]. split; [reflexivity|].
  unfold keyPressEvent, page_step. rewrite Hv, Hm. simpl negb. cbv iota.
  rewrite !py_mod_pos by done.
  split; reflexivity.
Qed.

Lemma root_page_commands_witness :
  do_POST "/menu/nav/pageup" (on_win (set_visible true) sample_world)
  = do_POST "/menu/nav/up" (on_win (set_visible true) sample_world) ∧
  keyPressEvent Key_PageUp (on_win (set_visible true) sample_world)
  = Return (select_at 2 (on_win (set_visible true) sample_world)).
Proof.
  pose proof (root_page_commands (on_win (set_visible true) sample_world) eq_refl)
    as (Hu & _ & H).
  split; [exact Hu|].
  destruct (H eq_refl eq_refl) as (_ & _ & Hk & _). exact Hk.
Defined.

(** ** Running a list of operations *)

Lemma for_each_app {A S} (body : A → S → exc S) l1 l2 (s : S) :
  for_each (l1 ++ l2) body s = (s' ← for_each l1 body s; for_each l2 body s').
Proof.
  revert s. induction l1 as [|x l1 IH]; intros s; [done|].
  simpl. destruct (body x s) as [s'|e]; [apply IH | done].
Qed.

(** An invariant that every operation keeps, and under which no operation
    raises, holds after any list of operations, and the list returns. *)
Lemma for_each_invariant {A S} (body : A → S → exc S) (I : S → Prop) (P : A → Prop) :
  (∀ x s, P x → I s → ∃ s', body x s = Return s' ∧ I s') →
  ∀ l s, Forall P l → I s → ∃ s', for_each l body s = Return s' ∧ I s'.
Proof.
  intros Hstep l. induction l as [|x l IH]; intros s Hl Hs; [by exists s|].
  inversion_clear Hl as [|? ? Hx Hl'].
  destruct (Hstep x s Hx Hs) as (s1 & E1 & H1).
  destruct (IH s1 Hl' H1) as (s2 & E2 & H2).
  exists s2. split; [|done]. simpl. by rewrite E1.
Qed.

(** ** Indexing *)

Lemma py_getitem_in_range {A} (l : list A) (i : Z) :
  0 ≤ i < py_len l →
  ∃ x, py_getitem l i = Return x ∧ l !! Z.to_nat i = Some x.
Proof.
  intros Hi. unfold py_getitem.
  assert (E : (i <? 0) = false) by (apply Z.ltb_ge; lia).
  destruct (lookup_lt_is_Some_2 l (Z.to_nat i)) as [x Hx];
    [unfold py_len in Hi; lia|].
  exists x. rewrite E. cbv zeta iota. by rewrite E, Hx.
Qed.

Lemma py_len_cons {A} (x : A) l : py_len (x :: l) = 1 + py_len l.
Proof. unfold py_len. simpl length. lia. Qed.

Lemma py_len_nonneg {A} (l : list A) : 0 ≤ py_len l.
Proof. unfold py_len. lia. Qed.

Lemma py_len_pos {A} (l : list A) : l ≠ [] → 0 < py_len l.
Proof. destruct l; [done|]. rewrite py_len_cons. pose proof (py_len_nonneg l). lia. Qed.

(** ** The schedule resolver never raises *)

Lemma resolve_returns s t ch :
  ∃ r, resolve_now_path_and_offset s t ch = Return r.
Proof.
  unfold resolve_now_path_and_offset, try_except.
  destruct (resolve_try s t ch); eauto.
Qed.

(** ** What the preview leaves alone *)

Lemma win_terminate_wait_kill p w : win (terminate_wait_kill p w) = win w.
Proof.
  unfold terminate_wait_kill. destruct p as [pid|]; [|done].
  destruct (is_running pid w); [|done].
  by destruct (exits_on_term _ _).
Qed.

Lemma env_terminate_wait_kill p w : env (terminate_wait_kill p w) = env w.
Proof.
  unfold terminate_wait_kill. destruct p as [pid|]; [|done].
  destruct (is_running pid w); [|done].
  by destruct (exits_on_term _ _).
Qed.

Lemma set_preview_same m : set_preview (preview m) m = m.
Proof. by destruct m. Qed.

Lemma preview_only_refl w : preview_only w w.
Proof. split; [done|]. exists (preview (win w)). by rewrite set_preview_same. Qed.

Lemma stop_preview_only w : preview_only w (stop_preview w).
Proof.
  split.
  - unfold stop_preview. simpl. apply env_terminate_wait_kill.
  - exists None. unfold stop_preview, on_win. simpl.
    by rewrite win_terminate_wait_kill.
Qed.

Lemma start_preview_only p s w :
  ∃ w', start_preview p s w = Return w' ∧ preview_only w w'.
Proof.
  destruct (stop_preview_only w) as (He & x & Hw).
  unfold start_preview. set (w1 := stop_preview w) in *. clearbody w1.
  unfold try_except, Popen.
  destruct (win_id (env w1)) as [wid|e]; simpl.
  - destruct (popen_ok _ _); simpl.
    + eexists; split; [done|]. split; [done|].
      eexists. simpl. by rewrite Hw.
    + eexists; split; [done|]. split; [done|].
      eexists. simpl. by rewrite Hw.
  - eexists; split; [done|]. split; [done|].
    eexists. simpl. by rewrite Hw.
Qed.

Lemma _start_preview_from_channel_only ch w :
  ∃ w', _start_preview_from_channel ch w = Return w' ∧ preview_only w w'.
Proof.
  unfold _start_preview_from_channel.
  destruct (resolve_returns (store (env w)) (now (env w)) ch) as [r ->].
  rewrite bind_Return. destruct r as [[p off]|].
  - destruct (file_exists _ _); simpl.
    + apply start_preview_only.
    + eauto using preview_only_refl.
  - eauto using preview_only_refl.
Qed.

Lemma preview_only_guide_state w w' :
  preview_only w w' → guide_state w' = guide_state w.
Proof. intros (_ & x & Hw). unfold guide_state, cursor. by rewrite Hw. Qed.

(** ** Guide navigation *)

(** Reduces field reads of updated windows, and nothing else. *)
Ltac fields :=
  cbn [win env procs sent on_win set_win set_env set_procs emit
       visible items sel sel_last mode guide_rows g_sel_row g_sel_col
       g_row_offset g_max_visible preview menu_audio pip_footer
       set_visible set_sel set_sel_last set_mode set_guide_rows set_g_sel_row
       set_g_sel_col set_g_row_offset set_preview set_menu_audio set_pip_footer
       select_at] in *.

(** Re-anchoring the preview and the footer returns and leaves the guide
    cursor alone. *)
Lemma anchor_row_keeps b w :
  (guide_rows (win w) ≠ [] → 0 ≤ g_sel_row (win w) < py_len (guide_rows (win w))) →
  ∃ w', anchor_row b w = Return w' ∧ guide_state w' = guide_state w.
Proof.
  intros Hrow. unfold anchor_row, _guide_current_channel_id.
  destruct (guide_rows (win w)) as [|c l] eqn:Hr.
  { rewrite bind_Return. eauto. }
  specialize (Hrow ltac:(done)).
  destruct (py_getitem_in_range (c :: l)
              (Z.max 0 (Z.min (g_sel_row (win w)) (py_len (c :: l) - 1))))
    as (x & -> & _); [lia|].
  rewrite !bind_Return.
  destruct (truthy (ch_id x)); [|eauto].
  destruct (_start_preview_from_channel_only (ch_id x) w) as (w1 & -> & Hpo).
  rewrite bind_Return.
  pose proof (preview_only_guide_state _ _ Hpo) as Hg.
  assert (Hrows : guide_rows (win w1) = c :: l).
  { unfold guide_state in Hg. rewrite <- Hr. congruence. }
  assert (Hsel : g_sel_row (win w1) = g_sel_row (win w)).
  { unfold guide_state, cursor in Hg. congruence. }
  rewrite Hrows, Hsel.
  destruct (py_getitem_in_range (c :: l) (g_sel_row (win w))) as (y & -> & _); [lia|].
  rewrite !bind_Return.
  eexists; split; [done|]. by rewrite <- Hg.
Qed.

Lemma guide_left_spec w :
  mode (win w) = ModeGuide →
  guide_left w = Return (on_win (λ m, set_g_sel_col (Z.max 0 (g_sel_col m - 1)) m) w).
Proof. intros Hm. unfold guide_left. by rewrite (in_mode_true _ _ Hm). Qed.

Lemma guide_right_spec w :
  mode (win w) = ModeGuide → guide_rows (win w) ≠ [] →
  0 ≤ g_sel_row (win w) < py_len (guide_rows (win w)) →
  guide_right w
  = Return (on_win (set_g_sel_col
                      (Z.min (Z.max 0 (py_len (current_row_events w) - 1))
                             (g_sel_col (win w) + 1))) w).
Proof.
  intros Hm Hne Hrow. unfold guide_right, current_row_events.
  rewrite (in_mode_true _ _ Hm). simpl negb. cbv iota.
  destruct (py_getitem_in_range _ _ Hrow) as (r & -> & ->).
  by destruct (guide_rows (win w)).
Qed.

(** Cases on the scroll test of a row move. *)
Ltac case_row_test :=
  match goal with
  | |- context [win (if ?c then _ else _)] =>
      let E := fresh "E'" in destruct c eqn:E
  end.

(** A row move returns; it changes the row by one step clamped to the
    snapshot, scrolls the offset only as far as needed, and touches nothing
    else of the guide state: the column stays what it was. *)
Lemma guide_page_up_spec w :
  mode (win w) = ModeGuide → guide_rows (win w) ≠ [] →
  0 ≤ g_sel_row (win w) < py_len (guide_rows (win w)) →
  ∃ w', guide_page_up w = Return w' ∧
    guide_state w' =
      (ModeGuide, guide_rows (win w),
       (Z.max 0 (g_sel_row (win w) - 1), g_sel_col (win w),
        if Z.max 0 (g_sel_row (win w) - 1) <? g_row_offset (win w)
        then Z.max 0 (g_sel_row (win w) - 1) else g_row_offset (win w)),
       g_max_visible (win w)).
Proof.
  intros Hm Hne Hrow. unfold guide_page_up.
  rewrite (in_mode_true _ _ Hm). simpl negb. cbv iota.
  destruct (guide_rows (win w)) as [|c l] eqn:Hr; [done|].
  match goal with |- ∃ w', anchor_row false ?w1 = _ ∧ _ =>
    destruct (anchor_row_keeps false w1) as (w' & E & Hg) end.
  { intros _. case_row_test; fields; rewrite Hr; lia. }
  exists w'. split; [done|]. rewrite Hg. unfold guide_state, cursor.
  case_row_test; fields; by rewrite Hm, Hr, E'.
Qed.

Lemma guide_page_down_spec w :
  mode (win w) = ModeGuide → guide_rows (win w) ≠ [] →
  0 ≤ g_sel_row (win w) < py_len (guide_rows (win w)) →
  ∃ w', guide_page_down w = Return w' ∧
    guide_state w' =
      (ModeGuide, guide_rows (win w),
       (Z.min (py_len (guide_rows (win w)) - 1) (g_sel_row (win w) + 1),
        g_sel_col (win w),
        if g_row_offset (win w) + g_max_visible (win w)
           <=? Z.min (py_len (guide_rows (win w)) - 1) (g_sel_row (win w) + 1)
        then Z.min (py_len (guide_rows (win w)) - 1) (g_sel_row (win w) + 1)
             - g_max_visible (win w) + 1
        else g_row_offset (win w)),
       g_max_visible (win w)).
Proof.
  intros Hm Hne Hrow. unfold guide_page_down.
  rewrite (in_mode_true _ _ Hm). simpl negb. cbv iota.
  destruct (guide_rows (win w)) as [|c l] eqn:Hr; [done|].
  match goal with |- ∃ w', anchor_row false ?w1 = _ ∧ _ =>
    destruct (anchor_row_keeps false w1) as (w' & E & Hg) end.
  { intros _. case_row_test; fields; rewrite Hr; lia. }
  exists w'. split; [done|]. rewrite Hg. unfold guide_state, cursor.
  case_row_test; fields; rewrite Hr in E'; by rewrite Hm, Hr, E'.
Qed.

(** Entering the guide returns: the snapshot is what the loader gave (the
    empty list when it raised), the cursor is reset and the mode is the
    guide's. *)
Lemma _enter_guide_mode_spec w :
  ∃ w1, _enter_guide_mode w = Return w1 ∧
    guide_state w1
    = (ModeGuide,
       match load_channels_and_events (store (env w)) (now (env w)) with
       | Return rows => rows
       | Raise _ => []
       end,
       (0, 0, 0), g_max_visible (win w)).
Proof.
  unfold _enter_guide_mode, try_except.
  destruct (load_channels_and_events _ _) as [rows|e]; rewrite bind_Return.
  - match goal with |- ∃ w1, anchor_row true ?w0 = _ ∧ _ =>
      destruct (anchor_row_keeps true w0) as (w1 & E & Hg) end.
    { fields. intros Hne. pose proof (py_len_pos rows Hne). lia. }
    exists w1. split; [done|]. by rewrite Hg.
  - match goal with |- ∃ w1, anchor_row true ?w0 = _ ∧ _ =>
      destruct (anchor_row_keeps true w0) as (w1 & E & Hg) end.
    { fields. done. }
    exists w1. split; [done|]. by rewrite Hg.
Qed.

(** One guide operation keeps the cursor invariant of a non-empty guide. *)
Lemma guide_op_keeps_inv rows mv o w :
  rows ≠ [] → 0 < mv →
  guide_inv w ∧ mode (win w) = ModeGuide ∧ guide_rows (win w) = rows
    ∧ g_max_visible (win w) = mv →
  ∃ w', guide_op o w = Return w' ∧
    (guide_inv w' ∧ mode (win w') = ModeGuide ∧ guide_rows (win w') = rows
     ∧ g_max_visible (win w') = mv).
Proof.
  intros Hne Hmv ((Hrow & Hcol & Hoff & Hvis) & Hm & Hr & Hv).
  assert (Hne' : guide_rows (win w) ≠ []) by congruence.
  assert (Hrow' : 0 ≤ g_sel_row (win w) < py_len (guide_rows (win w))) by lia.
  destruct o as [| | | |e]; unfold guide_op.
  - rewrite guide_left_spec by done. eexists; split; [done|].
    unfold guide_inv. fields. repeat split; try done; lia.
  - rewrite guide_right_spec by done. eexists; split; [done|].
    unfold guide_inv. fields. repeat split; try done; lia.
  - destruct (guide_page_up_spec w Hm Hne' Hrow') as (w' & -> & Hg).
    exists w'. split; [done|].
    unfold guide_state, cursor in Hg.
    injection Hg as Em Er Es Ec Eo Ev.
    unfold guide_inv. rewrite Em, Er, Es, Ec, Eo, Ev.
    destruct (Z.ltb_spec (Z.max 0 (g_sel_row (win w) - 1)) (g_row_offset (win w)));
      repeat split; try done; lia.
  - destruct (guide_page_down_spec w Hm Hne' Hrow') as (w' & -> & Hg).
    exists w'. split; [done|].
    unfold guide_state, cursor in Hg.
    injection Hg as Em Er Es Ec Eo Ev.
    unfold guide_inv. rewrite Em, Er, Es, Ec, Eo, Ev.
    destruct (Z.leb_spec (g_row_offset (win w) + g_max_visible (win w))
                (Z.min (py_len (guide_rows (win w)) - 1) (g_sel_row (win w) + 1)));
      repeat split; try done; lia.
  - eexists; split; [done|]. by unfold guide_inv.
Qed.

(** C10: after the guide was entered with a non-empty snapshot, every
    sequence of guide operations returns and leaves a state in which
    [0 <= row <= rowCount - 1], [0 <= column], [0 <= offset] and
    [offset <= row < offset + maxVisibleRows].  The window's
    [g_max_visible] is [GUIDE_MAX_ROWS = 8] from construction on; the
    hypothesis asks no more than that it is positive. *)
Theorem guide_cursor_invariant (w : World) (ops : list GuideOp) :
  0 < g_max_visible (win w) →
  ∃ w1, _enter_guide_mode w = Return w1 ∧
    (guide_rows (win w1) ≠ [] →
     ∃ w2, for_each ops guide_op w1 = Return w2 ∧
       guide_rows (win w2) = guide_rows (win w1) ∧ guide_inv w2).
Proof.
  intros Hmv. destruct (_enter_guide_mode_spec w) as (w1 & E & Hg).
  exists w1. split; [done|]. intros Hne.
  unfold guide_state, cursor in Hg.
  set (rows := match load_channels_and_events _ _ with
               | Return r => r | Raise _ => [] end) in Hg.
  injection Hg as Hm Hr Hsr Hsc Hso Hv.
  destruct (for_each_invariant guide_op
              (λ s, guide_inv s ∧ mode (win s) = ModeGuide
                    ∧ guide_rows (win s) = rows
                    ∧ g_max_visible (win s) = g_max_visible (win w))
              (λ _, True)) with (l := ops) (s := w1)
    as (w2 & E2 & Hinv & _ & Hr2 & _).
  - intros o s _ Hs. apply (guide_op_keeps_inv rows (g_max_visible (win w))); [congruence|done..].
  - by apply Forall_true.
  - repeat split; try done; unfold guide_inv; rewrite ?Hsr, ?Hsc, ?Hso, ?Hv; try lia.
    + pose proof (py_len_pos _ Hne). lia.
  - exists w2. split; [done|]. split; [congruence | done].
Qed.

Lemma guide_cursor_invariant_witness :
  ∃ w1, _enter_guide_mode sample_world = Return w1 ∧
    (guide_rows (win w1) ≠ [] →
     ∃ w2, for_each [GRight; GPageDown; GPageDown; GLeft; GPageUp] guide_op w1
           = Return w2 ∧
       guide_rows (win w2) = guide_rows (win w1) ∧ guide_inv w2).
Proof.
  apply (guide_cursor_invariant sample_world
           [GRight; GPageDown; GPageDown; GLeft; GPageUp]).
  reflexivity.
Defined.

(** In a guide without rows and with the column at 0, an operation returns
    and changes nothing of the window, the process table or the log. *)
Lemma guide_op_empty m ps log o w :
  mode m = ModeGuide → guide_rows m = [] → g_sel_col m = 0 →
  win w = m ∧ procs w = ps ∧ sent w = log →
  ∃ w', guide_op o w = Return w' ∧ (win w' = m ∧ procs w' = ps ∧ sent w' = log).
Proof.
  intros Hm Hr Hc (Hw & Hp & Hs). subst m.
  destruct o as [| | | |e]; unfold guide_op.
  - rewrite guide_left_spec by done. eexists; split; [done|].
    fields. rewrite Hc. split; [|done].
    change (Z.max 0 (0 - 1)) with 0. rewrite <- Hc. by destruct (win w).
  - unfold guide_right. rewrite (in_mode_true _ _ Hm), Hr. eauto.
  - unfold guide_page_up. rewrite (in_mode_true _ _ Hm), Hr. eauto.
  - unfold guide_page_down. rewrite (in_mode_true _ _ Hm), Hr. eauto.
  - eauto.
Qed.

(** C9: entering the guide always returns; when the snapshot it took is
    empty the cursor is (0, 0, 0), and every sequence of guide_left,
    guide_right, guide_page_up and guide_page_down after it returns without
    an error and leaves the window (so the cursor), the processes and the
    log as they were. *)
Theorem empty_guide_is_inert (w : World) (ops : list GuideOp) :
  ∃ w1, _enter_guide_mode w = Return w1 ∧
    (guide_rows (win w1) = [] →
     cursor w1 = (0, 0, 0) ∧
     ∃ w2, for_each ops guide_op w1 = Return w2 ∧
       win w2 = win w1 ∧ procs w2 = procs w1 ∧ sent w2 = sent w1 ∧
       cursor w2 = (0, 0, 0)).
Proof.
  destruct (_enter_guide_mode_spec w) as (w1 & E & Hg).
  exists w1. split; [done|]. intros Hne.
  unfold guide_state, cursor in Hg. injection Hg as Hm _ Hsr Hsc Hso _.
  assert (Hc : cursor w1 = (0, 0, 0)) by (unfold cursor; congruence).
  split; [done|].
  destruct (for_each_invariant guide_op
              (λ s, win s = win w1 ∧ procs s = procs w1 ∧ sent s = sent w1)
              (λ _, True)) with (l := ops) (s := w1)
    as (w2 & E2 & Hw & Hp & Hs).
  - intros o s _ Hs. by apply guide_op_empty.
  - by apply Forall_true.
  - done.
  - exists w2. repeat split; try done. unfold cursor in *. by rewrite Hw.
Qed.

Lemma empty_guide_is_inert_witness :
  ∃ w1, _enter_guide_mode (boot (sample_env NoFile 50) "/menu.mp3" 45) = Return w1 ∧
    (guide_rows (win w1) = [] →
     cursor w1 = (0, 0, 0) ∧
     ∃ w2, for_each [GRight; GPageDown; GLeft; GPageUp] guide_op w1 = Return w2 ∧
       win w2 = win w1 ∧ procs w2 = procs w1 ∧ sent w2 = sent w1 ∧
       cursor w2 = (0, 0, 0)).
Proof.
  apply (empty_guide_is_inert (boot (sample_env NoFile 50) "/menu.mp3" 45)
           [GRight; GPageDown; GLeft; GPageUp]).
Defined.

(** ** The column across row moves *)

Lemma row_move_step rows c o w :
  is_row_move o = true →
  (mode (win w) = ModeGuide ∧ guide_rows (win w) = rows ∧ rows ≠ [] ∧
   0 ≤ g_sel_row (win w) < py_len rows ∧ g_sel_col (win w) = c) →
  ∃ w', guide_op o w = Return w' ∧
    (mode (win w') = ModeGuide ∧ guide_rows (win w') = rows ∧ rows ≠ [] ∧
     0 ≤ g_sel_row (win w') < py_len rows ∧ g_sel_col (win w') = c).
Proof.
  intros Ho (Hm & Hr & Hne & Hrow & Hc). subst rows c.
  destruct o as [| | | |e]; try discriminate; unfold guide_op.
  - destruct (guide_page_up_spec w Hm Hne Hrow) as (w' & -> & Hg).
    exists w'. split; [done|].
    unfold guide_state, cursor in Hg. injection Hg as Em Er Es Ec Eo Ev.
    rewrite Em, Er, Es, Ec. repeat split; try done; lia.
  - destruct (guide_page_down_spec w Hm Hne Hrow) as (w' & -> & Hg).
    exists w'. split; [done|].
    unfold guide_state, cursor in Hg. injection Hg as Em Er Es Ec Eo Ev.
    rewrite Em, Er, Es, Ec. repeat split; try done; lia.
  - eexists; split; [done|]. fields. repeat split; try done; lia.
Qed.

(** C1, as the code has it: a row move (guide_page_up, guide_page_down,
    with any time passing in between) on a non-empty snapshot returns and
    does not touch the column cursor.  The column is carried over as it is
    and is not clamped to the new row: it stays non-negative, and it points
    at an event of the new row exactly when the old value does. *)
Theorem row_move_keeps_column (w : World) (ops : list GuideOp) :
  mode (win w) = ModeGuide → guide_rows (win w) ≠ [] →
  0 ≤ g_sel_row (win w) < py_len (guide_rows (win w)) →
  forallb is_row_move ops = true →
  ∃ w', for_each ops guide_op w = Return w' ∧
    g_sel_col (win w') = g_sel_col (win w) ∧
    (0 ≤ g_sel_col (win w) → 0 ≤ g_sel_col (win w')) ∧
    (col_fits w' ↔ 0 ≤ g_sel_col (win w) ≤ py_len (current_row_events w') - 1).
Proof.
  intros Hm Hne Hrow Hops.
  destruct (for_each_invariant guide_op
              (λ s, mode (win s) = ModeGuide ∧ guide_rows (win s) = guide_rows (win w)
                    ∧ guide_rows (win w) ≠ []
                    ∧ 0 ≤ g_sel_row (win s) < py_len (guide_rows (win w))
                    ∧ g_sel_col (win s) = g_sel_col (win w))
              (λ o, is_row_move o = true)) with (l := ops) (s := w)
    as (w' & E & _ & _ & _ & _ & Hc).
  - intros o s Ho Hs. by apply row_move_step.
  - apply Forall_forall. intros o Ho.
    rewrite forallb_forall in Hops. apply Hops. by apply list_elem_of_In.
  - done.
  - exists w'. split; [done|]. split; [done|]. split; [by rewrite Hc|].
    unfold col_fits. by rewrite Hc.
Qed.

Lemma row_move_keeps_column_witness :
  ∃ w', for_each [GPageDown; GPageUp] guide_op sample_guide = Return w' ∧
    g_sel_col (win w') = g_sel_col (win sample_guide) ∧
    (0 ≤ g_sel_col (win sample_guide) → 0 ≤ g_sel_col (win w')) ∧
    (col_fits w' ↔ 0 ≤ g_sel_col (win sample_guide) ≤ py_len (current_row_events w') - 1).
Proof.
  apply (row_move_keeps_column sample_guide [GPageDown; GPageUp]).
  - reflexivity.
  - vm_compute. discriminate.
  - vm_compute. split; [discriminate | reflexivity].
  - reflexivity.
Defined.

(** C1 as the spec words it fails: from the sixth event of channel 1
    (column 5 of a row of six events) guide_page_down moves to channel 2,
    whose row has a single event, and the column is still 5. *)
Lemma column_clamp_counterexample :
  mode (win sample_guide) = ModeGuide ∧
  cursor sample_guide = (0, 5, 0) ∧ py_len (current_row_events sample_guide) = 6 ∧
  col_fits sample_guide ∧
  ∃ w', guide_page_down sample_guide = Return w' ∧
    cursor w' = (1, 5, 0) ∧ py_len (current_row_events w') = 1 ∧
    ¬ col_fits w'.
Proof.
  split; [reflexivity|]. split; [reflexivity|]. split; [reflexivity|].
  split; [by vm_compute|].
  eexists. split; [vm_compute; reflexivity|].
  split; [reflexivity|]. split; [reflexivity|].
  vm_compute. intros [_ H]. by apply H.
Qed.

(** ** Failures of the schedule store *)




(** ** SQL clauses *)

Global Instance key_le_total {A} (key : A → Z) : Total (key_le key).
Proof. intros a b. unfold key_le. lia. Qed.

Global Instance key_le_trans {A} (key : A → Z) : Transitive (key_le key).
Proof. intros a b c. unfold key_le. lia. Qed.

Lemma order_by_asc_sorted {A} (key : A → Z) l :
  StronglySorted (key_le key) (order_by_asc key l).
Proof. unfold order_by_asc. apply StronglySorted_merge_sort; apply _. Qed.

Lemma order_by_asc_perm {A} (key : A → Z) l : order_by_asc key l ≡ₚ l.
Proof. apply merge_sort_Permutation. Qed.

Lemma order_by_desc_perm {A} (key : A → Z) l : order_by_desc key l ≡ₚ l.
Proof. apply merge_sort_Permutation. Qed.



Lemma elem_of_List_filter {A} (p : A → bool) l x :
  x ∈ List.filter p l ↔ x ∈ l ∧ p x = true.
Proof. rewrite !list_elem_of_In. apply filter_In. Qed.

Lemma fetchone_limit_1_elem {A} (l : list A) x :
  fetchone (limit 1 l) = Some x → x ∈ l.
Proof. destruct l; [done|]. intros [= ->]. apply list_elem_of_here. Qed.

Lemma execute_open {A} t cols (q : list Row → A) :
  forallb (has_column t) cols = true →
  execute (COpen t) cols q = Return (q (rows t)).
Proof. intros H. unfold execute. by rewrite H. Qed.

Lemma execute_inv {A} conn cols (q : list Row → A) r :
  execute conn cols q = Return r → ∃ t, conn = COpen t ∧ r = q (rows t).
Proof.
  destruct conn as [|t]; [done|]. unfold execute.
  destruct (forallb _ _); [|done]. intros [= <-]. eauto.
Qed.

(** ** The rows behind a guide snapshot *)

Lemma q_events_elem id t rs r :
  r ∈ q_events id t rs → r ∈ rs ∧ channel_id r = id ∧ t < end_utc r.
Proof.
  unfold q_events, limit. intros H%subseteq_take.
  rewrite order_by_asc_perm in H. apply elem_of_List_filter in H as [Hr Hp].
  apply andb_prop in Hp as [Hc Ht].
  apply String.eqb_eq in Hc. apply Z.ltb_lt in Ht. done.
Qed.




Lemma event_of_row_times ht hp r :
  ev_start (event_of_row ht hp r) = start_utc r ∧
  ev_end (event_of_row ht hp r)
  = (if end_utc r <=? start_utc r then start_utc r + 60 else end_utc r) ∧
  ev_start (event_of_row ht hp r) < ev_end (event_of_row ht hp r).
Proof.
  unfold event_of_row. cbn [ev_start ev_end].
  split; [done|]. split; [done|].
  destruct (Z.leb_spec (end_utc r) (start_utc r)); lia.
Qed.

Lemma guide_events_cases ht hp t id rs :
  (q_events id t rs = [] ∧ guide_events ht hp t id rs = [placeholder_event t]) ∨
  (q_events id t rs ≠ [] ∧
   guide_events ht hp t id rs = event_of_row ht hp <$> q_events id t rs).
Proof.
  unfold guide_events. destruct (q_events id t rs); [by left | by right].
Qed.

(** What one pass of the channel loop appends. *)
Lemma load_channel_inv conn t hn ht hp id out out' :
  load_channel conn t hn ht hp id out = Return out' →
  ∃ tb name, conn = COpen tb ∧
    out' = out ++ [{| ch_id := id; ch_name := name;
                      ch_events := guide_events ht hp t id (rows tb) |}].
Proof.
  unfold load_channel. intros H.
  apply bind_inv in H as (name & _ & H).
  apply bind_inv in H as (ev_rows & He & H).
  apply execute_inv in He as (tb & -> & ->).
  injection H as <-. by exists tb, name.
Qed.

Lemma load_channels_inv conn t hn ht hp ids out out' :
  for_each ids (load_channel conn t hn ht hp) out = Return out' →
  ∃ chans, out' = out ++ chans ∧
    Forall2 (λ id c, ch_id c = id ∧
               ∃ tb, conn = COpen tb ∧ ch_events c = guide_events ht hp t id (rows tb))
            ids chans.
Proof.
  revert out. induction ids as [|id ids IH]; intros out H.
  - injection H as <-. exists []. by rewrite app_nil_r.
  - cbn [for_each] in H. apply bind_inv in H as (out1 & H1 & H).
    apply load_channel_inv in H1 as (tb & name & -> & ->).
    apply IH in H as (chans & -> & HF).
    eexists (_ :: chans). rewrite <- app_assoc. split; [done|].
    constructor; [|done]. split; [done|]. by exists tb.
Qed.

(** A snapshot that was returned lists the channels of [q_channels] in that
    order, each with the events of [guide_events]. *)
Lemma load_channels_and_events_inv s t chans :
  load_channels_and_events s t = Return chans →
  chans = [] ∨
  ∃ tb, s = Ready tb ∧
    Forall2 (λ id c, ch_id c = id ∧
               ch_events c = guide_events (has_column tb "title") (has_column tb "path")
                               t id (rows tb))
            (q_channels (rows tb)) chans.
Proof.
  unfold load_channels_and_events.
  destruct s as [| | |tb]; cbn [db_exists negb sqlite3_connect].
  - intros [= <-]. by left.
  - discriminate.
  - discriminate.
  - rewrite bind_Return. intros H. apply bind_inv in H as (ids & He & H).
    apply execute_inv in He as (tb' & [= <-] & ->).
    apply load_channels_inv in H as (cs & -> & HF).
    right. exists tb. split; [done|]. cbn [app].
    eapply Forall2_impl; [exact HF|].
    intros id c (Hid & tb' & [= <-] & Hev). done.
Qed.

Lemma key_columns_has t :
  key_columns t = true →
  has_column t "channel_id" = true ∧ has_column t "start_utc" = true
  ∧ has_column t "end_utc" = true.
Proof.
  unfold key_columns. cbn [forallb]. intros H.
  apply andb_prop in H as [H1 H]. apply andb_prop in H as [H2 H].
  apply andb_prop in H as [H3 _]. done.
Qed.

(** With the key columns in the table the loader returns. *)
Lemma load_channel_ready tb t id out :
  key_columns tb = true →
  ∃ out', load_channel (COpen tb) t (has_column tb "channel_name")
            (has_column tb "title") (has_column tb "path") id out = Return out'.
Proof.
  intros (Hc & Hs & He)%key_columns_has. unfold load_channel.
  assert (Hname : ∃ n,
    (if has_column tb "channel_name" then
       name_row ← execute (COpen tb) ["channel_name"; "channel_id"]
                    (λ rs, fetchone (q_channel_name id rs));
       Return (match name_row with
               | Some r =>
                   match channel_name r with
                   | Some n => if truthy n then strip n else "Channel " +:+ id
                   | None => "Channel " +:+ id
                   end
               | None => "Channel " +:+ id
               end)
     else Return ("Channel " +:+ id)) = Return n).
  { destruct (has_column tb "channel_name") eqn:Hn; [|eauto].
    rewrite execute_open; [rewrite bind_Return; eauto|].
    cbn [forallb]. by rewrite Hn, Hc. }
  destruct Hname as [n ->]. rewrite bind_Return.
  rewrite execute_open; [rewrite bind_Return; eauto|].
  unfold q_events_cols.
  destruct (has_column tb "title") eqn:Ht, (has_column tb "path") eqn:Hp;
    cbn [app forallb]; by rewrite ?Ht, ?Hp, Hs, He, Hc.
Qed.

Lemma load_channels_ready tb t ids out :
  key_columns tb = true →
  ∃ out', for_each ids (load_channel (COpen tb) t (has_column tb "channel_name")
                          (has_column tb "title") (has_column tb "path")) out
          = Return out'.
Proof.
  intros Hk. revert out. induction ids as [|id ids IH]; intros out; [by eexists|].
  cbn [for_each]. destruct (load_channel_ready tb t id out Hk) as [out1 ->].
  rewrite bind_Return. apply IH.
Qed.

Lemma load_channels_and_events_ready tb t :
  key_columns tb = true →
  ∃ chans, load_channels_and_events (Ready tb) t = Return chans.
Proof.
  intros Hk. unfold load_channels_and_events.
  cbn [db_exists negb sqlite3_connect]. rewrite bind_Return.
  cbn [_table_has_column].
  rewrite execute_open; [|cbn [forallb]; by rewrite (proj1 (key_columns_has _ Hk))].
  rewrite bind_Return. by apply load_channels_ready.
Qed.

Lemma snapshot_channel tb t chans c :
  Forall2 (λ id c, ch_id c = id ∧
             ch_events c = guide_events (has_column tb "title") (has_column tb "path")
                             t id (rows tb))
          (q_channels (rows tb)) chans →
  c ∈ chans →
  ch_events c = guide_events (has_column tb "title") (has_column tb "path")
                  t (ch_id c) (rows tb).
Proof.
  intros HF [i Hi]%list_elem_of_lookup_1.
  destruct (Forall2_lookup_r _ _ _ _ _ HF Hi) as (id & _ & <- & Hev). done.
Qed.


(** Every event of a snapshot ends after it starts: it is the placeholder,
    or it shows a row of its channel that has not ended, with the end moved
    to [start + 60] when the stored end is not after the start. *)
Lemma guide_events_elem ht hp t id rs e :
  e ∈ guide_events ht hp t id rs →
  ev_start e < ev_end e ∧
  (e = placeholder_event t ∨
   ∃ r, r ∈ rs ∧ channel_id r = id ∧ t < end_utc r ∧ e = event_of_row ht hp r).
Proof.
  destruct (guide_events_cases ht hp t id rs) as [[_ ->]|[_ ->]].
  - intros ->%list_elem_of_singleton. split; [cbn; lia | by left].
  - intros (r & -> & Hr)%list_elem_of_fmap. split.
    + apply event_of_row_times.
    + right. exists r. apply q_events_elem in Hr as (? & ? & ?). done.
Qed.

Lemma q_current_elem cid t rs r :
  fetchone (q_current cid t rs) = Some r →
  r ∈ rs ∧ channel_id r = cid ∧ start_utc r ≤ t < end_utc r.
Proof.
  unfold q_current. intros H%fetchone_limit_1_elem.
  rewrite order_by_desc_perm in H. apply elem_of_List_filter in H as [Hr Hp].
  apply andb_prop in Hp as [Hp He]. apply andb_prop in Hp as [Hc Hs].
  apply String.eqb_eq in Hc. apply Z.leb_le in Hs. apply Z.ltb_lt in He. done.
Qed.

Lemma q_next_elem cid t rs r :
  fetchone (q_next cid t rs) = Some r →
  r ∈ rs ∧ channel_id r = cid ∧ t < start_utc r.
Proof.
  unfold q_next. intros H%fetchone_limit_1_elem.
  rewrite order_by_asc_perm in H. apply elem_of_List_filter in H as [Hr Hp].
  apply andb_prop in Hp as [Hc Hs].
  apply String.eqb_eq in Hc. apply Z.ltb_lt in Hs. done.
Qed.

Lemma schedule_now_next_inv conn cid t now_row next_row :
  schedule_now_next conn cid t = Return (now_row, next_row) →
  ∃ tb, conn = COpen tb ∧
    now_row = fetchone (q_current cid t (rows tb)) ∧
    next_row = fetchone (q_next cid t (rows tb)).
Proof.
  unfold schedule_now_next. intros H.
  apply bind_inv in H as (r1 & H1 & H). apply bind_inv in H as (r2 & H2 & H).
  apply execute_inv in H1 as (tb & -> & ->).
  apply execute_inv in H2 as (tb' & [= <-] & ->).
  injection H as <- <-. by exists tb.
Qed.

Lemma schedule_now_next_ready tb cid t :
  key_columns tb = true →
  schedule_now_next (COpen tb) cid t
  = Return (fetchone (q_current cid t (rows tb)), fetchone (q_next cid t (rows tb))).
Proof.
  intros (Hc & Hs & He)%key_columns_has. unfold schedule_now_next.
  rewrite !execute_open; [done|cbn [forallb]; by rewrite ?Hc, ?Hs, ?He..].
Qed.

(** C3 as the spec words it fails for the overlay: the next row of a store
    whose only row has [start = end = 500] is returned with [end = 500]. *)
Lemma overlay_next_row_counterexample :
  ∃ r, schedule_now_next (COpen zero_length_table) "1" 100 = Return (None, Some r) ∧
       start_utc r = 500 ∧ end_utc r = 500 ∧ ¬ start_utc r < end_utc r.
Proof.
  eexists. split; [vm_compute; reflexivity|]. cbn. repeat split. lia.
Qed.

(** C3, as the code has it.  Guide: with the key columns in the table the
    loader returns, and every event of a returned snapshot has
    [end > start]; it is the placeholder or it shows a stored row, whose end
    is replaced by [start + 60] when the stored end is not after the start.
    Overlay: [schedule_now_next] returns with those columns; its now row has
    [start <= now < end] by the query, and its next row is a stored row of
    the channel with [start > now], returned as stored. *)
Theorem end_after_start_where_enforced (s : Store) (conn : Conn) (cid : string) (t : Z) :
  (∀ chans c e,
     load_channels_and_events s t = Return chans → c ∈ chans → e ∈ ch_events c →
     ev_start e < ev_end e ∧
     (e = placeholder_event t ∨
      ∃ tb r, s = Ready tb ∧ r ∈ rows tb ∧ channel_id r = ch_id c ∧ t < end_utc r ∧
        ev_start e = start_utc r ∧
        ev_end e = if end_utc r <=? start_utc r then start_utc r + 60 else end_utc r)) ∧
  (∀ now_row next_row,
     schedule_now_next conn cid t = Return (Some now_row, next_row) →
     start_utc now_row ≤ t < end_utc now_row) ∧
  (∀ now_row r,
     schedule_now_next conn cid t = Return (now_row, Some r) →
     ∃ tb, conn = COpen tb ∧ r ∈ rows tb ∧ channel_id r = cid ∧ t < start_utc r) ∧
  (∀ tb, key_columns tb = true →
     (∃ chans, load_channels_and_events (Ready tb) t = Return chans) ∧
     (∃ r, schedule_now_next (COpen tb) cid t = Return r)).
Proof.
  split; [|split; [|split]].
  - intros chans c e Hl Hc He.
    apply load_channels_and_events_inv in Hl as [->|(tb & -> & HF)].
    { by apply elem_of_nil in Hc. }
    rewrite (snapshot_channel _ _ _ _ HF Hc) in He.
    apply guide_events_elem in He as [Hlt [->|(r & Hr & Hid & Ht & ->)]].
    + split; [done | by left].
    + split; [done|]. right. exists tb, r.
      destruct (event_of_row_times (has_column tb "title") (has_column tb "path") r)
        as (Hs & He & _).
      done.
  - intros now_row next_row H.
    apply schedule_now_next_inv in H as (tb & _ & Hn & _).
    symmetry in Hn. by apply q_current_elem in Hn as (_ & _ & ?).
  - intros now_row r H.
    apply schedule_now_next_inv in H as (tb & -> & _ & Hn).
    symmetry in Hn. apply q_next_elem in Hn as (? & ? & ?). by exists tb.
  - intros tb Hk. split; [by apply load_channels_and_events_ready|].
    rewrite schedule_now_next_ready by done. eauto.
Qed.

Lemma end_after_start_where_enforced_witness :
  (∀ chans c e,
     load_channels_and_events (Ready zero_length_table) 100 = Return chans →
     c ∈ chans → e ∈ ch_events c →
     ev_start e < ev_end e ∧
     (e = placeholder_event 100 ∨
      ∃ tb r, Ready zero_length_table = Ready tb ∧ r ∈ rows tb ∧
        channel_id r = ch_id c ∧ 100 < end_utc r ∧
        ev_start e = start_utc r ∧
        ev_end e = if end_utc r <=? start_utc r then start_utc r + 60 else end_utc r)) ∧
  load_channels_and_events (Ready zero_length_table) 100
  = Return [{| ch_id := "1"; ch_name := "Channel 1";
               ch_events := [{| ev_title := "A"; ev_start := 500; ev_end := 560 |}] |}].
Proof.
  split; [|reflexivity].
  apply (end_after_start_where_enforced (Ready zero_length_table)
           (COpen zero_length_table) "1" 100).
Defined.

(** ** Order and cap of the guide snapshot *)


















(** ** Helper processes *)

Lemma live_pids_spec o w pid :
  pid ∈ live_pids o w ↔
  ∃ p, procs w !! pid = Some p ∧ p_alive p = true ∧ p_owner p = o.
Proof.
  unfold live_pids. rewrite elem_of_List_filter, elem_of_seq. split.
  - intros [_ H]. destruct (procs w !! pid) as [p|]; [|done].
    apply andb_prop in H as [Ha Ho]. apply bool_decide_eq_true in Ho. eauto.
  - intros (p & Hp & Ha & Ho). split.
    + apply lookup_lt_Some in Hp. lia.
    + rewrite Hp, Ha. by apply bool_decide_eq_true.
Qed.

Lemma live_pids_NoDup o w : NoDup (live_pids o w).
Proof.
  unfold live_pids. apply NoDup_ListNoDup, List.NoDup_filter, NoDup_ListNoDup, NoDup_seq.
Qed.

Lemma NoDup_all_equal {A} (l : list A) (a : A) :
  NoDup l → (∀ x, x ∈ l → x = a) → l = [] ∨ l = [a].
Proof.
  intros Hnd Hall. destruct l as [|x l]; [by left|]. right.
  assert (x = a) as -> by apply Hall, list_elem_of_here.
  destruct l as [|y l]; [done|].
  assert (y = a) as -> by (apply Hall; do 2 constructor).
  apply NoDup_cons in Hnd as [Hnd _]. exfalso. apply Hnd. constructor.
Qed.

(** Under the ownership invariant a manager has at most one running helper,
    the one its handle holds. *)
Lemma handle_inv_live o w :
  handle_inv w →
  live_pids o w = [] ∨ ∃ pid, handle o w = Some pid ∧ live_pids o w = [pid].
Proof.
  intros Hinv. destruct (handle o w) as [pid|] eqn:Hh.
  - destruct (NoDup_all_equal (live_pids o w) pid (live_pids_NoDup o w)) as [?|?];
      [|by left|right; by exists pid].
    intros x (p & Hp & Ha & <-)%live_pids_spec.
    pose proof (Hinv x p Hp Ha) as H. congruence.
  - left. destruct (live_pids o w) as [|x l] eqn:E; [done|].
    assert (x ∈ live_pids o w) as (p & Hp & Ha & <-)%live_pids_spec
      by (rewrite E; constructor).
    pose proof (Hinv x p Hp Ha) as H. congruence.
Qed.

Lemma quiet_live o w : quiet o w → live_pids o w = [].
Proof.
  intros Hq. destruct (live_pids o w) as [|x l] eqn:E; [done|].
  assert (x ∈ live_pids o w) as (p & Hp & Ha & Ho)%live_pids_spec
    by (rewrite E; constructor).
  by destruct (Hq x p Hp Ha).
Qed.

(** What is running after [terminate(); wait(); kill()] was running before,
    and is not the process the handle held. *)
Lemma terminate_wait_kill_lookup h w j q :
  procs (terminate_wait_kill h w) !! j = Some q → p_alive q = true →
  procs w !! j = Some q ∧ h ≠ Some j.
Proof.
  unfold terminate_wait_kill. destruct h as [pid|]; [|done].
  destruct (is_running pid w) eqn:Hrun.
  - assert (procs (if exits_on_term (env (emit (SigTerm pid) w)) pid
                   then reap pid (emit (SigTerm pid) w)
                   else reap pid (emit (SigKill pid) (emit (SigTerm pid) w)))
            = alter exited pid (procs w)) as -> by by destruct (exits_on_term _ _).
    intros Hq Ha. destruct (decide (pid = j)) as [->|Hne].
    + rewrite list_lookup_alter_eq in Hq.
      destruct (procs w !! j); [|done]. injection Hq as <-. done.
    + rewrite list_lookup_alter_ne in Hq by done. split; [done|congruence].
  - intros Hq Ha. split; [done|]. intros [= ->].
    unfold is_running in Hrun. rewrite Hq in Hrun. congruence.
Qed.

Lemma length_procs_terminate_wait_kill h w :
  length (procs (terminate_wait_kill h w)) = length (procs w).
Proof.
  unfold terminate_wait_kill. destruct h as [pid|]; [|done].
  destruct (is_running pid w); [|done].
  destruct (exits_on_term _ _); cbn; apply length_alter.
Qed.

Lemma reap_inv pid w : handle_inv w → handle_inv (reap pid w).
Proof.
  intros Hinv j q Hq Ha. cbn in Hq.
  destruct (decide (pid = j)) as [->|Hne].
  - rewrite list_lookup_alter_eq in Hq.
    destruct (procs w !! j); [|done]. injection Hq as <-. done.
  - rewrite list_lookup_alter_ne in Hq by done. by apply (Hinv j q).
Qed.

Lemma stop_preview_inv w :
  handle_inv w →
  handle_inv (stop_preview w) ∧ quiet OwnPreview (stop_preview w) ∧
  preview (win (stop_preview w)) = None.
Proof.
  intros Hinv.
  assert (H : ∀ j q, procs (stop_preview w) !! j = Some q → p_alive q = true →
              p_owner q = OwnAudio ∧ a_proc (menu_audio (win w)) = Some j).
  { intros j q Hq Ha. cbn in Hq.
    apply terminate_wait_kill_lookup in Hq as [Hq Hne]; [|done].
    pose proof (Hinv j q Hq Ha) as Hh. destruct (p_owner q); [done|].
    by split. }
  split; [|split; [|done]].
  - intros j q Hq Ha. destruct (H j q Hq Ha) as [-> Hh].
    cbn. by rewrite win_terminate_wait_kill.
  - intros j q Hq Ha. destruct (H j q Hq Ha) as [-> _]. done.
Qed.

Lemma audio_stop_inv w :
  handle_inv w →
  handle_inv (audio_stop w) ∧ quiet OwnAudio (audio_stop w) ∧
  a_proc (menu_audio (win (audio_stop w))) = None.
Proof.
  intros Hinv.
  assert (H : ∀ j q, procs (audio_stop w) !! j = Some q → p_alive q = true →
              p_owner q = OwnPreview ∧ preview (win w) = Some j).
  { intros j q Hq Ha. cbn in Hq.
    apply terminate_wait_kill_lookup in Hq as [Hq Hne]; [|done].
    pose proof (Hinv j q Hq Ha) as Hh. destruct (p_owner q); [|done].
    by split. }
  split; [|split; [|done]].
  - intros j q Hq Ha. destruct (H j q Hq Ha) as [-> Hh].
    cbn. by rewrite win_terminate_wait_kill.
  - intros j q Hq Ha. destruct (H j q Hq Ha) as [-> _]. done.
Qed.

Lemma lookup_snoc_inv {A} (l : list A) (x y : A) i :
  (l ++ [x]) !! i = Some y → l !! i = Some y ∨ (i = length l ∧ y = x).
Proof.
  intros [H|[Hle H]]%lookup_app_Some; [by left|right].
  destruct (i - length l)%nat as [|k] eqn:E; [|done].
  injection H as <-. split; [lia|done].
Qed.

(** Starting the preview returns and keeps the ownership invariant; when the
    window id and the spawn succeed, the handle holds the new process, which
    runs mpv on [path] from [start_sec]. *)
Lemma start_preview_inv path s w :
  handle_inv w →
  ∃ w', start_preview path s w = Return w' ∧ handle_inv w' ∧
    (∀ wid, win_id (env w) = Return wid →
       popen_ok (env w) (preview_args path s wid) = true →
       preview (win w') = Some (length (procs w)) ∧
       procs w' !! length (procs w)
       = Some {| p_owner := OwnPreview; p_args := preview_args path s wid;
                 p_alive := true |}).
Proof.
  intros Hinv. destruct (stop_preview_inv w Hinv) as (Hinv1 & Hq & _).
  destruct (stop_preview_only w) as (He & _).
  assert (Hlen : length (procs (stop_preview w)) = length (procs w))
    by apply length_procs_terminate_wait_kill.
  unfold start_preview. set (w1 := stop_preview w) in *. clearbody w1.
  assert (Hfail : handle_inv (on_win (set_preview None) w1)).
  { intros j q Hj Ha. cbn in Hj. pose proof (Hinv1 j q Hj Ha) as Hh.
    pose proof (Hq j q Hj Ha). by destruct (p_owner q). }
  unfold try_except, Popen. rewrite He.
  destruct (win_id (env w)) as [wid|e]; [rewrite bind_Return|].
  - destruct (popen_ok (env w) _) eqn:Hok.
    + rewrite bind_Return. eexists. split; [done|]. split.
      * intros j q Hj Ha. cbn in Hj.
        apply lookup_snoc_inv in Hj as [Hj|[-> ->]].
        -- pose proof (Hinv1 j q Hj Ha) as Hh. pose proof (Hq j q Hj Ha).
           by destruct (p_owner q).
        -- done.
      * intros wid' [= <-] _. cbn. rewrite <- Hlen. split; [done|].
        by rewrite list_lookup_middle.
    + eexists. split; [done|]. split; [done|]. intros wid' [= <-] ?. congruence.
  - eexists. split; [done|]. split; [done|]. intros wid' [=].
Qed.

Lemma audio_start_inv w :
  handle_inv w → ∃ w', audio_start w = Return w' ∧ handle_inv w'.
Proof.
  intros Hinv. unfold audio_start.
  destruct (file_exists _ _); cbn [negb]; [|eauto].
  destruct (audio_stop_inv w Hinv) as (Hinv1 & Hq & _).
  set (w1 := audio_stop w) in *. clearbody w1.
  assert (Hfail : handle_inv
            (on_win (λ m, set_menu_audio (set_a_proc None (menu_audio m)) m) w1)).
  { intros j q Hj Ha. cbn in Hj. pose proof (Hinv1 j q Hj Ha) as Hh.
    pose proof (Hq j q Hj Ha). by destruct (p_owner q). }
  unfold try_except, Popen.
  destruct (popen_ok (env w1) _); [|eauto].
  rewrite bind_Return. eexists. split; [done|].
  intros j q Hj Ha. cbn in Hj.
  apply lookup_snoc_inv in Hj as [Hj|[-> ->]].
  - pose proof (Hinv1 j q Hj Ha) as Hh. pose proof (Hq j q Hj Ha).
    by destruct (p_owner q).
  - done.
Qed.

Lemma is_running_terminate_wait_kill h w j :
  is_running j (terminate_wait_kill h w) = true →
  is_running j w = true ∧ h ≠ Some j.
Proof.
  unfold is_running at 1.
  destruct (procs (terminate_wait_kill h w) !! j) as [q|] eqn:Hq; [|done].
  intros Ha. destruct (terminate_wait_kill_lookup h w j q Hq Ha) as [Hw Hne].
  split; [|done]. unfold is_running. by rewrite Hw.
Qed.

(** [MenuAudio.start] with the audio file in place and a spawn that
    succeeds: the helper that ran is stopped first, then the new one is
    spawned, and it is the only audio helper running. *)
Lemma audio_start_spawns w :
  handle_inv w →
  file_exists (env w) (a_path (menu_audio (win w))) = true →
  popen_ok (env w) (audio_args (menu_audio (win w))) = true →
  ∃ w', audio_start w = Return w' ∧
    a_proc (menu_audio (win w')) = Some (length (procs w)) ∧
    procs w' !! length (procs w)
    = Some {| p_owner := OwnAudio; p_args := audio_args (menu_audio (win w));
              p_alive := true |} ∧
    sent w' = sent (audio_stop w) ++ [Spawn (length (procs w))] ∧
    live_pids OwnAudio w' = [length (procs w)] ∧
    (∀ pid, a_proc (menu_audio (win w)) = Some pid → is_running pid w = true →
            is_running pid w' = false).
Proof.
  intros Hinv Hf Hok.
  destruct (audio_start_inv w Hinv) as (w' & E & Hinv').
  exists w'. split; [done|].
  unfold audio_start in E. rewrite Hf in E. cbn [negb] in E.
  assert (He : env (audio_stop w) = env w).
  { unfold audio_stop. cbn. apply env_terminate_wait_kill. }
  assert (Ha : audio_args (menu_audio (win (audio_stop w)))
               = audio_args (menu_audio (win w))).
  { unfold audio_stop. cbn. by rewrite win_terminate_wait_kill. }
  assert (Hlen : length (procs (audio_stop w)) = length (procs w))
    by apply length_procs_terminate_wait_kill.
  assert (Hst : ∀ pid q, procs (audio_stop w) !! pid = Some q → p_alive q = true →
                         a_proc (menu_audio (win w)) ≠ Some pid).
  { intros pid q Hq Hal. unfold audio_stop in Hq. cbn in Hq.
    by apply terminate_wait_kill_lookup in Hq as [_ Hne]. }
  set (w1 := audio_stop w) in *. clearbody w1.
  unfold try_except, Popen in E. rewrite He, Ha, Hok, bind_Return in E.
  injection E as <-. cbn [fst snd]. rewrite Hlen.
  split; [done|]. split.
  { cbn. rewrite <- Hlen. by rewrite list_lookup_middle. }
  split; [done|]. split.
  - rewrite Hlen in Hinv'.
    destruct (handle_inv_live OwnAudio _ Hinv') as [Hl|(pid & Hpid & ->)].
    + match type of Hl with live_pids _ ?w2 = _ =>
        assert (length (procs w) ∈ live_pids OwnAudio w2) as Hin end.
      { apply live_pids_spec. eexists.
        split; [cbn; rewrite <- Hlen; by rewrite list_lookup_middle | done]. }
      rewrite Hl in Hin. by apply elem_of_nil in Hin.
    + cbn in Hpid. congruence.
  - intros pid Hh Hrun. unfold is_running. cbn.
    assert (Hlt : (pid < length (procs w1))%nat).
    { rewrite Hlen. unfold is_running in Hrun.
      destruct (procs w !! pid) eqn:Hp; [|done]. by apply lookup_lt_Some in Hp. }
    rewrite lookup_app_l by done.
    destruct (procs w1 !! pid) as [q|] eqn:Hq; [|done].
    destruct (p_alive q) eqn:Hal; [|done].
    by destruct (Hst pid q Hq Hal).
Qed.

(** The claim as the spec words it fails for the audio manager: with its
    helper running and the audio file gone, [MenuAudio.start] returns at
    once; the helper that ran keeps running, nothing is stopped and nothing
    is spawned. *)
Lemma audio_start_counterexample :
  ∃ w, audio_start sample_world = Return w ∧
    a_proc (menu_audio (win w)) = Some 0%nat ∧ is_running 0 w = true ∧
    audio_start (set_env (missing_audio_env (env w)) w)
    = Return (set_env (missing_audio_env (env w)) w) ∧
    is_running 0 (set_env (missing_audio_env (env w)) w) = true.
Proof. eexists. split; [vm_compute; reflexivity|]. by vm_compute. Qed.

Lemma call_inv c w : handle_inv w → ∃ w', call c w = Return w' ∧ handle_inv w'.
Proof.
  intros Hinv. destruct c as [p s| | | |e|pid]; unfold call.
  - destruct (start_preview_inv p s w Hinv) as (w' & ? & ? & _). eauto.
  - eexists. split; [done|]. by apply stop_preview_inv.
  - by apply audio_start_inv.
  - eexists. split; [done|]. by apply audio_stop_inv.
  - eexists. split; [done|]. done.
  - eexists. split; [done|]. by apply reap_inv.
Qed.

Lemma boot_inv e p v : handle_inv (boot e p v).
Proof. intros j q Hj. done. Qed.

(** C6: from a state in which every running helper is held by its
    manager's handle (as at start-up), every sequence of start and stop
    calls on the two handles, with time passing and helpers ending by
    themselves in between, returns and leaves at most one running process
    per handle.  A start first stops: after the stop inside it no process of
    that manager runs.  [start_preview(pathA, 0)] followed by
    [start_preview(pathB, 10)], when the second spawn succeeds, leaves
    exactly one running preview process, the one the handle holds, which
    plays [pathB] from second 10.  [MenuAudio.start], when the audio file
    exists and the spawn succeeds, stops the helper that ran and then
    spawns: the log is that of the stop followed by the spawn, and the one
    running audio helper is the new one, with the audio arguments.  When
    the audio file does not exist it returns the state as it is, stopping
    and spawning nothing. *)
Theorem one_helper_per_handle (w : World) (cs : list Call) (pathA pathB : string) :
  handle_inv w →
  (∃ w', for_each cs call w = Return w' ∧ handle_inv w' ∧
     (length (live_pids OwnPreview w') ≤ 1)%nat ∧
     (length (live_pids OwnAudio w') ≤ 1)%nat) ∧
  (live_pids OwnPreview (stop_preview w) = [] ∧
   live_pids OwnAudio (audio_stop w) = []) ∧
  (∀ wid, win_id (env w) = Return wid →
     popen_ok (env w) (preview_args pathB 10 wid) = true →
     ∃ wA wB pid,
       start_preview pathA 0 w = Return wA ∧
       start_preview pathB 10 wA = Return wB ∧
       live_pids OwnPreview wB = [pid] ∧ preview (win wB) = Some pid ∧
       procs wB !! pid
       = Some {| p_owner := OwnPreview; p_args := preview_args pathB 10 wid;
                 p_alive := true |} ∧
       preview_args pathB 10 wid !! 1%nat = Some pathB ∧
       preview_args pathB 10 wid !! 10%nat = Some "--start=10.000") ∧
  (file_exists (env w) (a_path (menu_audio (win w))) = true →
   popen_ok (env w) (audio_args (menu_audio (win w))) = true →
   ∃ w', audio_start w = Return w' ∧
     a_proc (menu_audio (win w')) = Some (length (procs w)) ∧
     procs w' !! length (procs w)
     = Some {| p_owner := OwnAudio; p_args := audio_args (menu_audio (win w));
               p_alive := true |} ∧
     sent w' = sent (audio_stop w) ++ [Spawn (length (procs w))] ∧
     live_pids OwnAudio w' = [length (procs w)] ∧
     (∀ pid, a_proc (menu_audio (win w)) = Some pid → is_running pid w = true →
             is_running pid w' = false)) ∧
  (file_exists (env w) (a_path (menu_audio (win w))) = false →
   audio_start w = Return w).
Proof.
  intros Hinv. split; [|split; [|split; [|split]]];
    [| | |by apply audio_start_spawns
     |by intros Hf; unfold audio_start; rewrite Hf].
  - destruct (for_each_invariant call handle_inv (λ _, True)) with (l := cs) (s := w)
      as (w' & E & Hinv'); [by intros; apply call_inv|by apply Forall_true|done|].
    exists w'. split; [done|]. split; [done|].
    split.
    + destruct (handle_inv_live OwnPreview w' Hinv') as [->|(pid & _ & ->)]; cbn; lia.
    + destruct (handle_inv_live OwnAudio w' Hinv') as [->|(pid & _ & ->)]; cbn; lia.
  - split; apply quiet_live; [by apply stop_preview_inv | by apply audio_stop_inv].
  - intros wid Hwid Hok.
    destruct (start_preview_inv pathA 0 w Hinv) as (wA & EA & HinvA & _).
    destruct (start_preview_only pathA 0 w) as (wA' & EA' & HeA & _).
    assert (wA' = wA) as -> by congruence.
    destruct (start_preview_inv pathB 10 wA HinvA) as (wB & EB & HinvB & HB).
    rewrite HeA in HB. destruct (HB wid Hwid Hok) as [Hh Hp].
    exists wA, wB, (length (procs wA)). do 2 (split; [done|]).
    split; [|split; [done|split; [done|split; [reflexivity|]]]].
    + destruct (handle_inv_live OwnPreview wB HinvB) as [Hl|(pid & Hpid & ->)].
      * assert (length (procs wA) ∈ live_pids OwnPreview wB) as Hin
          by (apply live_pids_spec; eauto).
        rewrite Hl in Hin. by apply elem_of_nil in Hin.
      * cbn in Hpid. congruence.
    + by vm_compute.
Qed.

Lemma one_helper_per_handle_witness :
  (∃ wA wB pid,
    start_preview "/media/a.mkv" 0 sample_world = Return wA ∧
    start_preview "/media/b.mkv" 10 wA = Return wB ∧
    live_pids OwnPreview wB = [pid] ∧ preview (win wB) = Some pid ∧
    procs wB !! pid
    = Some {| p_owner := OwnPreview; p_args := preview_args "/media/b.mkv" 10 77;
              p_alive := true |} ∧
    preview_args "/media/b.mkv" 10 77 !! 1%nat = Some "/media/b.mkv" ∧
    preview_args "/media/b.mkv" 10 77 !! 10%nat = Some "--start=10.000") ∧
  (∃ w', audio_start sample_world = Return w' ∧
     a_proc (menu_audio (win w')) = Some 0%nat ∧
     live_pids OwnAudio w' = [0%nat]).
Proof.
  assert (Hinv : handle_inv sample_world) by (intros j q Hj; discriminate Hj).
  destruct (one_helper_per_handle sample_world [] "/media/a.mkv" "/media/b.mkv"
              Hinv) as (_ & _ & H & Ha & _).
  split; [exact (H 77 eq_refl eq_refl)|].
  destruct (Ha eq_refl eq_refl) as (w' & E & Hh & _ & _ & Hl & _).
  exists w'. split; [exact E|]. split; [exact Hh | exact Hl].
Defined.

(** ** Closing the menu *)

(** Asking the player to go back to live touches neither the window nor the
    process table. *)
Lemma _return_to_live_frame w :
  win (_return_to_live w) = win w ∧ procs (_return_to_live w) = procs w.
Proof.
  unfold _return_to_live, post_200, get_status. cbn [fst snd].
  destruct (_ && _); [done|].
  destruct (status _) as [st|]; [|done]. cbn [fst snd].
  destruct (s_channel st) as [c|]; [|done]. cbn [fmap option_fmap option_map].
  by destruct (truthy (jstr c)).
Qed.

Lemma close_menu_procs w :
  procs (close_menu w) = procs (stop_preview (audio_stop w)) ∧
  win (close_menu w)
  = set_visible false
      (set_pip_footer (footer_hide (pip_footer (win (stop_preview (audio_stop w)))))
         (win (stop_preview (audio_stop w)))).
Proof.
  unfold close_menu. destruct (_return_to_live_frame
    (on_win (set_visible false)
       (on_win (λ m, set_pip_footer (footer_hide (pip_footer m)) m)
          (stop_preview (audio_stop w))))) as [-> ->].
  done.
Qed.

(** C7: whatever the state of the menu (visible or not, root or guide),
    [close_menu] leaves both handles empty and the window hidden, and the
    processes the handles held are not running; with every running helper
    held by its handle beforehand, no helper process runs afterwards.  The
    remote commands close and cancel and the Escape key are this operation. *)
Theorem close_stops_helpers (w : World) :
  preview (win (close_menu w)) = None ∧
  a_proc (menu_audio (win (close_menu w))) = None ∧
  visible (win (close_menu w)) = false ∧
  (∀ pid, preview (win w) = Some pid ∨ a_proc (menu_audio (win w)) = Some pid →
          is_running pid (close_menu w) = false) ∧
  (handle_inv w →
   handle_inv (close_menu w) ∧
   live_pids OwnPreview (close_menu w) = [] ∧ live_pids OwnAudio (close_menu w) = []) ∧
  do_POST "/menu/close" w = Return (close_menu w, RAction "close") ∧
  (visible (win w) = true → do_POST "/menu/esc" w = Return (close_menu w, ROk)) ∧
  keyPressEvent Key_Escape w = Return (close_menu w).
Proof.
  destruct (close_menu_procs w) as [Hp Hw].
  assert (Hwa : win (audio_stop w)
                = set_menu_audio (set_a_proc None (menu_audio (win w))) (win w)).
  { unfold audio_stop, on_win. cbn. by rewrite win_terminate_wait_kill. }
  assert (Hws : win (stop_preview (audio_stop w))
                = set_preview None (win (audio_stop w))).
  { unfold stop_preview at 1, on_win. cbn. by rewrite win_terminate_wait_kill. }
  split; [by rewrite Hw, Hws|]. split; [by rewrite Hw, Hws, Hwa|].
  split; [by rewrite Hw|]. split; [|split; [|split; [done|split; [|done]]]].
  - intros pid Hh. destruct (is_running pid (close_menu w)) eqn:Hr; [|done].
    exfalso. unfold is_running in Hr. rewrite Hp in Hr.
    change (is_running pid (stop_preview (audio_stop w)) = true) in Hr.
    unfold stop_preview in Hr.
    change (is_running pid (terminate_wait_kill (preview (win (audio_stop w)))
                              (audio_stop w)) = true) in Hr.
    apply is_running_terminate_wait_kill in Hr as [Hr Hn1].
    unfold audio_stop in Hr.
    change (is_running pid (terminate_wait_kill (a_proc (menu_audio (win w))) w)
            = true) in Hr.
    apply is_running_terminate_wait_kill in Hr as [_ Hn2].
    rewrite Hwa in Hn1. cbn in Hn1. by destruct Hh.
  - intros Hinv.
    destruct (audio_stop_inv w Hinv) as (Hinv1 & Hq1 & _).
    destruct (stop_preview_inv _ Hinv1) as (Hinv2 & Hq2 & _).
    assert (Hqa : quiet OwnAudio (stop_preview (audio_stop w))).
    { intros j q Hj Ha. cbn in Hj.
      apply terminate_wait_kill_lookup in Hj as [Hj _]; [|done].
      by apply (Hq1 j q). }
    assert (Hq : ∀ o, quiet o (close_menu w)).
    { intros o j q Hj Ha. rewrite Hp in Hj.
      destruct o; [by apply (Hq2 j q) | by apply (Hqa j q)]. }
    split; [|split; by apply quiet_live].
    intros j q Hj Ha. by destruct (Hq (p_owner q) j q Hj Ha).
  - intros Hv. unfold do_POST. rewrite Hv. reflexivity.
Qed.

Lemma close_stops_helpers_witness :
  ∃ w, (w0 ← open_menu sample_world; _enter_guide_mode w0) = Return w ∧
    handle_inv w ∧ mode (win w) = ModeGuide ∧ visible (win w) = true ∧
    preview (win w) = Some 1%nat ∧ a_proc (menu_audio (win w)) = Some 0%nat ∧
    is_running 1 w = true ∧ is_running 0 w = true ∧
    handle_inv (close_menu w) ∧
    live_pids OwnPreview (close_menu w) = [] ∧ live_pids OwnAudio (close_menu w) = [].
Proof.
  eexists. split; [vm_compute; reflexivity|].
  match goal with |- handle_inv ?w ∧ _ =>
    assert (Hinv : handle_inv w) end.
  { intros j q Hj Ha. cbn [procs] in Hj.
    destruct j as [|[|j]]; [| |done]; injection Hj as <-; done. }
  split; [exact Hinv|]. do 6 (split; [reflexivity|]).
  match goal with |- handle_inv (close_menu ?w) ∧ _ =>
    destruct (close_stops_helpers w) as (_ & _ & _ & _ & H & _) end.
  exact (H Hinv).
Defined.

(** ** The invariant of a running menu

    From start-up on, every remote command and every key that returns leaves
    a state that satisfies [menu_inv]: the hypotheses of the theorems above
    hold in every state the program reaches. *)

Lemma keeps_refl w : keeps w w.
Proof. by split. Qed.

Lemma keeps_trans w1 w2 w3 : keeps w1 w2 → keeps w2 w3 → keeps w1 w3.
Proof. intros [H1 E1] [H2 E2]. split; [auto | congruence]. Qed.

Lemma handle_inv_frame w w' :
  procs w' = procs w → preview (win w') = preview (win w) →
  menu_audio (win w') = menu_audio (win w) →
  handle_inv w → handle_inv w'.
Proof.
  intros Hp Hv Ha Hinv j q Hj Hq. rewrite Hp in Hj.
  pose proof (Hinv j q Hj Hq) as H. destruct (p_owner q); cbn in *; congruence.
Qed.

Lemma keeps_frame w w' :
  procs w' = procs w → preview (win w') = preview (win w) →
  menu_audio (win w') = menu_audio (win w) →
  core_view w' = core_view w → keeps w w'.
Proof. intros. split; [by apply handle_inv_frame | done]. Qed.

Lemma menu_inv_keeps w w' : keeps w w' → menu_inv w → menu_inv w'.
Proof.
  intros [Hh Hc] (Hinv & Hi & Hv & Hs & Hl & Hcol & Hg).
  unfold core_view, cursor in Hc. injection Hc as Ei Es El Er Erow Ecol Eoff Ev.
  split; [auto|]. unfold guide_inv in *.
  rewrite Ei, Es, El, Er, Erow, Ecol, Eoff, Ev. done.
Qed.

Lemma keeps_stop_preview w : keeps w (stop_preview w).
Proof.
  split; [intros H; by apply stop_preview_inv|].
  unfold core_view, cursor, stop_preview. cbn. by rewrite win_terminate_wait_kill.
Qed.

Lemma keeps_audio_stop w : keeps w (audio_stop w).
Proof.
  split; [intros H; by apply audio_stop_inv|].
  unfold core_view, cursor, audio_stop. cbn. by rewrite win_terminate_wait_kill.
Qed.

Lemma preview_only_core w w' : preview_only w w' → core_view w' = core_view w.
Proof. intros (_ & x & Hw). unfold core_view, cursor. by rewrite Hw. Qed.

Lemma keeps_start_preview p s w :
  ∃ w', start_preview p s w = Return w' ∧ keeps w w'.
Proof.
  destruct (start_preview_only p s w) as (w' & E & Hpo).
  exists w'. split; [done|]. split; [|by apply preview_only_core].
  intros Hinv. destruct (start_preview_inv p s w Hinv) as (w'' & E' & ? & _).
  rewrite E in E'. by injection E' as <-.
Qed.

Lemma keeps_start_preview_from_channel ch w :
  ∃ w', _start_preview_from_channel ch w = Return w' ∧ keeps w w'.
Proof.
  unfold _start_preview_from_channel.
  destruct (resolve_returns (store (env w)) (now (env w)) ch) as [r ->].
  rewrite bind_Return. destruct r as [[p off]|]; [|eauto using keeps_refl].
  destruct (file_exists _ _); cbn [negb]; [|eauto using keeps_refl].
  apply keeps_start_preview.
Qed.

Lemma keeps_audio_start w : ∃ w', audio_start w = Return w' ∧ keeps w w'.
Proof.
  assert (Hex : ∃ w', audio_start w = Return w' ∧ core_view w' = core_view w).
  { unfold audio_start. destruct (file_exists _ _); cbn [negb]; [|eauto].
    pose proof (keeps_audio_stop w) as [_ Hc].
    set (w1 := audio_stop w) in *. clearbody w1.
    unfold try_except, Popen. destruct (popen_ok _ _); [rewrite bind_Return|];
      eexists; (split; [done|]); by rewrite <- Hc. }
  destruct Hex as (w' & E & Hc). exists w'. split; [done|]. split; [|done].
  intros Hinv. destruct (audio_start_inv w Hinv) as (w'' & E' & ?).
  rewrite E in E'. by injection E' as <-.
Qed.

Lemma keeps_emit e w : keeps w (emit e w).
Proof. by apply keeps_frame. Qed.

Lemma keeps_pause_playback w : keeps w (_pause_playback w).
Proof.
  unfold _pause_playback, post_200, mpv_pause_on. cbn [fst snd].
  destruct (_ && _); by apply keeps_frame.
Qed.

Lemma keeps_return_to_live w : keeps w (_return_to_live w).
Proof.
  destruct (_return_to_live_frame w) as [Hw Hp].
  apply keeps_frame; try done; try by rewrite Hw.
  unfold core_view, cursor. by rewrite Hw.
Qed.

Lemma keeps_close_menu w : keeps w (close_menu w).
Proof.
  unfold close_menu.
  eapply keeps_trans; [apply keeps_audio_stop|].
  eapply keeps_trans; [apply keeps_stop_preview|].
  eapply keeps_trans; [|apply keeps_return_to_live].
  by apply keeps_frame.
Qed.

Lemma keeps_start_preview_from_status w :
  ∃ w', _start_preview_from_status w = Return w' ∧ keeps w w'.
Proof.
  unfold _start_preview_from_status, get_status. cbn [fst snd].
  destruct (status (env w)) as [st|]; [|eauto using keeps_emit].
  destruct (s_channel st) as [ch|]; [|eauto using keeps_emit].
  destruct (keeps_start_preview_from_channel (jstr ch)
              (emit (HttpGet (player_url "/status")) w)) as (w' & E & Hk).
  exists w'. split; [done|]. eapply keeps_trans; [apply keeps_emit | done].
Qed.

Lemma keeps_update_pip_footer w : keeps w (_update_pip_footer_from_status w).
Proof. unfold _update_pip_footer_from_status. by apply keeps_frame. Qed.

(** [open_menu] returns; the root cursor becomes the last-selected index. *)
Lemma open_menu_inv w : menu_inv w → ∃ w', open_menu w = Return w' ∧ menu_inv w'.
Proof.
  intros Hinv. unfold open_menu.
  set (w1 := _pause_playback (on_win (set_visible true) w)).
  assert (K1 : keeps w w1).
  { eapply keeps_trans; [|apply keeps_pause_playback]. by apply keeps_frame. }
  destruct (keeps_start_preview_from_status w1) as (w2 & -> & K2).
  rewrite bind_Return.
  pose proof (keeps_update_pip_footer w2) as K3.
  destruct (keeps_audio_start (_update_pip_footer_from_status w2)) as (w4 & -> & K4).
  rewrite bind_Return. eexists. split; [done|].
  assert (K : keeps w w4) by eauto using keeps_trans.
  destruct (menu_inv_keeps _ _ K Hinv) as (Hh & Hi & Hv & Hs & Hl & Hcol & Hg).
  split; [by apply (handle_inv_frame w4)|].
  unfold guide_inv in *. fields. rewrite Hl. done.
Qed.

Lemma close_menu_inv w : menu_inv w → menu_inv (close_menu w).
Proof. apply menu_inv_keeps, keeps_close_menu. Qed.

Lemma py_len_MENU_ITEMS : py_len MENU_ITEMS = 4.
Proof. reflexivity. Qed.

Lemma select_at_inv s w :
  0 ≤ s < py_len MENU_ITEMS → menu_inv w → menu_inv (select_at s w).
Proof.
  intros Hs (Hh & Hi & Hv & _ & _ & Hcol & Hg).
  split; [by apply (handle_inv_frame w)|]. done.
Qed.

Lemma page_step_inv d w :
  menu_inv w → ∃ w', page_step d w = Return w' ∧ menu_inv w'.
Proof.
  intros Hinv. pose proof Hinv as (_ & Hi & _). unfold page_step.
  rewrite Hi, py_mod_pos by done. rewrite bind_Return. eexists. split; [done|].
  apply (select_at_inv _ w); [|done]. by apply Z.mod_pos_bound.
Qed.

Lemma nav_up_inv w : menu_inv w → ∃ w', nav_up w = Return w' ∧ menu_inv w'.
Proof.
  intros Hinv. unfold nav_up. destruct (in_mode ModeRoot w); cbn [negb]; [|eauto].
  by apply (page_step_inv (-1)).
Qed.

Lemma nav_down_inv w : menu_inv w → ∃ w', nav_down w = Return w' ∧ menu_inv w'.
Proof.
  intros Hinv. unfold nav_down. destruct (in_mode ModeRoot w); cbn [negb]; [|eauto].
  by apply (page_step_inv 1).
Qed.

Lemma _guide_current_channel_id_returns w :
  ∃ id, _guide_current_channel_id w = Return id.
Proof.
  unfold _guide_current_channel_id.
  destruct (guide_rows (win w)) as [|c l] eqn:Hr; [eauto|].
  destruct (py_getitem_in_range (c :: l)
              (Z.max 0 (Z.min (g_sel_row (win w)) (py_len (c :: l) - 1))))
    as (x & -> & _); [|rewrite bind_Return; eauto].
  rewrite py_len_cons. pose proof (py_len_nonneg l). lia.
Qed.

(** Re-anchoring returns, keeps the helpers in order and the core of the
    window as it is. *)
Lemma anchor_row_kept b w :
  (guide_rows (win w) ≠ [] → 0 ≤ g_sel_row (win w) < py_len (guide_rows (win w))) →
  ∃ w', anchor_row b w = Return w' ∧ keeps w w'.
Proof.
  intros Hrow. unfold anchor_row.
  destruct (_guide_current_channel_id_returns w) as [id ->]. rewrite bind_Return.
  destruct id as [c|]; [|eauto using keeps_refl].
  destruct (truthy c); [|eauto using keeps_refl].
  destruct (keeps_start_preview_from_channel c w) as (w1 & -> & K1).
  rewrite bind_Return.
  pose proof (proj2 K1) as Hc. unfold core_view, cursor in Hc.
  injection Hc as _ _ _ Er Erow _ _ _.
  assert (∃ name, match guide_rows (win w1) with
                  | [] => Return ""
                  | _ :: _ => ch ← py_getitem (guide_rows (win w1)) (g_sel_row (win w1));
                              Return (ch_name ch)
                  end = Return name) as [name ->].
  { rewrite Er, Erow. destruct (guide_rows (win w)) as [|x l] eqn:E; [eauto|].
    destruct (py_getitem_in_range (x :: l) (g_sel_row (win w))) as (y & -> & _);
      [by apply Hrow|].
    rewrite bind_Return. eauto. }
  rewrite bind_Return. eexists. split; [done|].
  eapply keeps_trans; [exact K1|]. by apply keeps_frame.
Qed.

Lemma _enter_guide_mode_inv w :
  menu_inv w → ∃ w', _enter_guide_mode w = Return w' ∧ menu_inv w'.
Proof.
  intros (Hh & Hi & Hv & Hs & Hl & Hcol & Hg).
  unfold _enter_guide_mode.
  assert (∃ rows, try_except (load_channels_and_events (store (env w)) (now (env w)))
                    (λ _, Return []) = Return rows) as [rows ->].
  { unfold try_except. destruct (load_channels_and_events _ _); eauto. }
  rewrite bind_Return.
  match goal with |- ∃ w', anchor_row true ?w0 = _ ∧ _ =>
    destruct (anchor_row_kept true w0) as (w' & -> & K); [|exists w'; split; [done|];
      apply (menu_inv_keeps w0); [done|]] end.
  - fields. intros Hne. pose proof (py_len_pos rows Hne). lia.
  - split; [by apply (handle_inv_frame w)|]. unfold guide_inv. fields.
    do 5 (split; [done|]). intros Hne. pose proof (py_len_pos rows Hne).
    rewrite Hv. unfold GUIDE_MAX_ROWS. lia.
Qed.

(** A row move returns, keeps the helpers in order, and leaves the item
    list and the root cursor alone. *)
Lemma guide_page_kept o w :
  o = GPageUp ∨ o = GPageDown →
  mode (win w) = ModeGuide → guide_rows (win w) ≠ [] →
  0 ≤ g_sel_row (win w) < py_len (guide_rows (win w)) →
  ∃ w', guide_op o w = Return w' ∧ (handle_inv w → handle_inv w') ∧
    items (win w') = items (win w) ∧ sel (win w') = sel (win w) ∧
    sel_last (win w') = sel_last (win w).
Proof.
  intros Ho Hm Hne Hrow.
  destruct Ho as [-> | ->]; unfold guide_op, guide_page_up, guide_page_down;
    rewrite (in_mode_true _ _ Hm); cbn [negb];
    (destruct (guide_rows (win w)) as [|c l] eqn:Hr; [done|]);
    match goal with |- ∃ w', anchor_row false ?w0 = _ ∧ _ =>
      destruct (anchor_row_kept false w0) as (w' & -> & [Kh Kc]);
        [intros _; case_row_test; fields; rewrite Hr; lia|] end;
    exists w'; (split; [done|]);
    unfold core_view in Kc; injection Kc as Ei Es El _ _ _;
    rewrite Ei, Es, El;
    (split; [intros Hinv; apply Kh;
               match goal with |- handle_inv (if ?c then _ else _) => destruct c end;
               by apply (handle_inv_frame w)|]);
    case_row_test; done.
Qed.

Lemma guide_op_inv o w :
  menu_inv w → ∃ w', guide_op o w = Return w' ∧ menu_inv w'.
Proof.
  intros Hinv. pose proof Hinv as (Hh & Hi & Hv & Hs & Hl & Hcol & Hg).
  destruct o as [| | | |e]; [| | | |by eexists].
  all: destruct (decide (mode (win w) = ModeGuide)) as [Hm|Hm];
    [|unfold guide_op, guide_left, guide_right, guide_page_up, guide_page_down;
      rewrite (in_mode_false _ _ Hm); by eexists].
  - unfold guide_op. rewrite guide_left_spec by done. eexists. split; [done|].
    split; [by apply (handle_inv_frame w)|]. unfold guide_inv in *. fields.
    do 4 (split; [done|]). split; [lia|]. intros Hne.
    destruct (Hg Hne) as (? & ? & ? & ?). repeat split; try done; lia.
  - destruct (decide (guide_rows (win w) = [])) as [Hr|Hne].
    { unfold guide_op, guide_right. rewrite (in_mode_true _ _ Hm), Hr. by eexists. }
    destruct (Hg Hne) as (Hrow & ? & ? & ?).
    unfold guide_op. rewrite guide_right_spec by (done || lia).
    eexists. split; [done|].
    split; [by apply (handle_inv_frame w)|]. unfold guide_inv in *. fields.
    do 4 (split; [done|]). split; [lia|]. intros _. repeat split; try done; lia.
  - destruct (decide (guide_rows (win w) = [])) as [Hr|Hne].
    { unfold guide_op, guide_page_up. rewrite (in_mode_true _ _ Hm), Hr. by eexists. }
    pose proof (Hg Hne) as Hgi. pose proof Hgi as (Hrow & _).
    destruct (guide_page_kept GPageUp w) as (w' & E & Kh & Ei & Es & El);
      [by left|done|done|lia|].
    destruct (guide_op_keeps_inv (guide_rows (win w)) GUIDE_MAX_ROWS GPageUp w)
      as (w'' & E' & Hgi' & _ & Er & Ev); [done|done|done|].
    rewrite E in E'. injection E' as <-. exists w'. split; [done|].
    split; [auto|]. rewrite Ei, Es, El. do 4 (split; [done|]).
    split; [apply Hgi'|done].
  - destruct (decide (guide_rows (win w) = [])) as [Hr|Hne].
    { unfold guide_op, guide_page_down. rewrite (in_mode_true _ _ Hm), Hr. by eexists. }
    pose proof (Hg Hne) as Hgi. pose proof Hgi as (Hrow & _).
    destruct (guide_page_kept GPageDown w) as (w' & E & Kh & Ei & Es & El);
      [by right|done|done|lia|].
    destruct (guide_op_keeps_inv (guide_rows (win w)) GUIDE_MAX_ROWS GPageDown w)
      as (w'' & E' & Hgi' & _ & Er & Ev); [done|done|done|].
    rewrite E in E'. injection E' as <-. exists w'. split; [done|].
    split; [auto|]. rewrite Ei, Es, El. do 4 (split; [done|]).
    split; [apply Hgi'|done].
Qed.

Lemma nav_enter_inv w : menu_inv w → ∃ w', nav_enter w = Return w' ∧ menu_inv w'.
Proof.
  intros Hinv. pose proof Hinv as (Hh & Hi & Hv & Hs & Hl & Hcol & Hg).
  unfold nav_enter. destruct (mode (win w)).
  - set (w1 := on_win (λ m, set_sel_last (sel m) m) w).
    assert (Hinv1 : menu_inv w1).
    { split; [by apply (handle_inv_frame w)|]. done. }
    destruct (py_getitem_in_range (items (win w1)) (sel (win w1))) as (label & -> & _).
    { change (0 ≤ sel (win w) < py_len (items (win w))). by rewrite Hi. }
    rewrite bind_Return.
    destruct (String.eqb label "Live TV"); [eauto using close_menu_inv|].
    destruct (String.eqb label "TV Guide"); [by apply _enter_guide_mode_inv|].
    destruct (String.eqb label "OnDemand"); [eauto using close_menu_inv|].
    destruct (String.eqb label "Planner"); eauto using close_menu_inv.
  - destruct (_guide_current_channel_id_returns w) as [id ->]. rewrite bind_Return.
    eexists. split; [done|]. apply close_menu_inv.
    destruct id as [c|]; [|done]. destruct (truthy c); [|done].
    apply (menu_inv_keeps w); [|done]. unfold post_200. apply keeps_emit.
Qed.

Lemma list_index_range x l i : list_index x l = Some i → 0 ≤ i < py_len l.
Proof.
  revert i. induction l as [|y l IH]; intros i; [done|]. cbn [list_index].
  rewrite py_len_cons. pose proof (py_len_nonneg l).
  destruct (String.eqb y x); [intros [= <-]; lia|].
  destruct (list_index x l) as [j|]; [|done]. intros [= <-].
  specialize (IH j eq_refl). lia.
Qed.

Lemma _select_item_inv t w : menu_inv w → menu_inv (_select_item t w).2.
Proof.
  intros Hinv. pose proof Hinv as (_ & Hi & _). unfold _select_item.
  destruct t as [i|s].
  - destruct (Z.leb_spec 0 i), (Z.ltb_spec i (py_len (items (win w))));
      cbn [andb snd]; try done.
    apply select_at_inv; [|done]. rewrite <- Hi. lia.
  - destruct (list_index s (items (win w))) as [idx|] eqn:E; cbn [snd]; [|done].
    apply select_at_inv; [|done]. rewrite <- Hi. by apply (list_index_range s).
Qed.

(** A handler that returns a state satisfying the invariant, followed by
    the reply. *)
Lemma reply_inv (c : exc World) (r : Reply) :
  (∃ w', c = Return w' ∧ menu_inv w') →
  ∃ x, (w' ← c; Return (w', r)) = Return x ∧ menu_inv x.1.
Proof. intros (w' & -> & H). rewrite bind_Return. by eexists. Qed.

Lemma do_POST_inv path w :
  menu_inv w → ∃ x, do_POST path w = Return x ∧ menu_inv x.1.
Proof.
  intros Hinv. unfold do_POST.
  repeat match goal with
  | |- ∃ x, (if ?c then _ else _) = _ ∧ _ => destruct c eqn:?
  end.
  all: try (apply reply_inv).
  all: try match goal with
    | |- ∃ x, (if ?c then _ else _) = _ ∧ _ => destruct c eqn:?
    end.
  all: eauto using open_menu_inv, close_menu_inv, nav_up_inv, nav_down_inv,
         nav_enter_inv, _enter_guide_mode_inv.
  all: try (by apply (guide_op_inv GLeft)).
  all: try (by apply (guide_op_inv GRight)).
  all: try (by apply (guide_op_inv GPageUp)).
  all: try (by apply (guide_op_inv GPageDown)).
  - pose proof (_select_item_inv
                  (target_of_key (after_prefix "/menu/select/" path)) w Hinv) as H1.
    set (w1 := (_select_item _ w).2) in *. clearbody w1.
    destruct (py_getitem_in_range (items (win w1)) (sel (win w1))) as (label & -> & _).
    { destruct H1 as (_ & -> & _ & ? & _). done. }
    rewrite bind_Return. by eexists.
  - eexists. split; [done|]. by apply _select_item_inv.
  - apply nav_enter_inv. destruct (truthy _); [by apply _select_item_inv | done].
  - eexists. split; [done|].
    destruct (truthy _); [by apply _select_item_inv | done].
Qed.

Lemma keyPressEvent_inv k w :
  menu_inv w → ∃ w', keyPressEvent k w = Return w' ∧ menu_inv w'.
Proof.
  intros Hinv. unfold keyPressEvent.
  destruct k, (visible (win w)), (mode (win w)); cbn [negb];
    eauto using open_menu_inv, close_menu_inv, nav_up_inv, nav_down_inv,
      nav_enter_inv, page_step_inv.
  all: first [by apply (guide_op_inv GLeft) | by apply (guide_op_inv GRight)
             | by apply (guide_op_inv GPageUp) | by apply (guide_op_inv GPageDown)].
Qed.

Lemma step_inv c w : menu_inv w → ∃ w', step c w = Return w' ∧ menu_inv w'.
Proof.
  intros Hinv. destruct c as [path|k|e|pid]; unfold step.
  - destruct (do_POST_inv path w Hinv) as (x & -> & H). rewrite bind_Return. eauto.
  - by apply keyPressEvent_inv.
  - eexists. split; [done|]. apply (menu_inv_keeps w); [by apply keeps_frame|done].
  - eexists. split; [done|]. apply (menu_inv_keeps w); [|done].
    split; [by apply reap_inv | done].
Qed.

Lemma boot_menu_inv e p v : menu_inv (boot e p v).
Proof.
  split; [apply boot_inv|]. unfold guide_inv. cbn.
  repeat split; try done; lia.
Qed.

(** A run from a state that satisfies the invariant returns and ends in
    such a state. *)
Lemma run_keeps_menu_inv (cs : list Cmd) w :
  menu_inv w → ∃ w', run cs w = Return w' ∧ menu_inv w'.
Proof.
  apply (for_each_invariant step menu_inv (λ _, True)).
  - intros c s _. apply step_inv.
  - by apply Forall_true.
Qed.

(** What the theorems on single states assume holds in every state a run
    from start-up reaches: the item list is not empty, the visible row count
    is positive, and every running helper is held by its handle. *)
Corollary reached_states e p v (cs : list Cmd) w :
  run cs (boot e p v) = Return w →
  0 < py_len (items (win w)) ∧ 0 < g_max_visible (win w) ∧ handle_inv w ∧
  sel_last (win w) = sel (win w).
Proof.
  intros E.
  destruct (run_keeps_menu_inv cs (boot e p v) (boot_menu_inv e p v)) as (w' & E' & Hinv).
  rewrite E in E'. injection E' as <-.
  destruct Hinv as (Hh & -> & -> & _ & Hl & _). done.
Qed.

(** X1: a run from start-up that returns, that is, in which no command
    raised, ends in a state where the items are those of the constructor, the
    root cursor is an index of the item list and equals the last-selected
    index, every running helper is held by its handle, and the guide cursor
    of a non-empty snapshot satisfies [guide_inv]. *)
Theorem returned_runs_keep_menu_inv e p v (cs : list Cmd) w :
  run cs (boot e p v) = Return w → menu_inv w.
Proof.
  intros E.
  destruct (run_keeps_menu_inv cs (boot e p v) (boot_menu_inv e p v)) as (w' & E' & Hinv).
  rewrite E in E'. by injection E' as <-.
Qed.

Lemma returned_runs_keep_menu_inv_witness :
  menu_inv (world_of (run [Post "/menu/open"; Post "/menu/nav/down"; Press Key_Return]
                          (boot (sample_env (Ready sample_table) 50) "/menu.mp3" 45))
                     sample_world).
Proof.
  apply (returned_runs_keep_menu_inv (sample_env (Ready sample_table) 50) "/menu.mp3" 45
           [Post "/menu/open"; Post "/menu/nav/down"; Press Key_Return]).
  vm_compute. reflexivity.
Defined.

(** ** More on the guide snapshot *)

Lemma truthy_ne s : truthy s = true ↔ s ≠ "".
Proof.
  unfold truthy. destruct (String.eqb_spec s ""); cbn; split; congruence.
Qed.





(** A snapshot returned from a readable store lists the channels of
    [q_channels], each with the name and the events the loader builds. *)
Lemma load_channel_full_inv conn t hn ht hp id out out' :
  load_channel conn t hn ht hp id out = Return out' →
  ∃ tb, conn = COpen tb ∧
    out' = out ++ [{| ch_id := id; ch_name := display_name hn id (rows tb);
                      ch_events := guide_events ht hp t id (rows tb) |}].
Proof.
  unfold load_channel, display_name. intros H.
  apply bind_inv in H as (name & Hn & H).
  apply bind_inv in H as (ev_rows & He & H).
  apply execute_inv in He as (tb & -> & ->).
  injection H as <-. exists tb. split; [done|]. do 3 f_equal.
  destruct hn; [|by injection Hn].
  apply bind_inv in Hn as (nr & Hq & Hn).
  apply execute_inv in Hq as (tb' & [= <-] & ->). by injection Hn.
Qed.

Lemma load_channels_full_inv tb t hn ht hp ids out out' :
  for_each ids (load_channel (COpen tb) t hn ht hp) out = Return out' →
  out' = out ++ ((λ id, {| ch_id := id; ch_name := display_name hn id (rows tb);
                           ch_events := guide_events ht hp t id (rows tb) |}) <$> ids).
Proof.
  revert out. induction ids as [|id ids IH]; intros out H.
  - injection H as <-. by rewrite app_nil_r.
  - cbn [for_each] in H. apply bind_inv in H as (out1 & H1 & H).
    apply load_channel_full_inv in H1 as (tb' & [= <-] & ->).
    apply IH in H as ->. by rewrite <- app_assoc.
Qed.

Lemma load_ready_inv tb t chans :
  load_channels_and_events (Ready tb) t = Return chans →
  chans = (λ id, {| ch_id := id;
                    ch_name := display_name (has_column tb "channel_name") id (rows tb);
                    ch_events := guide_events (has_column tb "title")
                                   (has_column tb "path") t id (rows tb) |})
          <$> q_channels (rows tb).
Proof.
  unfold load_channels_and_events. cbn [db_exists negb sqlite3_connect].
  rewrite bind_Return. intros H. apply bind_inv in H as (ids & He & H).
  apply execute_inv in He as (tb' & [= <-] & ->).
  by apply load_channels_full_inv in H as ->.
Qed.

Lemma load_ready_ids tb t chans :
  load_channels_and_events (Ready tb) t = Return chans →
  ch_id <$> chans = q_channels (rows tb).
Proof.
  intros ->%load_ready_inv. rewrite <- list_fmap_compose.
  induction (q_channels (rows tb)) as [|x l IH]; [done|]. csimpl. by rewrite IH.
Qed.

(** X3: with the key columns in the table, the snapshot has exactly one row
    per channel identifier of the store: the identifiers of its rows are
    pairwise distinct, and an identifier is listed if and only if some
    stored row carries it (also when all events of that channel are over). *)
Theorem snapshot_one_row_per_channel (tb : Table) (t : Z) :
  key_columns tb = true →
  ∃ chans, load_channels_and_events (Ready tb) t = Return chans ∧
    NoDup (ch_id <$> chans) ∧
    ∀ id, id ∈ ch_id <$> chans ↔ ∃ r, r ∈ rows tb ∧ channel_id r = id.
Proof.
  intros Hk. destruct (load_channels_and_events_ready tb t Hk) as [chans Hl].
  exists chans. split; [done|].
  assert (Hids : ch_id <$> chans ≡ₚ remove_dups (channel_id <$> rows tb)).
  { rewrite (load_ready_ids _ _ _ Hl). apply order_by_asc_perm. }
  split.
  - rewrite Hids. apply NoDup_remove_dups.
  - intros id. rewrite Hids, elem_of_remove_dups, list_elem_of_fmap.
    split; intros (r & H1 & H2); exists r; by split.
Qed.

Lemma snapshot_one_row_per_channel_witness :
  ∃ chans, load_channels_and_events (Ready sample_table) 5000 = Return chans ∧
    NoDup (ch_id <$> chans) ∧
    ∀ id, id ∈ ch_id <$> chans ↔ ∃ r, r ∈ rows sample_table ∧ channel_id r = id.
Proof. apply (snapshot_one_row_per_channel sample_table 5000). reflexivity. Defined.



(** ** The current, the next and the resolved row *)

(** The first row of [ORDER BY key ASC] over the rows that pass [p]: a row
    that passes and has the least key, and none only when no row passes. *)
Lemma first_by_asc {A} (key : A → Z) (p : A → bool) (rs : list A) :
  match fetchone (limit 1 (order_by_asc key (List.filter p rs))) with
  | Some r => r ∈ rs ∧ p r = true ∧ ∀ x, x ∈ rs → p x = true → key r ≤ key x
  | None => ∀ x, x ∈ rs → p x = false
  end.
Proof.
  pose proof (order_by_asc_sorted key (List.filter p rs)) as HS.
  pose proof (order_by_asc_perm key (List.filter p rs)) as HP.
  destruct (order_by_asc key (List.filter p rs)) as [|r l]; cbn.
  - intros x Hx. destruct (p x) eqn:E; [|done].
    assert (x ∈ List.filter p rs) as Hin by by apply elem_of_List_filter.
    rewrite <- HP in Hin. by apply elem_of_nil in Hin.
  - assert (r ∈ List.filter p rs) as [Hr Hp]%elem_of_List_filter
      by (rewrite <- HP; apply list_elem_of_here).
    split; [done|]. split; [done|]. intros x Hx Hpx.
    assert (x ∈ r :: l) as Hin by (rewrite HP; by apply elem_of_List_filter).
    apply StronglySorted_cons in HS as [HF _]. rewrite Forall_forall in HF.
    apply elem_of_cons in Hin as [->|Hin]; [lia | by apply HF].
Qed.

Lemma first_by_desc {A} (key : A → Z) (p : A → bool) (rs : list A) :
  match fetchone (limit 1 (order_by_desc key (List.filter p rs))) with
  | Some r => r ∈ rs ∧ p r = true ∧ ∀ x, x ∈ rs → p x = true → key x ≤ key r
  | None => ∀ x, x ∈ rs → p x = false
  end.
Proof.
  pose proof (first_by_asc (λ a, - key a) p rs) as H.
  change (order_by_asc (λ a, - key a)) with (order_by_desc key) in H.
  destruct (fetchone _) as [r|]; [|done].
  destruct H as (? & ? & H). repeat split; try done.
  intros x Hx Hp. specialize (H x Hx Hp). lia.
Qed.

(** X5: with the key columns in the table the overlay's query returns; its
    now row is a row of the channel on air at [now] with the greatest start
    among those, its next row a row of the channel with the least start
    after [now]; either is missing only when the store has no such row. *)
Theorem now_next_nearest (tb : Table) (cid : string) (t : Z) :
  key_columns tb = true →
  ∃ now_row next_row,
    schedule_now_next (COpen tb) cid t = Return (now_row, next_row) ∧
    match now_row with
    | Some r => r ∈ rows tb ∧ channel_id r = cid ∧ start_utc r ≤ t < end_utc r ∧
        ∀ x, x ∈ rows tb → channel_id x = cid → start_utc x ≤ t < end_utc x →
             start_utc x ≤ start_utc r
    | None => ∀ x, x ∈ rows tb → channel_id x = cid → ¬ (start_utc x ≤ t < end_utc x)
    end ∧
    match next_row with
    | Some r => r ∈ rows tb ∧ channel_id r = cid ∧ t < start_utc r ∧
        ∀ x, x ∈ rows tb → channel_id x = cid → t < start_utc x →
             start_utc r ≤ start_utc x
    | None => ∀ x, x ∈ rows tb → channel_id x = cid → start_utc x ≤ t
    end.
Proof.
  intros Hk. rewrite (schedule_now_next_ready tb cid t Hk).
  eexists _, _. split; [done|]. split.
  - unfold q_current.
    pose proof (first_by_desc start_utc
      (λ r, String.eqb (channel_id r) cid && (start_utc r <=? t) && (t <? end_utc r))
      (rows tb)) as H.
    destruct (fetchone _) as [r|].
    + destruct H as (Hr & Hp & Hmax).
      apply andb_prop in Hp as [Hp He]. apply andb_prop in Hp as [Hc Hs].
      apply String.eqb_eq in Hc. apply Z.leb_le in Hs. apply Z.ltb_lt in He.
      repeat split; try done. intros x Hx Hcx [Hsx Hex]. apply Hmax; [done|].
      rewrite (proj2 (String.eqb_eq _ _) Hcx), (proj2 (Z.leb_le _ _) Hsx).
      by apply Z.ltb_lt.
    + intros x Hx Hcx [Hsx Hex]. specialize (H x Hx).
      rewrite (proj2 (String.eqb_eq _ _) Hcx), (proj2 (Z.leb_le _ _) Hsx),
        (proj2 (Z.ltb_lt _ _) Hex) in H. done.
  - unfold q_next.
    pose proof (first_by_asc start_utc
      (λ r, String.eqb (channel_id r) cid && (t <? start_utc r)) (rows tb)) as H.
    destruct (fetchone _) as [r|].
    + destruct H as (Hr & Hp & Hmin). apply andb_prop in Hp as [Hc Hs].
      apply String.eqb_eq in Hc. apply Z.ltb_lt in Hs.
      repeat split; try done. intros x Hx Hcx Hsx. apply Hmin; [done|].
      rewrite (proj2 (String.eqb_eq _ _) Hcx). by apply Z.ltb_lt.
    + intros x Hx Hcx. specialize (H x Hx).
      rewrite (proj2 (String.eqb_eq _ _) Hcx) in H. cbn in H.
      by apply Z.ltb_ge in H.
Qed.

Lemma now_next_nearest_witness :
  ∃ now_row next_row,
    schedule_now_next (COpen sample_table) "1" 150 = Return (now_row, next_row) ∧
    match now_row with
    | Some r => r ∈ rows sample_table ∧ channel_id r = "1" ∧
        start_utc r ≤ 150 < end_utc r ∧
        ∀ x, x ∈ rows sample_table → channel_id x = "1" →
             start_utc x ≤ 150 < end_utc x → start_utc x ≤ start_utc r
    | None => ∀ x, x ∈ rows sample_table → channel_id x = "1" →
                   ¬ (start_utc x ≤ 150 < end_utc x)
    end ∧
    match next_row with
    | Some r => r ∈ rows sample_table ∧ channel_id r = "1" ∧ 150 < start_utc r ∧
        ∀ x, x ∈ rows sample_table → channel_id x = "1" → 150 < start_utc x →
             start_utc r ≤ start_utc x
    | None => ∀ x, x ∈ rows sample_table → channel_id x = "1" → start_utc x ≤ 150
    end.
Proof. apply (now_next_nearest sample_table "1" 150). reflexivity. Defined.

Lemma float_of_int_small n : Z.abs n < 2 ^ 53 → float_of_int n = Return n.
Proof.
  intros Hn. unfold float_of_int.
  assert ((Z.log2 (Z.abs n) <? 53) = true) as ->; [|done].
  apply Z.ltb_lt. destruct (Z.eq_dec (Z.abs n) 0) as [->|Hz]; [done|].
  apply Z.log2_lt_pow2; lia.
Qed.

Lemma float_of_int_nonneg n off :
  0 ≤ n → float_of_int n = Return off → 0 ≤ off.
Proof.
  intros Hn. unfold float_of_int.
  destruct (Z.log2 (Z.abs n) <? 53); [by intros [= <-]|].
  destruct (2 ^ 1024 <=? _); [done|]. intros [= <-].
  apply Z.mul_nonneg_nonneg; [lia|]. apply Z.shiftl_nonneg.
  assert (0 ≤ Z.shiftr (Z.abs n) (Z.log2 (Z.abs n) - 52))
    by (apply Z.shiftr_nonneg; lia).
  destruct (_ || _); lia.
Qed.

Lemma resolve_inv s t ch r :
  resolve_now_path_and_offset s t ch = Return (Some r) →
  ∃ tb row, s = Ready tb ∧ fetchone (q_current ch t (rows tb)) = Some row ∧
    path row = Some r.1 ∧ r.1 ≠ "" ∧
    float_of_int (Z.max 0 (t - start_utc row)) = Return r.2.
Proof.
  unfold resolve_now_path_and_offset, try_except.
  destruct (resolve_try s t ch) as [res|e] eqn:E; [|done]. intros [= ->].
  unfold resolve_try in E.
  destruct s as [| | |tb]; cbn [db_exists negb sqlite3_connect] in E; try done.
  rewrite bind_Return in E. apply bind_inv in E as (row & Hq & E).
  apply execute_inv in Hq as (tb' & [= <-] & ->).
  destruct (fetchone _) as [row|] eqn:Hrow; [|done].
  destruct (path row) as [p|] eqn:Hp; [|done].
  destruct (truthy p) eqn:Ht; cbn [negb] in E; [|done].
  apply bind_inv in E as (off & Hf & [= <-]).
  exists tb, row. cbn. repeat split; try done.
  by apply truthy_ne.
Qed.

Lemma resolve_row_on_air (s : Store) (t : Z) (ch p : string) (off : Z) :
  resolve_now_path_and_offset s t ch = Return (Some (p, off)) →
  ∃ tb r, s = Ready tb ∧ r ∈ rows tb ∧ channel_id r = ch ∧
    start_utc r ≤ t < end_utc r ∧ path r = Some p ∧ p ≠ "" ∧
    float_of_int (t - start_utc r) = Return off ∧ 0 ≤ off ∧
    (t - start_utc r < 2 ^ 53 → off = t - start_utc r) ∧
    ∀ x, x ∈ rows tb → channel_id x = ch → start_utc x ≤ t < end_utc x →
         start_utc x ≤ start_utc r.
Proof.
  intros (tb & r & -> & Hr & Hp & Hne & Hoff)%resolve_inv. cbn [fst snd] in *.
  exists tb, r. split; [done|].
  pose proof (first_by_desc start_utc
    (λ r, String.eqb (channel_id r) ch && (start_utc r <=? t) && (t <? end_utc r))
    (rows tb)) as H.
  unfold q_current in Hr. rewrite Hr in H. destruct H as (Hin & Hpr & Hmax).
  apply andb_prop in Hpr as [Hpr He]. apply andb_prop in Hpr as [Hc Hs].
  apply String.eqb_eq in Hc. apply Z.leb_le in Hs. apply Z.ltb_lt in He.
  replace (Z.max 0 (t - start_utc r)) with (t - start_utc r) in Hoff by lia.
  do 5 (split; [done|]). split; [done|].
  split; [by apply (float_of_int_nonneg (t - start_utc r)); [lia|]|].
  split.
  - intros Hb. rewrite float_of_int_small in Hoff by lia. congruence.
  - intros x Hx Hcx [Hsx Hex]. apply Hmax; [done|].
    rewrite (proj2 (String.eqb_eq _ _) Hcx), (proj2 (Z.leb_le _ _) Hsx).
    by apply Z.ltb_lt.
Qed.

(** X6: what [resolve_now_path_and_offset] returns is read off a row of the
    channel that is on air at [now] and has the greatest start among those:
    the path is that row's non-empty path, and the offset is [float] of the
    number of seconds since its start, the nearest double; it is not
    negative, and it is exactly that number when it is below [2^53]. *)
Theorem resolve_current_row (s : Store) (t : Z) (ch p : string) (off : Z) :
  resolve_now_path_and_offset s t ch = Return (Some (p, off)) →
  ∃ tb r, s = Ready tb ∧ r ∈ rows tb ∧ channel_id r = ch ∧
    start_utc r ≤ t < end_utc r ∧ path r = Some p ∧ p ≠ "" ∧
    float_of_int (t - start_utc r) = Return off ∧ 0 ≤ off ∧
    (t - start_utc r < 2 ^ 53 → off = t - start_utc r) ∧
    ∀ x, x ∈ rows tb → channel_id x = ch → start_utc x ≤ t < end_utc x →
         start_utc x ≤ start_utc r.
Proof. apply resolve_row_on_air. Qed.

Lemma resolve_current_row_witness :
  resolve_now_path_and_offset (Ready sample_table) 150 "1"
  = Return (Some ("/media/1.mkv", 50)) ∧
  ∃ tb r, Ready sample_table = Ready tb ∧ r ∈ rows tb ∧ channel_id r = "1" ∧
    start_utc r ≤ 150 < end_utc r ∧ path r = Some "/media/1.mkv" ∧
    "/media/1.mkv" ≠ "" ∧ float_of_int (150 - start_utc r) = Return 50 ∧ 0 ≤ 50 ∧
    (150 - start_utc r < 2 ^ 53 → 50 = 150 - start_utc r) ∧
    ∀ x, x ∈ rows tb → channel_id x = "1" → start_utc x ≤ 150 < end_utc x →
         start_utc x ≤ start_utc r.
Proof.
  split; [vm_compute; reflexivity|].
  apply (resolve_current_row (Ready sample_table) 150 "1" "/media/1.mkv" 50).
  vm_compute. reflexivity.
Defined.

Lemma q_current_running ch t rs :
  q_current ch t rs = limit 1 (order_by_desc start_utc (running_rows ch t rs)).
Proof.
  unfold q_current, running_rows, running. do 2 f_equal.
  apply List.filter_ext. intros r. by rewrite andb_assoc.
Qed.

(** X7: when the table has the columns the statement names and exactly one
    row of the channel is on air at [now], with a non-empty path and a start
    less than [2^53] seconds ago, the resolver returns that path and the
    seconds elapsed since the row's start. *)
Theorem resolve_single_running (tb : Table) (t : Z) (ch : string) (r : Row) (p : string) :
  forallb (has_column tb) q_current_cols = true →
  running_rows ch t (rows tb) = [r] → path r = Some p → p ≠ "" →
  t - start_utc r < 2 ^ 53 →
  resolve_now_path_and_offset (Ready tb) t ch = Return (Some (p, t - start_utc r)).
Proof.
  intros Hcols Hone Hp Hne Hb.
  assert (Hq : q_current ch t (rows tb) = [r]).
  { rewrite q_current_running, Hone. unfold limit.
    assert (order_by_desc start_utc [r] = [r]) as ->; [|done].
    apply Permutation_singleton_r, order_by_desc_perm. }
  assert (Hrun : running t r = true).
  { assert (r ∈ running_rows ch t (rows tb)) as Hin by (rewrite Hone; constructor).
    apply elem_of_List_filter in Hin as [_ H]. by apply andb_prop in H as [_ ?]. }
  unfold running in Hrun. apply andb_prop in Hrun as [Hs _]. apply Z.leb_le in Hs.
  unfold resolve_now_path_and_offset, try_except, resolve_try.
  cbn [db_exists negb sqlite3_connect]. rewrite bind_Return.
  rewrite execute_open by done. rewrite bind_Return, Hq. cbn [fetchone head].
  rewrite Hp. apply truthy_ne in Hne. rewrite Hne. cbn [negb].
  replace (Z.max 0 (t - start_utc r)) with (t - start_utc r) by lia.
  rewrite float_of_int_small by lia. done.
Qed.

Lemma resolve_single_running_witness :
  resolve_now_path_and_offset (Ready sample_table) 150 "1"
  = Return (Some ("/media/1.mkv", 150 - 100)).
Proof.
  apply (resolve_single_running sample_table 150 "1" (sample_row "1" 100 200)
           "/media/1.mkv");
    [reflexivity | reflexivity | reflexivity | discriminate | reflexivity].
Defined.


(** ** Opening, closing and toggling *)

Lemma helpers_only_refl w : helpers_only w w.
Proof.
  exists (preview (win w)), (menu_audio (win w)), (pip_footer (win w)).
  by destruct (win w).
Qed.

Lemma helpers_only_trans w1 w2 w3 :
  helpers_only w1 w2 → helpers_only w2 w3 → helpers_only w1 w3.
Proof.
  intros (x & a & f & H1) (x' & a' & f' & H2). exists x', a', f'.
  by rewrite H2, H1.
Qed.

Lemma helpers_only_win w w' m :
  win w = m → (∃ x a f, win w' = set_pip_footer f (set_menu_audio a (set_preview x m))) →
  helpers_only w w'.
Proof. intros <-. done. Qed.

Lemma helpers_only_same_win w w' : win w' = win w → helpers_only w w'.
Proof.
  intros H. destruct (helpers_only_refl w) as (x & a & f & E).
  exists x, a, f. congruence.
Qed.

Lemma helpers_only_preview w w' : preview_only w w' → helpers_only w w'.
Proof.
  intros (_ & x & H). exists x, (menu_audio (win w)), (pip_footer (win w)).
  by rewrite H.
Qed.

Lemma helpers_only_stop_preview w : helpers_only w (stop_preview w).
Proof. apply helpers_only_preview, stop_preview_only. Qed.

Lemma helpers_only_audio_stop w : helpers_only w (audio_stop w).
Proof.
  exists (preview (win w)), (set_a_proc None (menu_audio (win w))), (pip_footer (win w)).
  unfold audio_stop. cbn. by rewrite win_terminate_wait_kill.
Qed.

Lemma helpers_only_audio_start w :
  ∃ w', audio_start w = Return w' ∧ helpers_only w w'.
Proof.
  unfold audio_start. destruct (file_exists _ _); cbn [negb];
    [|eauto using helpers_only_refl].
  pose proof (helpers_only_audio_stop w) as H.
  set (w1 := audio_stop w) in *. clearbody w1.
  unfold try_except, Popen. destruct (popen_ok _ _); [rewrite bind_Return|];
    eexists; (split; [done|]); (eapply helpers_only_trans; [exact H|]);
    eexists (preview (win w1)), _, (pip_footer (win w1)); done.
Qed.

Lemma helpers_only_start_preview_from_status w :
  ∃ w', _start_preview_from_status w = Return w' ∧ helpers_only w w'.
Proof.
  unfold _start_preview_from_status, get_status. cbn [fst snd].
  destruct (status (env w)) as [st|];
    [|eexists; split; [done|]; by apply helpers_only_same_win].
  destruct (s_channel st) as [ch|];
    [|eexists; split; [done|]; by apply helpers_only_same_win].
  destruct (_start_preview_from_channel_only (jstr ch)
              (emit (HttpGet (player_url "/status")) w)) as (w' & E & Hpo).
  exists w'. split; [done|]. apply helpers_only_preview in Hpo.
  eapply helpers_only_trans; [|exact Hpo]. by apply helpers_only_same_win.
Qed.

Lemma win_pause_playback w : win (_pause_playback w) = win w.
Proof.
  unfold _pause_playback, post_200, mpv_pause_on. cbn [fst snd].
  by destruct (_ && _).
Qed.

Lemma open_menu_view (w : World) :
  ∃ w', open_menu w = Return w' ∧
    visible (win w') = true ∧ mode (win w') = ModeRoot ∧
    sel (win w') = sel_last (win w) ∧ sel_last (win w') = sel_last (win w) ∧
    items (win w') = items (win w) ∧ guide_rows (win w') = guide_rows (win w) ∧
    cursor w' = cursor w.
Proof.
  unfold open_menu.
  set (w1 := _pause_playback (on_win (set_visible true) w)).
  assert (H1 : win w1 = set_visible true (win w)) by apply win_pause_playback.
  destruct (helpers_only_start_preview_from_status w1) as (w2 & -> & H2).
  rewrite bind_Return.
  assert (H3 : helpers_only w2 (_update_pip_footer_from_status w2)).
  { eexists (preview (win w2)), (menu_audio (win w2)), _.
    unfold _update_pip_footer_from_status. cbn. reflexivity. }
  destruct (helpers_only_audio_start (_update_pip_footer_from_status w2))
    as (w4 & -> & H4).
  rewrite bind_Return. eexists. split; [done|].
  destruct (helpers_only_trans _ _ _ (helpers_only_trans _ _ _ H2 H3) H4)
    as (x & a & f & E).
  unfold cursor. fields. rewrite E, H1. done.
Qed.

(** X9: when [open_menu] returns, the menu is visible and in root mode, the
    root cursor is the last-selected index, and the item list and the guide
    snapshot and cursor are untouched. *)
Theorem open_menu_restores_selection (w w' : World) :
  open_menu w = Return w' →
  visible (win w') = true ∧ mode (win w') = ModeRoot ∧
  sel (win w') = sel_last (win w) ∧ sel_last (win w') = sel_last (win w) ∧
  items (win w') = items (win w) ∧ guide_rows (win w') = guide_rows (win w) ∧
  cursor w' = cursor w.
Proof.
  intros E. destruct (open_menu_view w) as (w1 & E1 & H).
  rewrite E in E1. by injection E1 as <-.
Qed.

Lemma open_menu_restores_selection_witness :
  ∃ w', open_menu (select_at 2 sample_world) = Return w' ∧
    visible (win w') = true ∧ mode (win w') = ModeRoot ∧
    sel (win w') = sel_last (win (select_at 2 sample_world)) ∧
    sel_last (win (select_at 2 sample_world)) = 2.
Proof.
  destruct (open_menu_view (select_at 2 sample_world)) as (w' & E & _).
  exists w'. split; [exact E|].
  destruct (open_menu_restores_selection (select_at 2 sample_world) w' E)
    as (Hv & Hm & Hs & _).
  split; [exact Hv|]. split; [exact Hm|]. split; [exact Hs | reflexivity].
Defined.

(** X10: closing and re-opening keeps the selection: [close_menu] hides the
    window without touching the root cursor, the last-selected index, the
    mode or the guide snapshot, and when the next [open_menu] returns, the
    menu is visible with the cursor on the last-selected index. *)
Theorem selection_survives_close_open (w : World) :
  visible (win (close_menu w)) = false ∧
  sel (win (close_menu w)) = sel (win w) ∧
  sel_last (win (close_menu w)) = sel_last (win w) ∧
  mode (win (close_menu w)) = mode (win w) ∧
  guide_rows (win (close_menu w)) = guide_rows (win w) ∧
  ∀ w', open_menu (close_menu w) = Return w' →
    visible (win w') = true ∧ sel (win w') = sel_last (win w).
Proof.
  destruct (close_menu_procs w) as [_ Hw].
  destruct (helpers_only_trans _ _ _ (helpers_only_audio_stop w)
              (helpers_only_stop_preview (audio_stop w))) as (x & a & f & E).
  rewrite Hw, E. do 5 (split; [done|]). intros w' Ho.
  destruct (open_menu_view (close_menu w)) as (w1 & Ho1 & Hv & _ & Hs & _).
  rewrite Ho in Ho1. injection Ho1 as <-.
  split; [done|]. by rewrite Hs, Hw, E.
Qed.

(** ** The command surface *)

(** X11: while the menu is hidden, every remote command other than open,
    close and toggle is answered with "ignored" and changes nothing, and
    every key other than Escape and Home is dropped. *)
Theorem hidden_menu_ignores (path : string) (w : World) :
  visible (win w) = false →
  path ≠ "/menu/open" → path ≠ "/menu/close" → path ≠ "/menu/toggle" →
  do_POST path w = Return (w, RIgnored) ∧
  ∀ k, k ≠ Key_Escape → k ≠ Key_Home → keyPressEvent k w = Return w.
Proof.
  intros Hv H1 H2 H3. split.
  - unfold do_POST.
    apply String.eqb_neq in H1 as ->. apply String.eqb_neq in H2 as ->.
    apply String.eqb_neq in H3 as ->. by rewrite Hv.
  - intros k Hk1 Hk2. unfold keyPressEvent. rewrite Hv. by destruct k.
Qed.

Lemma hidden_menu_ignores_witness :
  visible (win sample_world) = false ∧
  do_POST "/menu/nav/up" sample_world = Return (sample_world, RIgnored) ∧
  ∀ k, k ≠ Key_Escape → k ≠ Key_Home → keyPressEvent k sample_world = Return sample_world.
Proof.
  split; [reflexivity|].
  apply (hidden_menu_ignores "/menu/nav/up" sample_world); [reflexivity|done..].
Defined.



Lemma list_index_spec x l i :
  list_index x l = Some i →
  0 ≤ i ∧ l !! Z.to_nat i = Some x ∧ ∀ j, (j < Z.to_nat i)%nat → l !! j ≠ Some x.
Proof.
  revert i. induction l as [|y l IH]; intros i; [done|]. cbn [list_index].
  destruct (String.eqb y x) eqn:E.
  - intros [= <-]. apply String.eqb_eq in E as ->.
    split; [lia|]. split; [done|]. intros j Hj. cbn in Hj. lia.
  - destruct (list_index x l) as [i'|]; [|done]. intros [= <-].
    destruct (IH i' eq_refl) as (Hi & Hl & Hf).
    apply String.eqb_neq in E.
    replace (Z.to_nat (Z.succ i')) with (S (Z.to_nat i')) by lia.
    split; [lia|]. split; [done|].
    intros [|j] Hj; [cbn; congruence|]. cbn. apply Hf. lia.
Qed.

Lemma list_index_None x l : list_index x l = None ↔ x ∉ l.
Proof.
  induction l as [|y l IH]; cbn [list_index].
  - split; [intros _; apply not_elem_of_nil|done].
  - rewrite not_elem_of_cons. destruct (String.eqb y x) eqn:E.
    + apply String.eqb_eq in E as ->. split; [done|]. by intros [? _].
    + apply String.eqb_neq in E. destruct (list_index x l); cbn.
      * split; [done|]. intros [_ H]. by apply IH in H.
      * split; [|done]. intros _. split; [congruence|]. by apply IH.
Qed.

(** X13: [_select_item] accepts an integer exactly when it is an index of
    the item list (negative indices are refused) and a label exactly when it
    is an item; on success the cursor and the last-selected index are set to
    that index, for a label the first position that holds it, and nothing
    else changes; on failure the state is untouched. *)
Theorem _select_item_spec (target : Target) (w : World) :
  ((_select_item target w).1 = true ↔
     match target with
     | TInt i => 0 ≤ i < py_len (items (win w))
     | TStr s => s ∈ items (win w)
     end) ∧
  ((_select_item target w).1 = false → (_select_item target w).2 = w) ∧
  ((_select_item target w).1 = true →
     ∃ i, 0 ≤ i < py_len (items (win w)) ∧
       (_select_item target w).2 = select_at i w ∧
       match target with
       | TInt j => i = j
       | TStr s => items (win w) !! Z.to_nat i = Some s ∧
                   ∀ j, (j < Z.to_nat i)%nat → items (win w) !! j ≠ Some s
       end).
Proof.
  destruct target as [i|s]; cbn [_select_item].
  - destruct ((0 <=? i) && (i <? py_len (items (win w)))) eqn:E; cbn [fst snd].
    + apply andb_true_iff in E as [E1 E2].
      apply Z.leb_le in E1. apply Z.ltb_lt in E2.
      split; [done|]. split; [done|]. intros _. by exists i.
    + split; [|done]. split; [done|]. intros [H1 H2].
      apply Z.leb_le in H1. apply Z.ltb_lt in H2. by rewrite H1, H2 in E.
  - destruct (list_index s (items (win w))) as [i|] eqn:E; cbn [fst snd].
    + destruct (list_index_spec _ _ _ E) as (Hi & Hl & Hf).
      pose proof (list_index_range _ _ _ E) as Hr.
      split; [|split; [done|]].
      * split; [|done]. intros _. by eapply list_elem_of_lookup_2.
      * intros _. by exists i.
    + split; [|done]. split; [done|]. intros H. by apply list_index_None in E.
Qed.

Lemma on_win_same_sel_last w :
  sel_last (win w) = sel (win w) → on_win (λ m, set_sel_last (sel m) m) w = w.
Proof. destruct w as [e ps log m]. destruct m. cbn. by intros ->. Qed.

(** X14: in root mode of a running menu, Enter opens the guide when the
    cursor is on the second item ("TV Guide") and closes the menu on each of
    the other three. *)
Theorem nav_enter_root_dispatch (w : World) :
  menu_inv w → mode (win w) = ModeRoot →
  nav_enter w = if sel (win w) =? 1 then _enter_guide_mode w
                else Return (close_menu w).
Proof.
  intros (_ & Hi & _ & Hs & Hl & _) Hm. unfold nav_enter. rewrite Hm.
  rewrite (on_win_same_sel_last w Hl), Hi.
  rewrite py_len_MENU_ITEMS in Hs.
  assert (sel (win w) = 0 ∨ sel (win w) = 1 ∨ sel (win w) = 2 ∨ sel (win w) = 3)
    as [-> | [-> | [-> | ->]]] by lia; reflexivity.
Qed.

Lemma nav_enter_root_dispatch_witness :
  mode (win sample_world) = ModeRoot ∧
  nav_enter sample_world = Return (close_menu sample_world).
Proof.
  split; [reflexivity|].
  exact (nav_enter_root_dispatch sample_world (boot_menu_inv _ _ _) eq_refl).
Defined.



Lemma step_post_ok (c : exc World) :
  (r ← (w ← c; Return (w, ROk)); Return r.1) = c.
Proof. by destruct c. Qed.

(** X16: in guide mode of a visible menu the remote commands left, right,
    pageup, pagedown and enter do what the keys Left, Right, PageUp,
    PageDown and Return do, and the keys Up and Down move the row like
    PageUp and PageDown; the remote commands up and down, which are root
    navigation, change nothing. *)
Theorem guide_commands_and_keys (w : World) :
  visible (win w) = true → mode (win w) = ModeGuide →
  step (Post "/menu/nav/left") w = step (Press Key_Left) w ∧
  step (Post "/menu/nav/right") w = step (Press Key_Right) w ∧
  step (Post "/menu/nav/pageup") w = step (Press Key_PageUp) w ∧
  step (Post "/menu/nav/pagedown") w = step (Press Key_PageDown) w ∧
  step (Post "/menu/enter") w = step (Press Key_Return) w ∧
  step (Press Key_Up) w = guide_page_up w ∧
  step (Press Key_Down) w = guide_page_down w ∧
  step (Post "/menu/nav/up") w = Return w ∧
  step (Post "/menu/nav/down") w = Return w.
Proof.
  intros Hv Hm. unfold step, do_POST, keyPressEvent.
  cbn [String.eqb Ascii.eqb Bool.eqb existsb orb]. rewrite Hv, Hm.
  cbn [negb]. rewrite (in_mode_true _ _ Hm), !step_post_ok.
  do 7 (split; [reflexivity|]).
  unfold nav_up, nav_down. rewrite in_mode_false by (rewrite Hm; done).
  done.
Qed.

Lemma guide_commands_and_keys_witness :
  let w := on_win (set_visible true) sample_guide in
  step (Post "/menu/nav/up") w = Return w ∧
  step (Press Key_Up) w = guide_page_up w.
Proof.
  intros w.
  destruct (guide_commands_and_keys w eq_refl eq_refl)
    as (_ & _ & _ & _ & _ & H1 & _ & H2 & _).
  split; [exact H2 | exact H1].
Defined.

(** ** Repeated guide moves *)

(** Equality of tuples, component by component. *)
Ltac tuple_eq := repeat (apply (f_equal2 pair)); try done; try lia.

Lemma guide_state_fields w m rs r c o v :
  guide_state w = (m, rs, (r, c, o), v) →
  mode (win w) = m ∧ guide_rows (win w) = rs ∧ g_sel_row (win w) = r ∧
  g_sel_col (win w) = c ∧ g_row_offset (win w) = o ∧ g_max_visible (win w) = v.
Proof. unfold guide_state, cursor. intros [= ? ? ? ? ? ?]. done. Qed.

Lemma press_guide_left n : ∀ w,
  mode (win w) = ModeGuide → 0 ≤ g_sel_col (win w) →
  ∃ w', press n guide_left w = Return w' ∧
    guide_state w' = (ModeGuide, guide_rows (win w),
                      (g_sel_row (win w), Z.max 0 (g_sel_col (win w) - Z.of_nat n),
                       g_row_offset (win w)), g_max_visible (win w)) ∧
    sent w' = sent w ∧ procs w' = procs w.
Proof.
  induction n as [|n IH]; intros w Hm Hc.
  - exists w. split; [done|]. split; [|done]. unfold guide_state, cursor.
    rewrite Hm. tuple_eq.
  - change (press (S n) guide_left w) with (w' ← guide_left w; press n guide_left w').
    rewrite guide_left_spec, bind_Return by done.
    destruct (IH (on_win (λ m, set_g_sel_col (Z.max 0 (g_sel_col m - 1)) m) w))
      as (w' & E & Hg & Hs & Hp); [done | fields; lia |].
    exists w'. split; [done|]. split; [|done]. rewrite Hg. fields.
    tuple_eq.
Qed.

Lemma press_guide_right n : ∀ w,
  mode (win w) = ModeGuide → guide_rows (win w) ≠ [] →
  0 ≤ g_sel_row (win w) < py_len (guide_rows (win w)) →
  ∃ w', press (S n) guide_right w = Return w' ∧
    guide_state w' = (ModeGuide, guide_rows (win w),
                      (g_sel_row (win w),
                       Z.min (Z.max 0 (py_len (current_row_events w) - 1))
                             (g_sel_col (win w) + Z.of_nat (S n)),
                       g_row_offset (win w)), g_max_visible (win w)) ∧
    sent w' = sent w ∧ procs w' = procs w.
Proof.
  induction n as [|n IH]; intros w Hm Hne Hrow.
  - change (press 1 guide_right w) with (w' ← guide_right w; Return w').
    rewrite guide_right_spec, bind_Return by done.
    eexists. split; [done|]. split; [|done]. unfold guide_state, cursor. fields.
    by rewrite Hm.
  - change (press (S (S n)) guide_right w)
      with (w' ← guide_right w; press (S n) guide_right w').
    rewrite guide_right_spec, bind_Return by done.
    set (w1 := on_win (set_g_sel_col _) w).
    destruct (IH w1) as (w' & E & Hg & Hs & Hp); [done..|].
    exists w'. split; [done|]. split; [|done]. rewrite Hg.
    change (current_row_events w1) with (current_row_events w).
    unfold w1. fields. tuple_eq.
Qed.

(** X17: the column cursor saturates.  In guide mode [n + 1] presses of
    left put the column at [max 0 (col - (n + 1))]; on a non-empty guide
    [n + 1] presses of right put it at [min (max 0 (events - 1)) (col + n + 1)],
    where [events] counts the events of the current row, so that it then
    points at an event of the row if the row has any.  Neither sends
    anything, touches a process, or moves the row or the offset. *)
Theorem guide_column_saturates (w : World) (n : nat) :
  mode (win w) = ModeGuide →
  (∃ w', press (S n) guide_left w = Return w' ∧
     guide_state w' = (ModeGuide, guide_rows (win w),
                       (g_sel_row (win w),
                        Z.max 0 (g_sel_col (win w) - Z.of_nat (S n)),
                        g_row_offset (win w)), g_max_visible (win w)) ∧
     sent w' = sent w ∧ procs w' = procs w) ∧
  (guide_rows (win w) ≠ [] →
   0 ≤ g_sel_row (win w) < py_len (guide_rows (win w)) →
   ∃ w', press (S n) guide_right w = Return w' ∧
     guide_state w' = (ModeGuide, guide_rows (win w),
                       (g_sel_row (win w),
                        Z.min (Z.max 0 (py_len (current_row_events w) - 1))
                              (g_sel_col (win w) + Z.of_nat (S n)),
                        g_row_offset (win w)), g_max_visible (win w)) ∧
     sent w' = sent w ∧ procs w' = procs w ∧
     (0 ≤ g_sel_col (win w) → current_row_events w ≠ [] → col_fits w')).
Proof.
  intros Hm. split.
  - change (press (S n) guide_left w) with (w' ← guide_left w; press n guide_left w').
    rewrite guide_left_spec, bind_Return by done.
    destruct (press_guide_left n
                (on_win (λ m, set_g_sel_col (Z.max 0 (g_sel_col m - 1)) m) w))
      as (w' & E & Hg & Hs & Hp); [done | fields; lia |].
    exists w'. split; [done|]. split; [|done]. rewrite Hg. fields.
    tuple_eq.
  - intros Hne Hrow.
    destruct (press_guide_right n w Hm Hne Hrow) as (w' & E & Hg & Hs & Hp).
    exists w'. do 4 (split; [done|]). intros Hc Hev.
    apply guide_state_fields in Hg as (_ & Hr' & Hs' & Hc' & _).
    unfold col_fits.
    assert (Hcur : current_row_events w' = current_row_events w).
    { unfold current_row_events. by rewrite Hr', Hs'. }
    rewrite Hcur, Hc'. pose proof (py_len_pos _ Hev). lia.
Qed.

Lemma guide_column_saturates_witness :
  ∃ w', press 9 guide_right sample_guide = Return w' ∧
        g_sel_col (win w') = 5 ∧ col_fits w'.
Proof.
  destruct (guide_column_saturates sample_guide 8 eq_refl) as [_ H].
  destruct H as (w' & E & Hg & _ & _ & Hf); [done | vm_compute; by split |].
  exists w'. split; [exact E|]. split.
  - apply guide_state_fields in Hg as (_ & _ & _ & -> & _). reflexivity.
  - apply Hf; [vm_compute; discriminate | vm_compute; discriminate].
Defined.

Lemma press_guide_page_down n : ∀ w,
  mode (win w) = ModeGuide → guide_rows (win w) ≠ [] → guide_inv w →
  0 < g_max_visible (win w) →
  ∃ w', press n guide_page_down w = Return w' ∧
    guide_state w' =
      (ModeGuide, guide_rows (win w),
       (Z.min (py_len (guide_rows (win w)) - 1) (g_sel_row (win w) + Z.of_nat n),
        g_sel_col (win w),
        Z.max (g_row_offset (win w))
              (Z.min (py_len (guide_rows (win w)) - 1) (g_sel_row (win w) + Z.of_nat n)
               - g_max_visible (win w) + 1)),
       g_max_visible (win w)).
Proof.
  induction n as [|n IH]; intros w Hm Hne (Hrow & Hcol & Hoff & Hvis) Hmv.
  - exists w. split; [done|]. unfold guide_state, cursor. rewrite Hm.
    tuple_eq.
  - change (press (S n) guide_page_down w)
      with (w' ← guide_page_down w; press n guide_page_down w').
    destruct (guide_page_down_spec w Hm Hne) as (w1 & -> & Hg); [lia|].
    rewrite bind_Return.
    apply guide_state_fields in Hg as (Hm1 & Hr1 & Hs1 & Hc1 & Ho1 & Hv1).
    destruct (IH w1) as (w' & E & Hg'); [done | congruence | | congruence |].
    { unfold guide_inv. rewrite Hr1, Hs1, Hc1, Ho1, Hv1.
      destruct (Z.leb_spec (g_row_offset (win w) + g_max_visible (win w))
                  (Z.min (py_len (guide_rows (win w)) - 1) (g_sel_row (win w) + 1)));
        lia. }
    exists w'. split; [done|]. rewrite Hg', Hr1, Hs1, Hc1, Ho1, Hv1.
    destruct (Z.leb_spec (g_row_offset (win w) + g_max_visible (win w))
                (Z.min (py_len (guide_rows (win w)) - 1) (g_sel_row (win w) + 1)));
      tuple_eq.
Qed.

Lemma press_guide_page_up n : ∀ w,
  mode (win w) = ModeGuide → guide_rows (win w) ≠ [] →
  0 ≤ g_sel_row (win w) < py_len (guide_rows (win w)) →
  g_row_offset (win w) ≤ g_sel_row (win w) →
  ∃ w', press n guide_page_up w = Return w' ∧
    guide_state w' =
      (ModeGuide, guide_rows (win w),
       (Z.max 0 (g_sel_row (win w) - Z.of_nat n),
        g_sel_col (win w),
        Z.min (g_row_offset (win w)) (Z.max 0 (g_sel_row (win w) - Z.of_nat n))),
       g_max_visible (win w)).
Proof.
  induction n as [|n IH]; intros w Hm Hne Hrow Hoff.
  - exists w. split; [done|]. unfold guide_state, cursor. rewrite Hm. tuple_eq.
  - change (press (S n) guide_page_up w)
      with (w' ← guide_page_up w; press n guide_page_up w').
    destruct (guide_page_up_spec w Hm Hne Hrow) as (w1 & -> & Hg).
    rewrite bind_Return.
    apply guide_state_fields in Hg as (Hm1 & Hr1 & Hs1 & Hc1 & Ho1 & Hv1).
    destruct (IH w1) as (w' & E & Hg'); [done | congruence | | |].
    { rewrite Hr1, Hs1. lia. }
    { rewrite Hs1, Ho1.
      destruct (Z.ltb_spec (Z.max 0 (g_sel_row (win w) - 1)) (g_row_offset (win w)));
        lia. }
    exists w'. split; [done|]. rewrite Hg', Hr1, Hs1, Hc1, Ho1, Hv1.
    destruct (Z.ltb_spec (Z.max 0 (g_sel_row (win w) - 1)) (g_row_offset (win w)));
      tuple_eq.
Qed.

(** X18: repeated row moves in closed form.  From a guide state with the
    cursor in range, [n] presses of page-down put the row at
    [min (rows - 1) (row + n)] and [n] presses of page-up at
    [max 0 (row - n)]; the offset follows only as far as needed to keep the
    row visible ([max offset (row' - visible + 1)] going down,
    [min offset row'] going up), and the column and the snapshot stay as
    they are. *)
Theorem guide_row_moves_closed_form (w : World) (n : nat) :
  mode (win w) = ModeGuide → guide_rows (win w) ≠ [] → guide_inv w →
  0 < g_max_visible (win w) →
  (∃ w', press n guide_page_down w = Return w' ∧
     guide_state w' =
       (ModeGuide, guide_rows (win w),
        (Z.min (py_len (guide_rows (win w)) - 1) (g_sel_row (win w) + Z.of_nat n),
         g_sel_col (win w),
         Z.max (g_row_offset (win w))
               (Z.min (py_len (guide_rows (win w)) - 1) (g_sel_row (win w) + Z.of_nat n)
                - g_max_visible (win w) + 1)),
        g_max_visible (win w))) ∧
  (∃ w', press n guide_page_up w = Return w' ∧
     guide_state w' =
       (ModeGuide, guide_rows (win w),
        (Z.max 0 (g_sel_row (win w) - Z.of_nat n),
         g_sel_col (win w),
         Z.min (g_row_offset (win w)) (Z.max 0 (g_sel_row (win w) - Z.of_nat n))),
        g_max_visible (win w))).
Proof.
  intros Hm Hne Hinv Hmv. split.
  - by apply press_guide_page_down.
  - destruct Hinv as (Hrow & _ & _ & Hvis). apply press_guide_page_up; [done..|lia|lia].
Qed.

Lemma guide_row_moves_closed_form_witness :
  (∃ w', press 5 guide_page_down sample_guide = Return w' ∧
         cursor w' = (1, 5, 0)) ∧
  (∃ w', press 5 guide_page_up sample_guide = Return w' ∧
         cursor w' = (0, 5, 0)).
Proof.
  assert (Hinv : guide_inv sample_guide) by (vm_compute; intuition discriminate).
  destruct (guide_row_moves_closed_form sample_guide 5 eq_refl) as [Hd Hu];
    [done | exact Hinv | done |].
  destruct Hd as (wd & Ed & Hgd), Hu as (wu & Eu & Hgu). split.
  - exists wd. split; [exact Ed|].
    apply guide_state_fields in Hgd as (_ & _ & Hr & Hc & Ho & _).
    unfold cursor. rewrite Hr, Hc, Ho. reflexivity.
  - exists wu. split; [exact Eu|].
    apply guide_state_fields in Hgu as (_ & _ & Hr & Hc & Ho & _).
    unfold cursor. rewrite Hr, Hc, Ho. reflexivity.
Defined.

(** ** A row without a playable event *)

(** The channel has nothing to preview: the store gives no current path
    for it, or the file of that path does not exist. *)
Lemma _start_preview_from_channel_unresolved ch w :
  (resolve_now_path_and_offset (store (env w)) (now (env w)) ch = Return None ∨
   ∃ p off, resolve_now_path_and_offset (store (env w)) (now (env w)) ch
            = Return (Some (p, off)) ∧ file_exists (env w) p = false) →
  _start_preview_from_channel ch w = Return w.
Proof.
  unfold _start_preview_from_channel. intros [-> | (p & off & -> & Hf)].
  - done.
  - rewrite bind_Return. by rewrite Hf.
Qed.

Lemma anchor_row_unresolved b w c :
  0 ≤ g_sel_row (win w) →
  guide_rows (win w) !! Z.to_nat (g_sel_row (win w)) = Some c →
  ch_id c ≠ "" →
  _start_preview_from_channel (ch_id c) w = Return w →
  anchor_row b w
  = Return (on_win (set_pip_footer
                      (if b then footer_show (set_info (ch_id c) (ch_name c)
                                                (pip_footer (win w)))
                       else set_info (ch_id c) (ch_name c) (pip_footer (win w)))) w).
Proof.
  intros H0 Hc Hid Hsp. unfold anchor_row, _guide_current_channel_id.
  destruct (guide_rows (win w)) as [|c0 l] eqn:Hr; [done|].
  assert (Hlt : g_sel_row (win w) < py_len (c0 :: l)).
  { apply lookup_lt_Some in Hc. unfold py_len. lia. }
  replace (Z.max 0 (Z.min (g_sel_row (win w)) (py_len (c0 :: l) - 1)))
    with (g_sel_row (win w)) by lia.
  destruct (py_getitem_in_range (c0 :: l) (g_sel_row (win w))) as (r & Hg & Hl);
    [lia|].
  assert (r = c) as -> by congruence. rewrite Hg, !bind_Return.
  apply truthy_ne in Hid. rewrite Hid, Hsp, bind_Return, Hr, Hg, bind_Return.
  done.
Qed.

Ltac case_scroll :=
  match goal with
  | |- context [if ?c then _ else _] => destruct c
  end.

(** X19: a row move onto a channel with nothing to preview (no current
    path in the store, or a path whose file does not exist) returns and
    moves the cursor and the footer to the new channel, but sends nothing
    and leaves the preview handle and the process table as they were: a
    preview that was running keeps showing the previous channel. *)
Theorem row_move_keeps_stale_preview (w : World) (c : Channel) :
  mode (win w) = ModeGuide → guide_inv w →
  guide_rows (win w) !! Z.to_nat (g_sel_row (win w) + 1) = Some c →
  ch_id c ≠ "" →
  (resolve_now_path_and_offset (store (env w)) (now (env w)) (ch_id c) = Return None ∨
   ∃ p off, resolve_now_path_and_offset (store (env w)) (now (env w)) (ch_id c)
            = Return (Some (p, off)) ∧ file_exists (env w) p = false) →
  ∃ w', guide_page_down w = Return w' ∧
    g_sel_row (win w') = g_sel_row (win w) + 1 ∧
    f_ch_num (pip_footer (win w')) = ch_id c ∧
    f_ch_name (pip_footer (win w')) = ch_name c ∧
    preview (win w') = preview (win w) ∧
    procs w' = procs w ∧ sent w' = sent w.
Proof.
  intros Hm (Hrow & _) Hc Hid Hun. unfold guide_page_down.
  rewrite (in_mode_true _ _ Hm). cbn [negb].
  assert (Hlt : g_sel_row (win w) + 1 < py_len (guide_rows (win w))).
  { apply lookup_lt_Some in Hc. unfold py_len. lia. }
  destruct (guide_rows (win w)) as [|c0 l] eqn:Hr; [done|].
  match goal with |- ∃ w', anchor_row false ?x = _ ∧ _ => set (w1 := x) end.
  assert (Hs1 : g_sel_row (win w1) = g_sel_row (win w) + 1).
  { unfold w1. case_scroll; fields; rewrite Hr; lia. }
  assert (Hr1 : guide_rows (win w1) = c0 :: l).
  { unfold w1. case_scroll; fields; done. }
  assert (He1 : env w1 = env w) by (unfold w1; case_scroll; done).
  assert (Hf1 : pip_footer (win w1) = pip_footer (win w)
                ∧ preview (win w1) = preview (win w)
                ∧ procs w1 = procs w ∧ sent w1 = sent w).
  { unfold w1. case_scroll; done. }
  destruct Hf1 as (Hf1 & Hp1 & Hpr1 & Hse1).
  rewrite (anchor_row_unresolved false w1 c).
  - eexists. split; [done|]. fields. by rewrite Hs1.
  - lia.
  - by rewrite Hr1, Hs1.
  - done.
  - apply _start_preview_from_channel_unresolved. by rewrite He1.
Qed.

Lemma row_move_keeps_stale_preview_witness :
  preview (win gap_guide) = Some 0%nat ∧ is_running 0 gap_guide = true ∧
  ∃ w', guide_page_down gap_guide = Return w' ∧
    g_sel_row (win w') = 1 ∧ f_ch_num (pip_footer (win w')) = "2" ∧
    preview (win w') = Some 0%nat ∧ is_running 0 w' = true.
Proof.
  split; [reflexivity|]. split; [reflexivity|].
  destruct (row_move_keeps_stale_preview gap_guide
              {| ch_id := "2"; ch_name := "Channel 2";
                 ch_events := [{| ev_title := "2"; ev_start := 200; ev_end := 300 |}] |})
    as (w' & E & Hr & Hn & _ & Hp & Hpr & _);
    [reflexivity | vm_compute; intuition discriminate | reflexivity | discriminate
    | left; reflexivity |].
  exists w'. split; [exact E|]. split; [exact Hr|]. split; [exact Hn|].
  split; [exact Hp|]. unfold is_running. rewrite Hpr. reflexivity.
Defined.

(** ** What is sent *)

Lemma fag_nil : forced_after_graceful [].
Proof. intros i pid H. by rewrite lookup_nil in H. Qed.

Lemma fag_one e : (∀ pid, e ≠ SigKill pid) → forced_after_graceful [e].
Proof.
  intros He [|i] pid H; [|by destruct i].
  injection H as ->. by destruct (He pid).
Qed.

Lemma fag_term_kill pid : forced_after_graceful [SigTerm pid; SigKill pid].
Proof.
  intros [|[|i]] q H; [done| |by destruct i].
  injection H as ->. by exists 0%nat.
Qed.

Lemma fag_app l1 l2 :
  forced_after_graceful l1 → forced_after_graceful l2 →
  forced_after_graceful (l1 ++ l2).
Proof.
  intros H1 H2 i pid H. apply lookup_app_Some in H as [H | [Hl H]].
  - destruct (H1 i pid H) as (j & -> & Hj). exists j. split; [done|].
    by apply lookup_app_l_Some.
  - destruct (H2 _ pid H) as (j & Hi & Hj). exists (length l1 + j)%nat.
    split; [lia|]. rewrite lookup_app_r by lia.
    by replace (length l1 + j - length l1)%nat with j by lia.
Qed.

Lemma appends_refl w : appends w w.
Proof. exists []. split; [by rewrite app_nil_r | apply fag_nil]. Qed.

Lemma appends_trans w1 w2 w3 : appends w1 w2 → appends w2 w3 → appends w1 w3.
Proof.
  intros (k1 & E1 & H1) (k2 & E2 & H2). exists (k1 ++ k2).
  split; [by rewrite E2, E1, app_assoc | by apply fag_app].
Qed.

Lemma appends_same w w' : sent w' = sent w → appends w w'.
Proof. intros E. exists []. split; [by rewrite app_nil_r | apply fag_nil]. Qed.

Lemma appends_emit e w : (∀ pid, e ≠ SigKill pid) → appends w (emit e w).
Proof. intros He. exists [e]. split; [done | by apply fag_one]. Qed.

Lemma appends_on_win f w0 w : appends w0 w → appends w0 (on_win f w).
Proof. intros H. apply (appends_trans _ w); [done | by apply appends_same]. Qed.

Lemma appends_to_Return w w' : appends w w' → appends_to w (Return w').
Proof. done. Qed.

Lemma appends_to_trans w w1 c : appends w w1 → appends_to w1 c → appends_to w c.
Proof. destruct c; [apply appends_trans | done]. Qed.

Lemma appends_to_bind w c k :
  appends_to w c → (∀ w1, appends_to w1 (k w1)) → appends_to w (c ≫= k).
Proof.
  destruct c as [w1|e]; [|done]. intros H Hk. rewrite bind_Return.
  by apply (appends_to_trans _ w1).
Qed.

Lemma appends_terminate_wait_kill h w : appends w (terminate_wait_kill h w).
Proof.
  unfold terminate_wait_kill. destruct h as [pid|]; [|apply appends_refl].
  destruct (is_running pid w); [|apply appends_refl].
  destruct (exits_on_term _ _).
  - exists [SigTerm pid]. split; [done | by apply fag_one].
  - exists [SigTerm pid; SigKill pid]. split; [|apply fag_term_kill].
    cbn. by rewrite <- app_assoc.
Qed.

Lemma appends_stop_preview w : appends w (stop_preview w).
Proof. apply appends_on_win, appends_terminate_wait_kill. Qed.

Lemma appends_audio_stop w : appends w (audio_stop w).
Proof. apply appends_on_win, appends_terminate_wait_kill. Qed.

Lemma appends_Popen o args w r : Popen o args w = Return r → appends w r.2.
Proof.
  unfold Popen. destruct (popen_ok _ _); [|done]. intros [= <-].
  eexists [Spawn _]. split; [done | by apply fag_one].
Qed.

Lemma appends_start_preview p s w : appends_to w (start_preview p s w).
Proof.
  unfold start_preview. apply (appends_to_trans _ _ _ (appends_stop_preview w)).
  set (w1 := stop_preview w). clearbody w1. unfold try_except.
  destruct (win_id (env w1)) as [wid|e]; [rewrite bind_Return|];
    [|apply appends_on_win, appends_refl].
  destruct (Popen _ _ w1) as [r|e] eqn:E; [rewrite bind_Return|];
    [|apply appends_on_win, appends_refl].
  apply appends_on_win. by apply appends_Popen in E.
Qed.

Lemma appends_audio_start w : appends_to w (audio_start w).
Proof.
  unfold audio_start. destruct (negb _); [apply appends_refl|].
  apply (appends_to_trans _ _ _ (appends_audio_stop w)).
  set (w1 := audio_stop w). clearbody w1. unfold try_except.
  destruct (Popen _ _ w1) as [r|e] eqn:E; [rewrite bind_Return|];
    [|apply appends_on_win, appends_refl].
  apply appends_on_win. by apply appends_Popen in E.
Qed.

Lemma appends_post_200 url w : appends w (post_200 url w).2.
Proof. by apply appends_emit. Qed.

Lemma appends_get_status w : appends w (get_status w).2.
Proof. by apply appends_emit. Qed.

Lemma appends_mpv_pause_on w : appends w (mpv_pause_on w).
Proof. apply (appends_trans _ (emit (MpvIpc "pause" true) w)); by apply appends_emit. Qed.

Lemma appends_mpv_pause_off w : appends w (mpv_pause_off w).
Proof. apply (appends_trans _ (emit (MpvIpc "pause" false) w)); by apply appends_emit. Qed.

Lemma appends_pause_playback w : appends w (_pause_playback w).
Proof.
  unfold _pause_playback. destruct (post_200 _ w).1; [apply appends_post_200|].
  eapply appends_trans; [apply appends_post_200 | apply appends_mpv_pause_on].
Qed.

Lemma appends_return_to_live w : appends w (_return_to_live w).
Proof.
  unfold _return_to_live. destruct (post_200 _ w).1; [apply appends_post_200|].
  eapply appends_trans; [apply appends_post_200|].
  eapply appends_trans; [apply appends_get_status|].
  destruct (match (get_status _).1 with Some st => _ | None => None end) as [c|];
    [|apply appends_mpv_pause_off].
  destruct (truthy c); [|apply appends_mpv_pause_off].
  eapply appends_trans; [apply appends_post_200 | apply appends_mpv_pause_off].
Qed.

Lemma appends_start_preview_from_channel ch w :
  appends_to w (_start_preview_from_channel ch w).
Proof.
  unfold _start_preview_from_channel.
  destruct (resolve_now_path_and_offset _ _ _) as [[[p off]|]|e];
    [rewrite bind_Return | apply appends_refl | done].
  destruct (negb _); [apply appends_refl | apply appends_start_preview].
Qed.

Lemma appends_start_preview_from_status w :
  appends_to w (_start_preview_from_status w).
Proof.
  unfold _start_preview_from_status.
  apply (appends_to_trans _ _ _ (appends_get_status w)).
  destruct (get_status w).1 as [st|]; [|apply appends_refl].
  destruct (s_channel st); [|apply appends_refl].
  apply appends_start_preview_from_channel.
Qed.

Lemma appends_update_pip_footer w : appends w (_update_pip_footer_from_status w).
Proof. apply appends_on_win, appends_get_status. Qed.

Lemma appends_open_menu w : appends_to w (open_menu w).
Proof.
  unfold open_menu.
  apply (appends_to_trans _ (_pause_playback (on_win (set_visible true) w))).
  { apply (appends_trans _ (on_win (set_visible true) w));
      [by apply appends_same | apply appends_pause_playback]. }
  apply appends_to_bind; [apply appends_start_preview_from_status|]. intros w1.
  apply (appends_to_trans _ _ _ (appends_update_pip_footer w1)).
  apply appends_to_bind; [apply appends_audio_start|]. intros w2.
  apply appends_on_win, appends_refl.
Qed.

Lemma appends_close_menu w : appends w (close_menu w).
Proof.
  unfold close_menu.
  eapply appends_trans; [|apply appends_return_to_live].
  do 2 apply appends_on_win.
  eapply appends_trans; [apply appends_audio_stop | apply appends_stop_preview].
Qed.

Lemma appends_select w d :
  appends_to w (s ← py_mod (sel (win w) + d) (py_len (items (win w)));
                Return (on_win (λ m, set_sel_last s (set_sel s m)) w)).
Proof. destruct (py_mod _ _); [apply appends_on_win, appends_refl | done]. Qed.

Lemma appends_nav_up w : appends_to w (nav_up w).
Proof.
  unfold nav_up. destruct (negb _); [apply appends_refl|].
  apply (appends_select w (-1)).
Qed.

Lemma appends_nav_down w : appends_to w (nav_down w).
Proof.
  unfold nav_down. destruct (negb _); [apply appends_refl|].
  apply (appends_select w 1).
Qed.

Lemma appends_anchor_row b w : appends_to w (anchor_row b w).
Proof.
  unfold anchor_row. destruct (_guide_current_channel_id w) as [[c|]|e];
    [rewrite bind_Return | apply appends_refl | done].
  destruct (truthy c); [|apply appends_refl].
  apply appends_to_bind; [apply appends_start_preview_from_channel|]. intros w1.
  destruct (match guide_rows (win w1) with [] => Return "" | _ => _ end) as [n|e];
    [rewrite bind_Return | done].
  apply appends_on_win, appends_refl.
Qed.

Lemma appends_enter_guide_mode w : appends_to w (_enter_guide_mode w).
Proof.
  unfold _enter_guide_mode. destruct (try_except _ _) as [rows|e]; [|done].
  rewrite bind_Return. eapply appends_to_trans; [|apply appends_anchor_row].
  by apply appends_same.
Qed.

Lemma appends_guide_op o w : appends_to w (guide_op o w).
Proof.
  destruct o; unfold guide_op, guide_left, guide_right, guide_page_up,
    guide_page_down; try (by apply appends_same).
  all: destruct (negb _); [apply appends_refl|].
  - by apply appends_same.
  - destruct (guide_rows (win w)); [apply appends_refl|].
    destruct (py_getitem _ _); [by apply appends_same | done].
  - destruct (guide_rows (win w)) eqn:Hr; [apply appends_refl|].
    eapply appends_to_trans; [|apply appends_anchor_row].
    apply appends_same. by case_scroll.
  - destruct (guide_rows (win w)) eqn:Hr; [apply appends_refl|].
    eapply appends_to_trans; [|apply appends_anchor_row].
    apply appends_same. by case_scroll.
Qed.

Lemma appends_nav_enter w : appends_to w (nav_enter w).
Proof.
  unfold nav_enter. destruct (mode (win w)).
  - destruct (py_getitem _ _) as [label|e]; [rewrite bind_Return | done].
    set (w1 := on_win _ w). assert (H1 : appends w w1) by by apply appends_same.
    clearbody w1.
    repeat match goal with
    | |- appends_to _ (if ?c then _ else _) => destruct c
    end; try (apply (appends_trans _ w1); [done | apply appends_close_menu]);
      try done.
    eapply appends_to_trans; [exact H1 | apply appends_enter_guide_mode].
  - destruct (_guide_current_channel_id w) as [id|e]; [rewrite bind_Return | done].
    eapply appends_trans; [|apply appends_close_menu].
    destruct id as [c|]; [|apply appends_refl].
    destruct (truthy c); [apply appends_post_200 | apply appends_refl].
Qed.

Lemma appends_select_item t w : appends w (_select_item t w).2.
Proof.
  destruct t as [i|s]; cbn [_select_item].
  - destruct (_ && _); by apply appends_same.
  - destruct (list_index _ _); by apply appends_same.
Qed.

Lemma appends_to_reply w (c : exc World) (r : Reply) :
  appends_to w c → appends_to w (x ← (w' ← c; Return (w', r)); Return x.1).
Proof. by destruct c. Qed.

Lemma appends_step c w : appends_to w (step c w).
Proof.
  destruct c as [path|k|e|pid]; unfold step; try (by apply appends_same).
  - unfold do_POST.
    repeat match goal with
    | |- appends_to _ (_ ← (if ?c then _ else _); _) => destruct c eqn:?
    end.
    all: try (apply appends_to_reply).
    all: try match goal with
      | |- appends_to _ (if ?c then _ else _) => destruct c eqn:?
      end.
    all: try first
      [ apply appends_open_menu | apply appends_close_menu | apply appends_nav_up
      | apply appends_nav_down | apply appends_nav_enter
      | apply appends_enter_guide_mode
      | apply (appends_guide_op GLeft) | apply (appends_guide_op GRight)
      | apply (appends_guide_op GPageUp) | apply (appends_guide_op GPageDown)
      | apply appends_refl ].
    + destruct (py_getitem _ _); [apply appends_select_item | done].
    + apply appends_select_item.
    + eapply appends_to_trans; [|apply appends_nav_enter].
      destruct (truthy _); [apply appends_select_item | apply appends_refl].
    + change (appends w (if truthy (after_prefix "/menu/activate/" path)
                         then _select_item
                                (target_of_key (after_prefix "/menu/activate/" path)) w
                         else (true, w)).2).
      destruct (truthy _); [apply appends_select_item | apply appends_refl].
  - unfold keyPressEvent.
    destruct k, (visible (win w)), (mode (win w)); cbn [negb];
      try first
      [ apply appends_open_menu | apply appends_close_menu | apply appends_nav_up
      | apply appends_nav_down | apply appends_nav_enter
      | apply (appends_guide_op GLeft) | apply (appends_guide_op GRight)
      | apply (appends_guide_op GPageUp) | apply (appends_guide_op GPageDown)
      | apply appends_refl | apply appends_select ].
Qed.

Lemma appends_run cs : ∀ w, appends_to w (run cs w).
Proof.
  induction cs as [|c cs IH]; intros w; [apply appends_refl|].
  change (run (c :: cs) w) with (w' ← step c w; run cs w').
  apply appends_to_bind; [apply appends_step | exact IH].
Qed.

(** X20: in every run from start-up, whatever the surroundings do, each
    SIGKILL the menu sends comes directly after a SIGTERM it sent to the
    same process: no helper is killed without having been asked to
    terminate first. *)
Theorem kill_only_after_term e p v (cs : list Cmd) :
  ∃ w, run cs (boot e p v) = Return w ∧ forced_after_graceful (sent w).
Proof.
  destruct (run_keeps_menu_inv cs (boot e p v) (boot_menu_inv e p v)) as (w & E & _).
  exists w. split; [done|].
  pose proof (appends_run cs (boot e p v)) as H. rewrite E in H.
  destruct H as (k & Hk & Hf). by rewrite Hk.
Qed.


(** ** Failing starts *)

(** X22: stopping is idempotent for both helpers, and a start that cannot
    go through is harmless.  When the window id or the spawn fails,
    [start_preview] returns after its stop with an empty handle; when the
    audio spawn fails, [MenuAudio.start] does the same; and when the audio
    file does not exist [MenuAudio.start] returns at once, without stopping
    what is playing. *)
Theorem stops_and_failed_starts (w : World) (path : string) (start_sec : Z) :
  stop_preview (stop_preview w) = stop_preview w ∧
  audio_stop (audio_stop w) = audio_stop w ∧
  ((∃ e, win_id (env w) = Raise e) ∨
   (∃ wid, win_id (env w) = Return wid ∧
           popen_ok (env w) (preview_args path start_sec wid) = false) →
   start_preview path start_sec w = Return (stop_preview w)) ∧
  (file_exists (env w) (a_path (menu_audio (win w))) = true →
   popen_ok (env w) (audio_args (menu_audio (win w))) = false →
   audio_start w = Return (audio_stop w)) ∧
  (file_exists (env w) (a_path (menu_audio (win w))) = false →
   audio_start w = Return w).
Proof.
  split; [done|]. split; [done|]. split; [|split].
  - intros H. unfold start_preview, try_except.
    assert (He : env (stop_preview w) = env w).
    { unfold stop_preview. fields. apply env_terminate_wait_kill. }
    rewrite He. destruct H as [[e ->] | (wid & -> & Hp)]; [done|].
    rewrite bind_Return. unfold Popen. by rewrite He, Hp.
  - intros Hf Hp. unfold audio_start, try_except. rewrite Hf. cbn [negb].
    assert (He : env (audio_stop w) = env w).
    { unfold audio_stop. fields. apply env_terminate_wait_kill. }
    assert (Ha : audio_args (menu_audio (win (audio_stop w)))
                 = audio_args (menu_audio (win w))).
    { unfold audio_stop. fields. by rewrite win_terminate_wait_kill. }
    unfold Popen. by rewrite He, Ha, Hp.
  - intros Hf. unfold audio_start. by rewrite Hf.
Qed.

(** ** The footer *)

(** X23: the footer text [_update_pip_footer_from_status] sets when the
    player answers with a JSON object or does not answer.  The footer is
    then shown, one status request is sent, and nothing but the footer
    changes; without an answer both texts are empty; and when the object
    carries a channel number but no name, the name is
    ["Channel <number>"]. *)
Theorem footer_from_status (w : World) :
  f_shown (pip_footer (win (_update_pip_footer_from_status w))) = true ∧
  sent (_update_pip_footer_from_status w) = sent w ++ [HttpGet (player_url "/status")] ∧
  procs (_update_pip_footer_from_status w) = procs w ∧
  win (_update_pip_footer_from_status w)
  = set_pip_footer (pip_footer (win (_update_pip_footer_from_status w))) (win w) ∧
  (status (env w) = None →
   f_ch_num (pip_footer (win (_update_pip_footer_from_status w))) = "" ∧
   f_ch_name (pip_footer (win (_update_pip_footer_from_status w))) = "") ∧
  (∀ st v, status (env w) = Some st →
     jor (s_channel st) (jor (s_channel_id st) (s_ch st)) = Some v →
     jtruthy v = true → jstr v ≠ "" →
     (∀ n, n ∈ [s_channel_name st; s_name st; s_ch_name st] →
           n = None ∨ ∃ x, n = Some x ∧ jtruthy x = false) →
     f_ch_num (pip_footer (win (_update_pip_footer_from_status w))) = jstr v ∧
     f_ch_name (pip_footer (win (_update_pip_footer_from_status w)))
     = "Channel " +:+ jstr v).
Proof.
  unfold _update_pip_footer_from_status, get_status. cbn [fst snd].
  do 4 (split; [done|]). split.
  - intros ->. done.
  - intros st v -> Hv Ht Hs Hn. rewrite Hv, Ht. fields. cbn [f_ch_num f_ch_name set_info footer_show].
    split; [done|].
    assert (Hname : match jor (s_channel_name st) (jor (s_name st) (s_ch_name st)) with
                    | Some x => if jtruthy x then jstr x else ""
                    | None => ""
                    end = "").
    { pose proof (Hn (s_channel_name st) ltac:(repeat constructor)) as H1.
      pose proof (Hn (s_name st) ltac:(repeat constructor)) as H2.
      pose proof (Hn (s_ch_name st) ltac:(repeat constructor)) as H3.
      destruct H1 as [-> | (x1 & -> & F1)], H2 as [-> | (x2 & -> & F2)],
        H3 as [-> | (x3 & -> & F3)]; cbn [jor]; rewrite ?F1, ?F2, ?F3; done. }
    rewrite Hname. apply truthy_ne in Hs. by rewrite Hs.
Qed.

Lemma anchor_row_footer b w :
  guide_rows (win w) ≠ [] →
  0 ≤ g_sel_row (win w) < py_len (guide_rows (win w)) →
  ∃ w' c, anchor_row b w = Return w' ∧
    guide_rows (win w) !! Z.to_nat (g_sel_row (win w)) = Some c ∧
    guide_state w' = guide_state w ∧
    (ch_id c ≠ "" →
     pip_footer (win w')
     = (if b then footer_show (set_info (ch_id c) (ch_name c) (pip_footer (win w)))
        else set_info (ch_id c) (ch_name c) (pip_footer (win w)))) ∧
    (ch_id c = "" → w' = w).
Proof.
  intros Hne Hrow. unfold anchor_row, _guide_current_channel_id.
  destruct (guide_rows (win w)) as [|c0 l] eqn:Hr; [done|].
  replace (Z.max 0 (Z.min (g_sel_row (win w)) (py_len (c0 :: l) - 1)))
    with (g_sel_row (win w)) by lia.
  destruct (py_getitem_in_range (c0 :: l) (g_sel_row (win w))) as (c & Hg & Hl);
    [lia|].
  rewrite Hg, !bind_Return.
  destruct (truthy (ch_id c)) eqn:Ht.
  - destruct (_start_preview_from_channel_only (ch_id c) w) as (w1 & -> & Hpo).
    rewrite bind_Return.
    pose proof (preview_only_guide_state _ _ Hpo) as Hgs.
    destruct Hpo as (_ & x & Hw1).
    assert (Hrows : guide_rows (win w1) = c0 :: l) by (rewrite Hw1; done).
    assert (Hsel : g_sel_row (win w1) = g_sel_row (win w)) by (rewrite Hw1; done).
    rewrite Hrows, Hsel, Hg, !bind_Return.
    eexists _, c. split; [done|]. split; [done|]. split; [by rewrite <- Hgs|].
    split; [|intros E; rewrite E in Ht; done].
    intros _. fields. rewrite Hw1. by destruct b.
  - exists w, c. split; [done|]. split; [done|]. split; [done|].
    split; [|done]. intros Hid. apply truthy_ne in Hid. congruence.
Qed.

Lemma footer_after_row_move (o : GuideOp) (w : World) :
  mode (win w) = ModeGuide → guide_rows (win w) ≠ [] →
  0 ≤ g_sel_row (win w) < py_len (guide_rows (win w)) →
  o = GPageUp ∨ o = GPageDown →
  ∃ w' c, guide_op o w = Return w' ∧
    guide_rows (win w') !! Z.to_nat (g_sel_row (win w')) = Some c ∧
    (ch_id c ≠ "" →
     pip_footer (win w')
     = {| f_ch_num := ch_id c; f_ch_name := ch_name c; f_shown := true |}) ∧
    (ch_id c = "" →
     pip_footer (win w') = pip_footer (win w) ∧ sent w' = sent w ∧
     procs w' = procs w).
Proof.
  intros Hm Hne Hrow [-> | ->]; unfold guide_op, guide_page_up, guide_page_down;
    rewrite (in_mode_true _ _ Hm); cbn [negb];
    destruct (guide_rows (win w)) as [|c0 l] eqn:Hr; try done.
  all: match goal with |- ∃ w' c, anchor_row false ?x = _ ∧ _ => set (w1 := x) end.
  all: assert (H1 : guide_rows (win w1) = c0 :: l
                    ∧ 0 ≤ g_sel_row (win w1) < py_len (c0 :: l)
                    ∧ pip_footer (win w1) = pip_footer (win w)
                    ∧ sent w1 = sent w ∧ procs w1 = procs w)
         by (unfold w1; case_scroll; fields; rewrite ?Hr; repeat split; try done; lia).
  all: destruct H1 as (Hr1 & Hs1 & Hf1 & Hse1 & Hp1); clearbody w1.
  all: destruct (anchor_row_footer false w1) as (w' & c & E & Hc & Hg & Hy & Hn);
         [by rewrite Hr1 | by rewrite Hr1 |].
  all: apply eq_sym, guide_state_fields in Hg as (_ & Hr' & Hs' & _).
  all: exists w', c; split; [done|]; split; [by rewrite <- Hr', <- Hs'|].
  all: split; [intros Hid; rewrite (Hy Hid); unfold set_info;
               apply truthy_ne in Hid; by rewrite Hid
              | intros Hid; rewrite (Hn Hid); done].
Qed.

(** X24: the footer follows the row cursor.  When a row move in a guide
    whose cursor is in range returns, the footer carries the id and the
    name of the channel under the new cursor and is shown, provided the id
    is not empty; on a channel with an empty id the move leaves the footer
    as it was and sends nothing. *)
Theorem footer_follows_cursor (o : GuideOp) (w w' : World) :
  mode (win w) = ModeGuide → guide_rows (win w) ≠ [] →
  0 ≤ g_sel_row (win w) < py_len (guide_rows (win w)) →
  o = GPageUp ∨ o = GPageDown →
  guide_op o w = Return w' →
  ∃ c, guide_rows (win w') !! Z.to_nat (g_sel_row (win w')) = Some c ∧
    (ch_id c ≠ "" →
     pip_footer (win w')
     = {| f_ch_num := ch_id c; f_ch_name := ch_name c; f_shown := true |}) ∧
    (ch_id c = "" →
     pip_footer (win w') = pip_footer (win w) ∧ sent w' = sent w ∧
     procs w' = procs w).
Proof.
  intros Hm Hne Hrow Ho E.
  destruct (footer_after_row_move o w Hm Hne Hrow Ho) as (w1 & c & E1 & H).
  rewrite E in E1. injection E1 as <-. by exists c.
Qed.

Lemma footer_follows_cursor_witness :
  ∃ w', guide_op GPageDown gap_guide = Return w' ∧
    pip_footer (win w')
    = {| f_ch_num := "2"; f_ch_name := "Channel 2"; f_shown := true |}.
Proof.
  destruct (footer_after_row_move GPageDown gap_guide)
    as (w' & c0 & E & _);
    [vm_compute; reflexivity | vm_compute; discriminate | vm_compute; by split
    | by right |].
  exists w'. split; [exact E|].
  destruct (footer_follows_cursor GPageDown gap_guide w')
    as (c & Hc & Hy & _);
    [vm_compute; reflexivity | vm_compute; discriminate | vm_compute; by split
    | by right | exact E |].
  assert (Hrow : ∀ w0, guide_op GPageDown gap_guide = Return w0 →
                 guide_rows (win w0) !! Z.to_nat (g_sel_row (win w0))
                 = Some {| ch_id := "2"; ch_name := "Channel 2";
                           ch_events := [{| ev_title := "2"; ev_start := 200;
                                            ev_end := 300 |}] |}).
  { intros w0. vm_compute. intros [= <-]. reflexivity. }
  rewrite (Hrow w' E) in Hc. injection Hc as <-.
  apply Hy. discriminate.
Defined.

(** ** Round trips and compositions of commands *)

Lemma select_at_same w :
  sel_last (win w) = sel (win w) → select_at (sel (win w)) w = w.
Proof. destruct w as [e ps log m]. destruct m. cbn. by intros ->. Qed.

Lemma step_back d w :
  0 ≤ sel (win w) < py_len (items (win w)) → sel_last (win w) = sel (win w) →
  select_at ((sel (win (select_at ((sel (win w) + d) `mod` py_len (items (win w))) w))
              - d) `mod` py_len (items (win w)))
            (select_at ((sel (win w) + d) `mod` py_len (items (win w))) w)
  = w.
Proof.
  intros Hs Hl. rewrite select_at_select_at.
  change (sel (win (select_at ?s w))) with s.
  rewrite Zminus_mod_idemp_l.
  replace (sel (win w) + d - d) with (sel (win w)) by lia.
  rewrite Z.mod_small by done. by apply select_at_same.
Qed.

(** X25: in root mode, with the cursor on an item and equal to the
    last-selected index, up undoes down and down undoes up, and the keys
    PageUp and PageDown undo each other: the state afterwards is the state
    before. *)
Theorem root_moves_undo (w : World) :
  mode (win w) = ModeRoot →
  0 ≤ sel (win w) < py_len (items (win w)) → sel_last (win w) = sel (win w) →
  (w1 ← nav_down w; nav_up w1) = Return w ∧
  (w1 ← nav_up w; nav_down w1) = Return w ∧
  (w1 ← page_step 2 w; page_step (-2) w1) = Return w ∧
  (w1 ← page_step (-2) w; page_step 2 w1) = Return w.
Proof.
  intros Hm Hs Hl. assert (Hn : 0 < py_len (items (win w))) by lia.
  split; [|split; [|split]].
  - rewrite nav_down_root, bind_Return, nav_up_root by done.
    change (items (win (select_at ?s w))) with (items (win w)).
    f_equal. by apply (step_back 1).
  - rewrite nav_up_root, bind_Return, nav_down_root by done.
    change (items (win (select_at ?s w))) with (items (win w)).
    f_equal. change (sel (win w) - 1) with (sel (win w) + -1).
    change (?x + 1) with (x - -1). by apply (step_back (-1)).
  - unfold page_step. rewrite py_mod_pos by done. rewrite !bind_Return.
    change (items (win (select_at ?s w))) with (items (win w)).
    rewrite py_mod_pos by done. rewrite bind_Return.
    change (on_win (λ m, set_sel_last ?s (set_sel ?s m)) ?x) with (select_at s x).
    f_equal. change (?x + -2) with (x - 2). by apply (step_back 2).
  - unfold page_step. rewrite py_mod_pos by done. rewrite !bind_Return.
    change (items (win (select_at ?s w))) with (items (win w)).
    rewrite py_mod_pos by done. rewrite bind_Return.
    change (on_win (λ m, set_sel_last ?s (set_sel ?s m)) ?x) with (select_at s x).
    f_equal. change (?x + 2) with (x - -2). by apply (step_back (-2)).
Qed.

Lemma root_moves_undo_witness :
  (w1 ← nav_down sample_world; nav_up w1) = Return sample_world ∧
  (w1 ← page_step (-2) sample_world; page_step 2 w1) = Return sample_world.
Proof.
  destruct (root_moves_undo sample_world) as (H1 & _ & _ & H4);
    [reflexivity | by vm_compute | reflexivity |].
  split; [exact H1 | exact H4].
Defined.

Lemma substring_all s : String.substring 0 (String.length s) s = s.
Proof. induction s as [|c s IH]; [done|]. cbn. by rewrite IH. Qed.

Lemma after_prefix_app p key : after_prefix p (p +:+ key) = key.
Proof.
  unfold after_prefix. induction p as [|c p IH].
  - cbn. rewrite Nat.sub_0_r. apply substring_all.
  - exact IH.
Qed.

Lemma _select_item_inv_fail t w :
  (_select_item t w).1 = false → (_select_item t w).2 = w.
Proof.
  destruct t as [i|s]; cbn [_select_item].
  - by destruct ((0 <=? i) && (i <? py_len (items (win w)))).
  - by destruct (list_index s (items (win w))).
Qed.

Lemma _select_item_ok_index t w :
  (_select_item t w).1 = true →
  visible (win (_select_item t w).2) = visible (win w) ∧
  0 ≤ sel (win (_select_item t w).2) < py_len (items (win (_select_item t w).2)).
Proof.
  destruct t as [i|s]; cbn [_select_item].
  - destruct ((0 <=? i) && (i <? py_len (items (win w)))) eqn:E; [|done].
    intros _. apply andb_true_iff in E as [E1 E2].
    apply Z.leb_le in E1. apply Z.ltb_lt in E2. by split.
  - destruct (list_index s (items (win w))) as [i|] eqn:E; [|done].
    intros _. split; [done|]. by apply (list_index_range s).
Qed.

Lemma prefix_app p key : String.prefix p (p +:+ key) = true.
Proof.
  induction p as [|c p IH]; [by destruct key|].
  change (String c p +:+ key) with (String c (p +:+ key)). cbn [String.prefix].
  by destruct (ascii_dec c c).
Qed.

(** Decides the tests [do_POST] makes on a path with a literal prefix. *)
Ltac path_tests :=
  cbn [existsb];
  repeat match goal with
  | |- context [String.eqb (?p +:+ ?k) ?s] =>
      let H := fresh in
      assert (H : String.eqb (p +:+ k) s = false) by (vm_compute; reflexivity);
      rewrite H; clear H
  | |- context [String.prefix ?a (?p +:+ ?k)] =>
      let H := fresh in
      first [ assert (H : String.prefix a (p +:+ k) = false)
                by (vm_compute; reflexivity)
            | assert (H : String.prefix a (p +:+ k) = true)
                by apply prefix_app ];
      rewrite H; clear H
  end;
  cbn [orb negb].

(** X26: activating an item by key is selecting it and then pressing
    Enter.  On a visible menu and with a non-empty key, when the selection
    succeeds the activate command leaves the state that the select command
    followed by the enter command leaves; when it fails, the state is
    unchanged and the reply is "no such item". *)
Theorem activate_is_select_then_enter (key : string) (w : World) :
  visible (win w) = true → key ≠ "" →
  ((_select_item (target_of_key key) w).1 = true →
   step (Post ("/menu/activate/" +:+ key)) w
   = (w1 ← step (Post ("/menu/select/" +:+ key)) w; step (Post "/menu/enter") w1)) ∧
  ((_select_item (target_of_key key) w).1 = false →
   do_POST ("/menu/activate/" +:+ key) w = Return (w, RNoSuchItem)).
Proof.
  intros Hv Hk. apply truthy_ne in Hk.
  assert (Ha : do_POST ("/menu/activate/" +:+ key) w
               = (if (_select_item (target_of_key key) w).1
                  then w' ← _activate_selection (_select_item (target_of_key key) w).2;
                       Return (w', RActivated)
                  else Return ((_select_item (target_of_key key) w).2, RNoSuchItem))).
  { unfold do_POST.
    rewrite (after_prefix_app "/menu/activate/" key), Hk, Hv. by path_tests. }
  assert (Hs : do_POST ("/menu/select/" +:+ key) w
               = (if (_select_item (target_of_key key) w).1
                  then label ← py_getitem (items (win (_select_item (target_of_key key) w).2))
                                          (sel (win (_select_item (target_of_key key) w).2));
                       Return ((_select_item (target_of_key key) w).2,
                               RSelected true (Some label))
                  else Return ((_select_item (target_of_key key) w).2,
                               RSelected false None))).
  { unfold do_POST.
    rewrite (after_prefix_app "/menu/select/" key), Hv. by path_tests. }
  split.
  - intros Hok. unfold step. rewrite Ha, Hs, Hok.
    destruct (_select_item_ok_index _ _ Hok) as [Hv' Hi].
    destruct (py_getitem_in_range _ _ Hi) as (label & -> & _).
    rewrite !bind_Return. cbn [fst].
    unfold do_POST. cbn [String.eqb Ascii.eqb Bool.eqb existsb orb].
    rewrite Hv', Hv. cbn [negb]. unfold _activate_selection.
    by destruct (nav_enter _).
  - intros Hno. rewrite Ha, Hno.
    pose proof (_select_item_inv_fail (target_of_key key) w Hno) as ->. done.
Qed.

Lemma activate_is_select_then_enter_witness :
  parse_int "0_1" = Some 1 ∧
  step (Post ("/menu/activate/" +:+ "0_1")) (on_win (set_visible true) sample_world)
  = (w1 ← step (Post ("/menu/select/" +:+ "0_1")) (on_win (set_visible true) sample_world);
     step (Post "/menu/enter") w1).
Proof.
  split; [vm_compute; reflexivity|].
  destruct (activate_is_select_then_enter "0_1" (on_win (set_visible true) sample_world))
    as [H _]; [reflexivity | discriminate |].
  apply H. vm_compute. reflexivity.
Defined.

(** ** Titles *)

Lemma app_cons c s t : String c s +:+ t = String c (s +:+ t).
Proof. reflexivity. Qed.

Lemma app_nil_l_str t : "" +:+ t = t.
Proof. reflexivity. Qed.

Lemma app_nil_r_str s : s +:+ "" = s.
Proof. induction s as [|c s IH]; [done|]. by rewrite app_cons, IH. Qed.

Lemma app_assoc_str s t u : (s +:+ t) +:+ u = s +:+ (t +:+ u).
Proof. induction s as [|c s IH]; [done|]. by rewrite !app_cons, IH. Qed.

Lemma rev_onto_app s : ∀ acc, string_rev_onto s acc = string_rev s +:+ acc.
Proof.
  unfold string_rev. induction s as [|c s IH]; intros acc; [done|].
  cbn [string_rev_onto]. rewrite (IH (String c acc)), (IH (String c "")).
  by rewrite app_assoc_str.
Qed.

Lemma string_rev_app s t : string_rev (s +:+ t) = string_rev t +:+ string_rev s.
Proof.
  induction s as [|c s IH].
  - by rewrite app_nil_l_str, app_nil_r_str.
  - rewrite app_cons. unfold string_rev at 1 3. cbn [string_rev_onto].
    rewrite !rev_onto_app, IH. by rewrite app_assoc_str.
Qed.

Lemma string_rev_rev s : string_rev (string_rev s) = s.
Proof.
  induction s as [|c s IH]; [done|].
  unfold string_rev at 2. cbn [string_rev_onto].
  rewrite rev_onto_app, string_rev_app, IH. done.
Qed.

Lemma lstrip_lstrip s : lstrip (lstrip s) = lstrip s.
Proof.
  induction s as [|c s IH]; [done|]. cbn [lstrip].
  destruct (py_isspace c) eqn:E; [done|]. cbn [lstrip]. by rewrite E.
Qed.

Lemma lstrip_decomp s : ∃ pre, s = pre +:+ lstrip s.
Proof.
  induction s as [|c s [pre IH]]; [by exists ""|]. cbn [lstrip].
  destruct (py_isspace c).
  - exists (String c pre). by rewrite app_cons, <- IH.
  - by exists "".
Qed.

Lemma lstrip_length s : (String.length (lstrip s) ≤ String.length s)%nat.
Proof.
  induction s as [|c s IH]; [done|]. cbn [lstrip].
  destruct (py_isspace c); cbn [String.length]; lia.
Qed.

Lemma lstrip_head c s : lstrip (String c s) = String c s → py_isspace c = false.
Proof.
  cbn [lstrip]. destruct (py_isspace c); [|done]. intros E.
  pose proof (lstrip_length s) as H. rewrite E in H. cbn [String.length] in H. lia.
Qed.

(** What [strip] leaves has no blank at either end. *)
Lemma lstrip_rstripped a :
  lstrip a = a →
  lstrip (string_rev (lstrip (string_rev a))) = string_rev (lstrip (string_rev a)).
Proof.
  intros Ha. destruct (lstrip_decomp (string_rev a)) as [pre Hd].
  set (b := lstrip (string_rev a)) in *.
  assert (Ea : a = string_rev b +:+ string_rev pre).
  { by rewrite <- string_rev_app, <- Hd, string_rev_rev. }
  destruct (string_rev b) as [|c r]; [done|].
  rewrite Ea, app_cons in Ha. apply lstrip_head in Ha.
  cbn [lstrip]. by rewrite Ha.
Qed.

Lemma strip_strip s : strip (strip s) = strip s.
Proof.
  unfold strip.
  rewrite (lstrip_rstripped (lstrip s)) by apply lstrip_lstrip.
  by rewrite string_rev_rev, lstrip_lstrip.
Qed.

Lemma has_char_app x s t : has_char x (s +:+ t) = has_char x s || has_char x t.
Proof.
  induction s as [|c s IH]; [done|]. rewrite app_cons. cbn [has_char].
  by rewrite IH, orb_assoc.
Qed.

Lemma has_char_rev x s : has_char x (string_rev s) = has_char x s.
Proof.
  induction s as [|c s IH]; [done|].
  unfold string_rev. cbn [string_rev_onto]. rewrite rev_onto_app, has_char_app.
  cbn [has_char]. rewrite IH. by destruct (Ascii.eqb c x), (has_char x s).
Qed.

Lemma has_char_lstrip x s : has_char x s = false → has_char x (lstrip s) = false.
Proof.
  induction s as [|c s IH]; [done|]. cbn [lstrip has_char].
  intros [Hc Hs]%orb_false_iff. destruct (py_isspace c); [by apply IH|].
  cbn [has_char]. by rewrite Hc, Hs.
Qed.

Lemma has_char_strip x s : has_char x s = false → has_char x (strip s) = false.
Proof.
  intros H. unfold strip. rewrite has_char_rev. apply has_char_lstrip.
  rewrite has_char_rev. by apply has_char_lstrip.
Qed.

Lemma has_char_replace_gone a b s :
  a ≠ b → has_char a (replace_char a b s) = false.
Proof.
  intros Hab. induction s as [|c s IH]; [done|]. cbn [replace_char has_char].
  rewrite IH, orb_false_r. destruct (Ascii.eqb_spec c a) as [->|Hc].
  - apply Ascii.eqb_neq. congruence.
  - by apply Ascii.eqb_neq.
Qed.

Lemma has_char_replace_other a b x s :
  x ≠ b → has_char x s = false → has_char x (replace_char a b s) = false.
Proof.
  intros Hxb. induction s as [|c s IH]; [done|]. cbn [replace_char has_char].
  intros [Hc Hs]%orb_false_iff. rewrite (IH Hs), orb_false_r.
  destruct (Ascii.eqb c a); [|done]. apply Ascii.eqb_neq. congruence.
Qed.

(** X27: the title derived from a path.  It is empty only when the path has
    no file name.  It is either the file name itself (when the stem consists
    of blanks, underscores and dots only) or a text without underscores and
    dots and without blanks at either end. *)
Theorem _safe_title_from_path_spec (path : string) :
  (_safe_title_from_path path = "" ↔ path_name path = "") ∧
  (_safe_title_from_path path = path_name path ∨
   (has_char "_" (_safe_title_from_path path) = false ∧
    has_char "." (_safe_title_from_path path) = false ∧
    strip (_safe_title_from_path path) = _safe_title_from_path path)).
Proof.
  unfold _safe_title_from_path.
  set (base := path_name path).
  set (t := strip (replace_char "." " " (replace_char "_" " " (path_stem base)))).
  destruct (truthy t) eqn:Ht.
  - split.
    + apply truthy_ne in Ht. split; [done|]. intros Hb. exfalso. apply Ht.
      unfold t. by rewrite Hb.
    + right. split; [|split].
      * apply has_char_strip, has_char_replace_other; [done|].
        by apply has_char_replace_gone.
      * apply has_char_strip. by apply has_char_replace_gone.
      * apply strip_strip.
  - split; [done | by left].
Qed.

Lemma split_on_nonempty sep s : split_on sep s ≠ [].
Proof.
  destruct s as [|c s]; [done|]. cbn [split_on].
  destruct (Ascii.eqb c sep); [done|]. by destruct (split_on sep s).
Qed.

Lemma split_on_parts sep s x : x ∈ split_on sep s → has_char sep x = false.
Proof.
  revert x. induction s as [|c s IH]; intros x; cbn [split_on].
  - by intros ->%list_elem_of_singleton.
  - destruct (Ascii.eqb c sep) eqn:E.
    + intros [->|H]%elem_of_cons; [done | by apply IH].
    + destruct (split_on sep s) as [|y ys] eqn:Es.
      * intros ->%list_elem_of_singleton. cbn [has_char]. by rewrite E.
      * intros [->|H]%elem_of_cons.
        -- cbn [has_char]. rewrite E. apply IH, list_elem_of_here.
        -- by apply IH, list_elem_of_further.
Qed.

Lemma join_split sep s : join_with (String sep "") (split_on sep s) = s.
Proof.
  induction s as [|c s IH]; [done|]. cbn [split_on].
  destruct (Ascii.eqb_spec c sep) as [->|Hc].
  - pose proof (split_on_nonempty sep s) as Hne.
    destruct (split_on sep s) as [|y ys]; [done|].
    cbn [join_with] in *. by rewrite app_nil_l_str, app_cons, app_nil_l_str, IH.
  - destruct (split_on sep s) as [|y [|z ys]]; cbn [join_with] in *.
    + by rewrite <- IH.
    + by rewrite <- IH.
    + by rewrite app_cons, IH.
Qed.

Lemma split_on_has sep s :
  has_char sep s = true → (2 ≤ length (split_on sep s))%nat.
Proof.
  induction s as [|c s IH]; [done|]. cbn [has_char split_on].
  pose proof (split_on_nonempty sep s) as Hne.
  destruct (Ascii.eqb c sep); cbn [orb].
  - intros _. destruct (split_on sep s); [done|]. cbn [length]. lia.
  - intros H. specialize (IH H). destruct (split_on sep s); [done|].
    cbn [length] in *. lia.
Qed.

Lemma join_with_snoc sep l x :
  l ≠ [] → join_with sep (l ++ [x]) = join_with sep l +:+ sep +:+ x.
Proof.
  induction l as [|y l IH]; [done|]. intros _.
  destruct l as [|z l]; [done|].
  change (join_with sep ((y :: z :: l) ++ [x]))
    with (y +:+ sep +:+ join_with sep ((z :: l) ++ [x])).
  rewrite IH by done.
  change (join_with sep (y :: z :: l)) with (y +:+ sep +:+ join_with sep (z :: l)).
  by rewrite !app_assoc_str.
Qed.

(** X28: the overlay's [clean_title] cuts a title down to the last path
    component and drops what follows its last dot.  An empty title gives
    the empty text; a component without a dot is returned whole; otherwise
    the component is the result, a dot, and a dot-free rest. *)
Theorem clean_title_spec (t : string) :
  (t = "" → clean_title t = "") ∧
  (t ≠ "" → has_char "." (path_name t) = false → clean_title t = path_name t) ∧
  (t ≠ "" → has_char "." (path_name t) = true →
   ∃ ext, has_char "." ext = false ∧
          path_name t = clean_title t +:+ "." +:+ ext).
Proof.
  unfold clean_title. split; [by intros ->|]. split.
  - intros Ht%truthy_ne Hd. by rewrite Ht, Hd.
  - intros Ht%truthy_ne Hd. rewrite Ht, Hd. cbn [negb].
    set (name := path_name t) in *.
    pose proof (split_on_has "." name Hd) as Hlen.
    pose proof (join_split "." name) as Hj.
    pose proof (split_on_parts "." name) as Hp.
    destruct (exists_last (split_on_nonempty "." name)) as (init & ext & E).
    rewrite E in *. rewrite removelast_last.
    exists ext. split; [apply Hp, elem_of_app; right; apply list_elem_of_here|].
    rewrite <- Hj at 1. apply join_with_snoc.
    intros ->. cbn [length app] in Hlen. lia.
Qed.

(** ** Failures of the schedule store: what leaves the loader *)





